(** * Workflow execution engine of mini-n8n-engine: a shallow embedding

    The development follows [server/workflow-engine.ts] (the engine and its
    four node executors), [server/storage.ts] (the in-memory store),
    [server/routes.ts] (the routes), [shared/schema.ts] (the node types),
    the scheduler of [client/src/lib/workflow-engine.ts], and the earlier
    [nodes/LogMessageNode.ts] and [core/Workflow.ts].

    Modelling conventions.
    - A JavaScript [Map] is an association list that keeps insertion order:
      [set] on an existing key keeps the key's position, [set] on a new key
      appends.  Plain objects used as records or dictionaries are modelled
      the same way.  JavaScript enumerates integer-like keys first and does
      not store a property under [__proto__]; where the order or the
      presence of keys is stated, such keys are excluded by hypothesis
      ([plain_key], [plain_value]).
    - A property read under a key chosen by the user looks among the own
      properties first; for a name that is no own property the environment
      tells what the prototype chain has.  The keys the code itself reads
      ([url], [method], [message], ...) name no built-in member.
    - JavaScript values are the JSON values plus [undefined]; numbers are
      the integers, printed as JavaScript prints them within the safe
      range.
    - Strings are strings of ASCII characters.
    - [throw new Error(m)] is the result [Throw m].
    - The clock, the HTTP transport ([axios]), the script evaluator
      ([eval]) and the built-in members of the prototype chains are
      parameters, collected in [Env].  The evaluator is given the bindings
      in scope at the call of [eval]; of the changes a script can make to
      the objects it reaches, the model shows the one to the record that
      the branch step returns.
    - What the engine writes to the console is left out; the console
      lines of the earlier log node are kept, since they are all it
      produces. *)

From Stdlib Require Import List String Ascii ZArith Lia Bool Arith.
From Stdlib Require Import DecimalString Decimal.
Import ListNotations.

Set Warnings "-register-all".
Open Scope string_scope.
Open Scope list_scope.

(** String concatenation, as [+] on strings and template literals. *)
Infix "^^" := String.append (at level 60, right associativity).

(** ** Results of fallible code *)

Inductive result (A : Type) : Type :=
| Ok (a : A)
| Throw (message : string).
Arguments Ok {A} a.
Arguments Throw {A} message.

(** What follows a fallible step that went well. *)
Definition map_ok {A B : Type} (f : A -> B) (r : result A) : result B :=
  match r with
  | Ok a => Ok (f a)
  | Throw m => Throw m
  end.

(** ** JavaScript [Map] with insertion order *)

Definition jsmap (V : Type) : Type := list (string * V).

Fixpoint map_get {V : Type} (k : string) (m : jsmap V) : option V :=
  match m with
  | [] => None
  | (k', v) :: m' => if String.eqb k' k then Some v else map_get k m'
  end.

Definition map_has {V : Type} (k : string) (m : jsmap V) : bool :=
  match map_get k m with
  | Some _ => true
  | None => false
  end.

Fixpoint map_set {V : Type} (k : string) (v : V) (m : jsmap V) : jsmap V :=
  match m with
  | [] => [(k, v)]
  | (k', v') :: m' =>
      if String.eqb k' k then (k', v) :: m' else (k', v') :: map_set k v m'
  end.

Definition map_keys {V : Type} (m : jsmap V) : list string := map fst m.

(** ** JavaScript values *)

Inductive value : Type :=
| VUndefined
| VNull
| VBool (b : bool)
| VNum (z : Z)
| VStr (s : string)
| VArr (items : list value)
| VObj (fields : list (string * value)).

(** [{}] *)
Definition empty_object : value := VObj [].

(** [Boolean(v)]: the falsy values are [undefined], [null], [false], [0]
    and the empty string. *)
Definition truthy (v : value) : bool :=
  match v with
  | VUndefined | VNull => false
  | VBool b => b
  | VNum z => negb (Z.eqb z 0)
  | VStr s => negb (String.eqb s EmptyString)
  | VArr _ | VObj _ => true
  end.

(** [a || b] *)
Definition js_or (a b : value) : value := if truthy a then a else b.

(** Decimal rendering of a number, as [String(n)] for an integer. *)
Definition string_of_Z (z : Z) : string := NilZero.string_of_int (Z.to_int z).
Definition string_of_nat (n : nat) : string := string_of_Z (Z.of_nat n).

(** [arr[i]] on a list: [undefined] out of range. *)
Definition nth_value (l : list value) (i : nat) : value := nth i l VUndefined.

(** [inputData[0]] *)
Definition first_item (inputData : list value) : value := nth_value inputData 0.

(** The index named by a property key, when the key is the canonical
    decimal form of an index below [len]. *)
Fixpoint find_index (key : string) (len : nat) : option nat :=
  match len with
  | O => None
  | S n =>
      match find_index key n with
      | Some i => Some i
      | None => if String.eqb (string_of_nat n) key then Some n else None
      end
  end.

(** [s[i]] on a string: the one-character string at [i]. *)
Definition char_at (s : string) (i : nat) : value :=
  match String.get i s with
  | Some c => VStr (String c EmptyString)
  | None => VUndefined
  end.

(** [obj[key]] for a value that is neither [null] nor [undefined]: own
    properties of objects, elements and [length] of arrays and strings. *)
Definition get_prop (obj : value) (key : string) : value :=
  match obj with
  | VObj fields =>
      match map_get key fields with
      | Some v => v
      | None => VUndefined
      end
  | VArr items =>
      if String.eqb key "length" then VNum (Z.of_nat (List.length items))
      else match find_index key (List.length items) with
           | Some i => nth_value items i
           | None => VUndefined
           end
  | VStr s =>
      if String.eqb key "length" then VNum (Z.of_nat (String.length s))
      else match find_index key (String.length s) with
           | Some i => char_at s i
           | None => VUndefined
           end
  | _ => VUndefined
  end.

(** [obj[key]] among the own properties of [obj]; [None] when [obj] has
    no own property of that name, so that the prototype chain decides. *)
Definition own_prop (obj : value) (key : string) : option value :=
  match obj with
  | VObj fields => map_get key fields
  | VArr items =>
      if String.eqb key "length" then Some (VNum (Z.of_nat (List.length items)))
      else option_map (nth_value items) (find_index key (List.length items))
  | VStr s =>
      if String.eqb key "length" then Some (VNum (Z.of_nat (String.length s)))
      else option_map (char_at s) (find_index key (String.length s))
  | _ => None
  end.

(** [String(v)], the coercion applied by template literals and by
    [String.prototype.replace] to the value its callback returns. *)
Fixpoint js_to_string (v : value) : string :=
  match v with
  | VUndefined => "undefined"
  | VNull => "null"
  | VBool true => "true"
  | VBool false => "false"
  | VNum z => string_of_Z z
  | VStr s => s
  | VArr items =>
      String.concat ","
        (map (fun x => match x with
                       | VUndefined | VNull => EmptyString
                       | _ => js_to_string x
                       end) items)
  | VObj _ => "[object Object]"
  end.

(** *** [JSON.stringify] *)

Definition quote_char : ascii := "034"%char.
Definition backslash : ascii := "092"%char.
Definition newline : string := String "010"%char EmptyString.

Definition hex_digit (n : nat) : ascii :=
  nth n ["0"; "1"; "2"; "3"; "4"; "5"; "6"; "7"; "8"; "9";
         "a"; "b"; "c"; "d"; "e"; "f"]%char "0"%char.

(** One character of [QuoteJSONString]. *)
Definition escape_char (c : ascii) : string :=
  let n := nat_of_ascii c in
  if Nat.eqb n 34 then String backslash (String quote_char EmptyString)
  else if Nat.eqb n 92 then String backslash (String backslash EmptyString)
  else if Nat.eqb n 8 then String backslash "b"
  else if Nat.eqb n 9 then String backslash "t"
  else if Nat.eqb n 10 then String backslash "n"
  else if Nat.eqb n 12 then String backslash "f"
  else if Nat.eqb n 13 then String backslash "r"
  else if Nat.ltb n 32 then
    String backslash
      (String "u" (String "0" (String "0"
        (String (hex_digit (n / 16)) (String (hex_digit (n mod 16)) EmptyString)))))
  else String c EmptyString.

Fixpoint escape_string (s : string) : string :=
  match s with
  | EmptyString => EmptyString
  | String c s' => escape_char c ^^ escape_string s'
  end.

Definition quote_json (s : string) : string :=
  String quote_char (escape_string s ^^ String quote_char EmptyString).

(** [SerializeJSONProperty] with indentation unit [gap] at current
    indentation [indent]; [None] is [undefined]. *)
Fixpoint serialize (gap indent : string) (v : value) : option string :=
  match v with
  | VUndefined => None
  | VNull => Some "null"
  | VBool true => Some "true"
  | VBool false => Some "false"
  | VNum z => Some (string_of_Z z)
  | VStr s => Some (quote_json s)
  | VArr items =>
      let inner := indent ^^ gap in
      let partial :=
        map (fun x => match serialize gap inner x with
                      | Some s => s
                      | None => "null"
                      end) items in
      match partial with
      | [] => Some "[]"
      | _ =>
          if String.eqb gap EmptyString then Some ("[" ^^ String.concat "," partial ^^ "]")
          else Some ("[" ^^ newline ^^ inner
                     ^^ String.concat ("," ^^ newline ^^ inner) partial
                     ^^ newline ^^ indent ^^ "]")
      end
  | VObj fields =>
      let inner := indent ^^ gap in
      let partial :=
        flat_map (fun kv => match serialize gap inner (snd kv) with
                            | Some s =>
                                [quote_json (fst kv) ^^ ":"
                                 ^^ (if String.eqb gap EmptyString then EmptyString else " ") ^^ s]
                            | None => []
                            end) fields in
      match partial with
      | [] => Some "{}"
      | _ =>
          if String.eqb gap EmptyString then Some ("{" ^^ String.concat "," partial ^^ "}")
          else Some ("{" ^^ newline ^^ inner
                     ^^ String.concat ("," ^^ newline ^^ inner) partial
                     ^^ newline ^^ indent ^^ "}")
      end
  end.

(** [JSON.stringify(v)] and [JSON.stringify(v, null, 2)] *)
Definition JSON_stringify (v : value) : option string := serialize EmptyString EmptyString v.
Definition JSON_stringify_pretty (v : value) : option string := serialize "  " EmptyString v.

(** A template literal interpolating a possibly undefined string. *)
Definition or_undefined (s : option string) : string :=
  match s with
  | Some x => x
  | None => "undefined"
  end.

(** ** The shared schema ([shared/schema.ts]) *)

Record WorkflowNode : Type := {
  node_id : string;
  node_type : string;
  node_params : option (list (string * value))
}.

Record Connection : Type := {
  conn_id : string;
  conn_from : string;
  conn_to : string
}.

Record Workflow : Type := {
  wf_id : string;
  wf_name : string;
  wf_nodes : list WorkflowNode;
  wf_connections : list Connection
}.

Inductive Status : Type := running | completed | failed | stopped.

Inductive Level : Type := info | error | warn.

Record LogEntry : Type := {
  log_timestamp : string;
  log_level : Level;
  log_message : string;
  log_nodeId : option string
}.

Record Execution : Type := {
  ex_id : string;
  ex_workflowId : string;
  ex_status : Status;
  ex_startedAt : string;
  ex_completedAt : option string;
  ex_currentNodeId : option string;
  ex_logs : list LogEntry;
  ex_results : option (jsmap (list value))
}.

(** ** The scheduler: [WorkflowEngine.getExecutionOrder] *)

(** An in-degree: a JavaScript number, [NaN] included. *)
Inductive jsnum : Type :=
| Num (z : Z)
| NaN.

(** [x || 0] for [x] a number or [undefined] *)
Definition or_zero (x : option jsnum) : Z :=
  match x with
  | Some (Num z) => z
  | _ => 0%Z
  end.

(** [x! - 1] for [x] a number or [undefined] *)
Definition minus_one (x : option jsnum) : jsnum :=
  match x with
  | Some (Num z) => Num (z - 1)
  | _ => NaN
  end.

(** [x === 0] *)
Definition is_zero (x : option jsnum) : bool :=
  match x with
  | Some (Num z) => Z.eqb z 0
  | _ => false
  end.

(** The first loop: every node gets in-degree 0 and an empty adjacency
    list. *)
Definition init_graph (nodes : list WorkflowNode)
  : jsmap jsnum * jsmap (list string) :=
  fold_left
    (fun st node =>
       (map_set (node_id node) (Num 0) (fst st),
        map_set (node_id node) [] (snd st)))
    nodes ([], []).

Definition invalid_connection_message (from to : string) : string :=
  "Invalid connection: " ^^ from ^^ " -> " ^^ to.

(** The second loop: validate each connection, then record it. *)
Fixpoint build_graph (connections : list Connection)
    (inDegree : jsmap jsnum) (graph : jsmap (list string))
  : result (jsmap jsnum * jsmap (list string)) :=
  match connections with
  | [] => Ok (inDegree, graph)
  | conn :: rest =>
      if negb (map_has (conn_from conn) graph) || negb (map_has (conn_to conn) graph)
      then Throw (invalid_connection_message (conn_from conn) (conn_to conn))
      else
        let graph' :=
          match map_get (conn_from conn) graph with
          | Some l => map_set (conn_from conn) (l ++ [conn_to conn]) graph
          | None => graph
          end in
        let inDegree' :=
          map_set (conn_to conn)
            (Num (or_zero (map_get (conn_to conn) inDegree) + 1)) inDegree in
        build_graph rest inDegree' graph'
  end.

(** The nodes with no incoming edge, in the iteration order of the map. *)
Definition seeds (inDegree : jsmap jsnum) : list string :=
  map fst (filter (fun e => is_zero (Some (snd e))) inDegree).

(** One pass of the inner [for] loop over the neighbours. *)
Definition visit_neighbor (st : jsmap jsnum * list string) (neighborId : string)
  : jsmap jsnum * list string :=
  let inDegree' :=
    map_set neighborId (minus_one (map_get neighborId (fst st))) (fst st) in
  if is_zero (map_get neighborId inDegree')
  then (inDegree', snd st ++ [neighborId])
  else (inDegree', snd st).

(** [graph.get(nodeId) || []] *)
Definition neighbors (graph : jsmap (list string)) (nodeId : string) : list string :=
  match map_get nodeId graph with
  | Some l => l
  | None => []
  end.

(** The [while] loop.  [fuel] bounds the number of iterations; by lemma
    [getExecutionOrder_fuel] the bound used by [getExecutionOrder] never
    cuts the loop short: more fuel gives the same order. *)
Fixpoint kahn_loop (fuel : nat) (graph : jsmap (list string))
    (inDegree : jsmap jsnum) (queue executionOrder : list string) : list string :=
  match fuel with
  | O => executionOrder
  | S fuel' =>
      match queue with
      | [] => executionOrder
      | nodeId :: queue' =>
          let st := fold_left visit_neighbor (neighbors graph nodeId) (inDegree, queue') in
          kahn_loop fuel' graph (fst st) (snd st) (executionOrder ++ [nodeId])
      end
  end.

Definition cycle_message : string :=
  "Workflow contains a cycle and cannot be executed".

Definition getExecutionOrder (nodes : list WorkflowNode)
    (connections : list Connection) : result (list string) :=
  let g0 := init_graph nodes in
  match build_graph connections (fst g0) (snd g0) with
  | Throw m => Throw m
  | Ok (inDegree, graph) =>
      let executionOrder :=
        kahn_loop (List.length nodes) graph inDegree (seeds inDegree) [] in
      if negb (Nat.eqb (List.length executionOrder) (List.length nodes))
      then Throw cycle_message
      else Ok executionOrder
  end.

(** ** Parameters of the environment *)

Record AxiosConfig : Type := {
  ax_method : string;
  ax_url : value;
  ax_headers : value;
  ax_data : value;
  ax_timeout : Z
}.

Record AxiosResponse : Type := {
  resp_status : Z;
  resp_statusText : string;
  resp_headers : value;
  resp_data : value
}.

(** The error a rejected [axios] call carries: [error.response], whether
    [error.request] is set, and [error.message]. *)
Record AxiosError : Type := {
  err_response : option AxiosResponse;
  err_request : bool;
  err_message : string
}.

Inductive AxiosOutcome : Type :=
| Resolved (response : AxiosResponse)
| Rejected (err : AxiosError).

(** What a script evaluated by [IfNode.execute] finds in scope: the
    bindings of [execute] at the call of [eval]. *)
Record EvalScope : Type := {
  scope_inputData : list value;
  scope_params : list (string * value);
  scope_condition : string;
  scope_data : value
}.

(** What an evaluation that returns leaves behind: the value of the script
    and the record [data] as the script leaves it. *)
Record Evaluated : Type := {
  ev_value : value;
  ev_data : value
}.

(** What the evaluation of a script comes to.  The script returns; or it
    throws a value whose [message] the handler of the step reads, as the
    text [${error.message}]; or it throws a value whose [message] cannot
    be read ([null], [undefined]), and the handler itself fails, with the
    error of that reading. *)
Inductive EvalOutcome : Type :=
| Returns (r : Evaluated)
| Raises (message : string)
| RaisesUnreadable (m : string).

Record Env : Type := {
  (** the HTTP transport *)
  axios : AxiosConfig -> AxiosOutcome;
  (** direct [eval] of a script in a scope *)
  js_eval : EvalScope -> string -> EvalOutcome;
  (** whether the prototype chain of a value has a member of a given name *)
  prototype_has : value -> string -> bool;
  (** for a member found on the prototype chain of a value: the text that
      [JSON.stringify] gives, [undefined] included, for what the optional
      chain [?.[k1]?.[k2]...] over the remaining keys reaches from that
      member, or the message of the error raised on the way *)
  prototype_json : value -> string -> list string -> result string;
  (** the same for the walk [o ? o[k] : undefined] and the conversion to
      a string; [None] when the walk ends in [undefined] *)
  prototype_text : value -> string -> list string -> result (option string);
  (** message of the [TypeError] raised by calling the named string method
      on a value that is not a string *)
  type_error_message : string -> value -> string;
  (** [new Date().toISOString()] at the n-th reading of the clock *)
  clock : nat -> string
}.

(** ** Placeholders *)

(** [s.split(sep)] for a one-character separator *)
Fixpoint split_on (sep : ascii) (s : string) : list string :=
  match s with
  | EmptyString => [EmptyString]
  | String c s' =>
      if Ascii.eqb c sep then EmptyString :: split_on sep s'
      else match split_on sep s' with
           | h :: t => String c h :: t
           | [] => [String c EmptyString]
           end
  end.

(** Where a walk along keys ends: at a value, or at a member of the
    prototype chain of [v], found under [key] with the keys [rest] still
    to go. *)
Inductive Walk : Type :=
| Reached (v : value)
| Beyond (v : value) (key : string) (rest : list string).

(** The walk [keys.reduce((obj, key) => step(obj, key), data)], where
    [step] reads [obj[key]] when [enter obj] holds and gives [undefined]
    otherwise.  An own property is found first; a name that is no own
    property is looked for on the prototype chain. *)
Fixpoint walk (enter : value -> bool) (has : value -> string -> bool)
    (keys : list string) (v : value) : Walk :=
  match keys with
  | [] => Reached v
  | key :: rest =>
      if enter v then
        match own_prop v key with
        | Some x => walk enter has rest x
        | None =>
            if has v key then Beyond v key rest
            else walk enter has rest VUndefined
        end
      else walk enter has rest VUndefined
  end.

(** [obj?.[key]] reads the property unless [obj] is [null] or [undefined]. *)
Definition not_nullish (v : value) : bool :=
  match v with
  | VUndefined | VNull => false
  | _ => true
  end.

(** [path.split('.').reduce((obj, key) => obj?.[key], data)] *)
Definition lookup_path (E : Env) (path : string) (data : value) : Walk :=
  walk not_nullish (prototype_has E) (split_on "." path) data.

(** The longest prefix without ["}"], and what follows it. *)
Fixpoint span_body (s : string) : string * string :=
  match s with
  | EmptyString => (EmptyString, EmptyString)
  | String c s' =>
      if Ascii.eqb c "}" then (EmptyString, s)
      else let r := span_body s' in (String c (fst r), snd r)
  end.

(** [s] starts with two closing braces. *)
Definition starts_with_close (s : string) : bool :=
  match s with
  | String d1 (String d2 _) => Ascii.eqb d1 "}" && Ascii.eqb d2 "}"
  | _ => false
  end.

(** A match of [/\{\{([^}]+)\}\}/] at the start of [s]: the captured path
    and the length of the match. *)
Definition match_placeholder (s : string) : option (string * nat) :=
  match s with
  | String c1 (String c2 t) =>
      if Ascii.eqb c1 "{" && Ascii.eqb c2 "{" then
        let r := span_body t in
        if negb (String.eqb (fst r) EmptyString) && starts_with_close (snd r)
        then Some (fst r, 4 + String.length (fst r))
        else None
      else None
  | _ => None
  end.

(** [s.replace(re, callback)] for a global pattern [re] whose match at a
    position is given by [matcher]: matches are found left to right, each
    is replaced by [callback] of its capture, and the search resumes after
    the match.  [skip] counts the characters of the current match still to
    be dropped. *)
Fixpoint replace_matches (matcher : string -> option (string * nat))
    (callback : string -> string) (skip : nat) (s : string) : string :=
  match s with
  | EmptyString => EmptyString
  | String c s' =>
      match skip with
      | S k => replace_matches matcher callback k s'
      | O =>
          match matcher s with
          | Some (capture, len) =>
              callback capture ^^ replace_matches matcher callback (len - 1) s'
          | None => String c (replace_matches matcher callback 0 s')
          end
      end
  end.

(** The same for a callback that can raise an error: the first error, in
    the order of the matches, ends the replacement. *)
Fixpoint replace_matches_r (matcher : string -> option (string * nat))
    (callback : string -> result string) (skip : nat) (s : string)
  : result string :=
  match s with
  | EmptyString => Ok EmptyString
  | String c s' =>
      match skip with
      | S k => replace_matches_r matcher callback k s'
      | O =>
          match matcher s with
          | Some (capture, len) =>
              match callback capture with
              | Throw m => Throw m
              | Ok text =>
                  match replace_matches_r matcher callback (len - 1) s' with
                  | Throw m => Throw m
                  | Ok rest => Ok (text ^^ rest)
                  end
              end
          | None =>
              match replace_matches_r matcher callback 0 s' with
              | Throw m => Throw m
              | Ok rest => Ok (String c rest)
              end
          end
      end
  end.

(** The callback of [IfNode.execute]: [JSON.stringify] of what the path
    leads to. *)
Definition render_json (E : Env) (data : value) (path : string) : result string :=
  match lookup_path E path data with
  | Reached v => Ok (or_undefined (JSON_stringify v))
  | Beyond v key rest => prototype_json E v key rest
  end.

(** The substitution step of [IfNode.execute]. *)
Definition substitute_condition (E : Env) (condition : string) (data : value)
  : result string :=
  replace_matches_r match_placeholder (render_json E data) 0 condition.

(** ** A reference fragment of [eval]

    Scripts made of one atom, or two atoms around a comparison operator,
    separated by spaces.  Atoms are [true], [false], [null], [undefined],
    canonical decimal integers within the safe range, and double-quoted
    strings without escapes.  [None]: the script is outside the fragment. *)

Fixpoint simple_chars (s : string) : bool :=
  match s with
  | EmptyString => true
  | String c s' =>
      let n := nat_of_ascii c in
      negb (Nat.eqb n 34) && negb (Nat.eqb n 92) && Nat.leb 32 n && Nat.ltb n 127
      && simple_chars s'
  end.

(** [s] without its last character, when that character is [c]. *)
Fixpoint strip_last (c : ascii) (s : string) : option string :=
  match s with
  | EmptyString => None
  | String a EmptyString => if Ascii.eqb a c then Some EmptyString else None
  | String a s' => option_map (String a) (strip_last c s')
  end.

Definition max_safe_integer : Z := 9007199254740991.

Definition parse_atom (tok : string) : option value :=
  if String.eqb tok "true" then Some (VBool true)
  else if String.eqb tok "false" then Some (VBool false)
  else if String.eqb tok "null" then Some VNull
  else if String.eqb tok "undefined" then Some VUndefined
  else
    match tok with
    | String c rest =>
        if Ascii.eqb c quote_char then
          match strip_last quote_char rest with
          | Some body => if simple_chars body then Some (VStr body) else None
          | None => None
          end
        else
          match NilZero.int_of_string tok with
          | Some i =>
              let z := Z.of_int i in
              if String.eqb (string_of_Z z) tok
                 && Z.leb (Z.abs z) max_safe_integer
              then Some (VNum z) else None
          | None => None
          end
    | EmptyString => None
    end.

(** [a === b] on primitive values *)
Definition strict_equal (a b : value) : bool :=
  match a, b with
  | VUndefined, VUndefined => true
  | VNull, VNull => true
  | VBool x, VBool y => Bool.eqb x y
  | VNum x, VNum y => Z.eqb x y
  | VStr x, VStr y => String.eqb x y
  | _, _ => false
  end.

Definition eval_binary (a : value) (op : string) (b : value) : option value :=
  if String.eqb op "===" then Some (VBool (strict_equal a b))
  else if String.eqb op "!==" then Some (VBool (negb (strict_equal a b)))
  else
    match a, b with
    | VNum x, VNum y =>
        if String.eqb op "<" then Some (VBool (Z.ltb x y))
        else if String.eqb op "<=" then Some (VBool (Z.leb x y))
        else if String.eqb op ">" then Some (VBool (Z.ltb y x))
        else if String.eqb op ">=" then Some (VBool (Z.leb y x))
        else None
    | _, _ => None
    end.

Definition eval_fragment (script : string) : option value :=
  match filter (fun t => negb (String.eqb t EmptyString)) (split_on " " script) with
  | [a] => parse_atom a
  | [a; op; b] =>
      match parse_atom a, parse_atom b with
      | Some x, Some y => eval_binary x op y
      | _, _ => None
      end
  | _ => None
  end.

(** An evaluator agrees with the fragment. *)
Definition eval_agrees (E : Env) : Prop :=
  forall scope script v,
    eval_fragment script = Some v ->
    js_eval E scope script
    = Returns {| ev_value := v; ev_data := scope_data scope |}.

(** ** The node executors ([INode.execute]) *)

(** Destructuring with a default: [const { key = dflt } = params]. *)
Definition param_or (params : list (string * value)) (key : string) (dflt : value)
  : value :=
  match get_prop (VObj params) key with
  | VUndefined => dflt
  | v => v
  end.

(** [{ ...base, ...params }]: the own properties of [params] are written
    into [base] in order. *)
Definition spread (base params : list (string * value)) : list (string * value) :=
  fold_left (fun acc kv => map_set (fst kv) (snd kv) acc) params base.

Definition StartNode_execute (E : Env) (now : string) (inputData : list value)
    (params : list (string * value)) : result (list value) :=
  Ok [VObj (spread [("startTime", VStr now)] params)].

Fixpoint to_lower (s : string) : string :=
  match s with
  | EmptyString => EmptyString
  | String c s' =>
      let n := nat_of_ascii c in
      String (if Nat.leb 65 n && Nat.leb n 90 then ascii_of_nat (n + 32) else c)
             (to_lower s')
  end.

Definition missing_url_message : string := "URL is required for HTTP request".
Definition no_response_message : string := "No response received from server".

Definition status_error_message (status : Z) (statusText : string) : string :=
  "HTTP " ^^ string_of_Z status ^^ ": " ^^ statusText.

Definition setup_failure_message (m : string) : string := "Request failed: " ^^ m.

(** The [catch] block of [FetchApiNode.execute]. *)
Definition fetch_error_message (err : AxiosError) : string :=
  match err_response err with
  | Some r => status_error_message (resp_status r) (resp_statusText r)
  | None =>
      if err_request err then no_response_message
      else setup_failure_message (err_message err)
  end.

(** [FetchApiNode.execute], together with the requests handed to the
    transport. *)
Definition FetchApiNode_run (E : Env) (inputData : list value)
    (params : list (string * value))
  : result (list value) * list AxiosConfig :=
  let method := param_or params "method" (VStr "GET") in
  let url := get_prop (VObj params) "url" in
  let headers := param_or params "headers" empty_object in
  let body := get_prop (VObj params) "body" in
  if negb (truthy url) then (Throw missing_url_message, [])
  else
    match method with
    | VStr m =>
        let config := {| ax_method := to_lower m; ax_url := url;
                         ax_headers := headers; ax_data := body;
                         ax_timeout := 30000 |} in
        match axios E config with
        | Resolved response =>
            (Ok [VObj [("statusCode", VNum (resp_status response));
                       ("headers", resp_headers response);
                       ("data", resp_data response);
                       ("inputData", js_or (first_item inputData) empty_object)]],
             [config])
        | Rejected err => (Throw (fetch_error_message err), [config])
        end
    | _ =>
        (Throw (setup_failure_message (type_error_message E "toLowerCase" method)),
         [])
    end.

Definition FetchApiNode_execute (E : Env) (now : string) (inputData : list value)
    (params : list (string * value)) : result (list value) :=
  fst (FetchApiNode_run E inputData params).

Definition LogMessageNode_execute (E : Env) (now : string) (inputData : list value)
    (params : list (string * value)) : result (list value) :=
  let message := param_or params "message" (VStr "Log output") in
  let data := js_or (first_item inputData) empty_object in
  Ok [VObj [("logMessage", message); ("loggedData", data);
            ("timestamp", VStr now)]].

Definition condition_error_message (condition m : string) : string :=
  "Failed to evaluate condition " ^^ String quote_char condition
  ^^ String quote_char (": " ^^ m).

Definition IfNode_execute (E : Env) (now : string) (inputData : list value)
    (params : list (string * value)) : result (list value) :=
  let condition := param_or params "condition" (VStr "true") in
  let data := js_or (first_item inputData) empty_object in
  match condition with
  | VStr c =>
      match substitute_condition E c data with
      | Throw m => Throw (condition_error_message c m)
      | Ok evaluableCondition =>
          match js_eval E {| scope_inputData := inputData; scope_params := params;
                             scope_condition := c; scope_data := data |}
                  evaluableCondition with
          | Returns r =>
              Ok [VObj [("conditionResult", VBool (truthy (ev_value r)));
                        ("conditionExpression", condition);
                        ("inputData", ev_data r);
                        ("outputPath",
                         VStr (if truthy (ev_value r) then "true" else "false"))]]
          | Raises m => Throw (condition_error_message c m)
          | RaisesUnreadable m => Throw m
          end
      end
  | _ =>
      Throw (condition_error_message (js_to_string condition)
               (type_error_message E "replace" condition))
  end.

(** ** The earlier log node ([nodes/LogMessageNode.ts]) *)

Module Legacy.

(** A match of [/\{\{(.*?)\}\}/] after the opening braces: the shortest
    run of characters other than line terminators that is followed by
    two closing braces. *)
Fixpoint lazy_body (s : string) : option string :=
  match s with
  | EmptyString => None
  | String c s' =>
      if starts_with_close s then Some EmptyString
      else if Ascii.eqb c "010" || Ascii.eqb c "013" then None
      else option_map (String c) (lazy_body s')
  end.

Definition match_placeholder (s : string) : option (string * nat) :=
  match s with
  | String c1 (String c2 t) =>
      if Ascii.eqb c1 "{" && Ascii.eqb c2 "{" then
        match lazy_body t with
        | Some key => Some (key, 4 + String.length key)
        | None => None
        end
      else None
  | _ => None
  end.

(** [key.split('.').reduce((o, i) => (o ? o[i] : undefined), item)] *)
Definition lookup_path (E : Env) (key : string) (item : value) : Walk :=
  walk truthy (prototype_has E) (split_on "." key) item.

(** The callback of the replacement, with the conversion to a string that
    [replace] applies to what it returns. *)
Definition render_placeholder (E : Env) (item : value) (key : string)
  : result string :=
  match lookup_path E key item with
  | Reached VUndefined => Ok ("{{" ^^ key ^^ "}}")
  | Reached v => Ok (js_to_string v)
  | Beyond v k rest =>
      match prototype_text E v k rest with
      | Throw m => Throw m
      | Ok None => Ok ("{{" ^^ key ^^ "}}")
      | Ok (Some text) => Ok text
      end
  end.

Definition format_message (E : Env) (message : string) (item : value)
  : result string :=
  replace_matches_r match_placeholder (render_placeholder E item) 0 message.

(** The [for] loop over the items: the lines written, and the message of
    the error that ended the loop, if one did. *)
Fixpoint log_items (E : Env) (message : string) (input : list value)
  : option string * list string :=
  match input with
  | [] => (None, [])
  | item :: rest =>
      match format_message E message item with
      | Throw m => (Some m, [])
      | Ok formattedMessage =>
          let r := log_items E message rest in
          (fst r, ("LOG: " ^^ formattedMessage) :: snd r)
      end
  end.

(** [LogMessageNode.execute]: the returned list and the lines written to
    the console.  [params] is [None] when it is [null] or [undefined]. *)
Definition LogMessageNode_execute (E : Env) (input : list value)
    (params : option (list (string * value)))
  : result (list value) * list string :=
  let message :=
    match params with
    | Some p => get_prop (VObj p) "message"
    | None => VUndefined
    end in
  if negb (truthy message)
  then (Ok input,
        ["LogMessageNode: 'message' parameter not provided. Skipping log."])
  else
    match message, input with
    | VStr m, _ =>
        match log_items E m input with
        | (None, lines) => (Ok input, lines)
        | (Some e, lines) => (Throw e, lines)
        end
    | _, [] => (Ok input, [])
    | _, _ :: _ => (Throw (type_error_message E "replace" message), [])
    end.

End Legacy.

(** ** The execution store ([MemStorage]) *)

(** [Partial<Execution>]: a field is [None] when the update does not
    mention it; an optional field mentioned as [undefined] is [Some None]. *)
Record ExecutionUpdate : Type := {
  up_status : option Status;
  up_completedAt : option (option string);
  up_currentNodeId : option (option string);
  up_logs : option (list LogEntry);
  up_results : option (option (jsmap (list value)))
}.

Definition or_else {A : Type} (o : option A) (d : A) : A :=
  match o with
  | Some a => a
  | None => d
  end.

(** [{ ...existing, ...updateData }] *)
Definition merge_execution (existing : Execution) (u : ExecutionUpdate) : Execution :=
  {| ex_id := ex_id existing;
     ex_workflowId := ex_workflowId existing;
     ex_status := or_else (up_status u) (ex_status existing);
     ex_startedAt := ex_startedAt existing;
     ex_completedAt := or_else (up_completedAt u) (ex_completedAt existing);
     ex_currentNodeId := or_else (up_currentNodeId u) (ex_currentNodeId existing);
     ex_logs := or_else (up_logs u) (ex_logs existing);
     ex_results := or_else (up_results u) (ex_results existing) |}.

Definition Storage : Type := jsmap Execution.

Definition getExecution (id : string) (st : Storage) : option Execution :=
  map_get id st.

(** [createExecution], with the identifier and the time it draws. *)
Definition createExecution (id now workflowId : string) (status : Status)
    (st : Storage) : Storage :=
  map_set id
    {| ex_id := id; ex_workflowId := workflowId; ex_status := status;
       ex_startedAt := now; ex_completedAt := None; ex_currentNodeId := None;
       ex_logs := []; ex_results := None |} st.

Definition updateExecution (id : string) (u : ExecutionUpdate) (st : Storage)
  : Storage :=
  match map_get id st with
  | None => st
  | Some existing => map_set id (merge_execution existing u) st
  end.

(** ** The run loop ([WorkflowEngine.executeWorkflow]) *)

(** One call of [node.execute], as an observer sees it: the node, its
    input, the result map at that moment, and the status the execution
    had in the store. *)
Record Invocation : Type := {
  inv_nodeId : string;
  inv_type : string;
  inv_input : list value;
  inv_results : jsmap (list value);
  inv_status : option Status
}.

(** The state the engine works on: the store, the number of clock
    readings so far, and the executor calls made so far. *)
Record World : Type := {
  store : Storage;
  ticks : nat;
  invoked : list Invocation
}.

Definition with_store (f : Storage -> Storage) (w : World) : World :=
  {| store := f (store w); ticks := ticks w; invoked := invoked w |}.

Definition tick (w : World) : World :=
  {| store := store w; ticks := S (ticks w); invoked := invoked w |}.

Definition record_call (i : Invocation) (w : World) : World :=
  {| store := store w; ticks := ticks w; invoked := invoked w ++ [i] |}.

(** [new Date().toISOString()] *)
Definition now (E : Env) (w : World) : string := clock E (ticks w).

Definition addLog (E : Env) (executionId : string) (level : Level)
    (message : string) (nodeId : option string) (w : World) : World :=
  match getExecution executionId (store w) with
  | None => w
  | Some execution =>
      let newLog := {| log_timestamp := now E w; log_level := level;
                       log_message := message; log_nodeId := nodeId |} in
      let updatedLogs := ex_logs execution ++ [newLog] in
      with_store
        (updateExecution executionId
           {| up_status := None; up_completedAt := None;
              up_currentNodeId := None; up_logs := Some updatedLogs;
              up_results := None |})
        (tick w)
  end.

(** The update of both [catch] blocks. *)
Definition mark_failed (E : Env) (executionId : string) (w : World) : World :=
  with_store
    (updateExecution executionId
       {| up_status := Some failed; up_completedAt := Some (Some (now E w));
          up_currentNodeId := Some None; up_logs := None; up_results := None |})
    (tick w).

(** The stop route of [routes.ts]. *)
Definition stop_route (E : Env) (executionId : string) (w : World) : World :=
  with_store
    (updateExecution executionId
       {| up_status := Some stopped; up_completedAt := Some (Some (now E w));
          up_currentNodeId := None; up_logs := None; up_results := None |})
    (tick w).

Definition executor : Type :=
  Env -> string -> list value -> list (string * value) -> result (list value).

(** The registry filled by the constructor. *)
Definition nodeRegistry : jsmap executor :=
  map_set "IfNode" IfNode_execute
    (map_set "LogMessageNode" LogMessageNode_execute
       (map_set "FetchApiNode" FetchApiNode_execute
          (map_set "StartNode" StartNode_execute []))).

(** Input gathering, as the loop does it. *)
Definition gather_inputs (connections : list Connection)
    (executionResults : jsmap (list value)) (nodeId : string) : list value :=
  let inputConnections :=
    filter (fun c => String.eqb (conn_to c) nodeId) connections in
  if Nat.ltb 0 (List.length inputConnections)
  then fold_left
         (fun inputData conn =>
            match map_get (conn_from conn) executionResults with
            | Some r => inputData ++ r
            | None => inputData
            end)
         inputConnections []
  else [empty_object].

(** How the [for] loop over the order ends. *)
Inductive LoopExit : Type :=
| Finished
| NodeFailed (nodeId message : string)
| Crashed (message : string).

(** The inner [catch] block. *)
Definition fail_node (E : Env) (executionId nodeId message : string) (w : World)
  : World :=
  mark_failed E executionId
    (addLog E executionId error ("ERROR: " ^^ message) (Some nodeId) w).

Definition unregistered_message (type : string) : string :=
  "Node type " ^^ String quote_char type
  ^^ String quote_char " is not registered".

(** A request to the stop route served while an executor call is in
    flight. *)
Definition while_in_flight (E : Env) (executionId : string) (stop : bool)
    (w : World) : World :=
  if stop then stop_route E executionId w else w.

(** The [for] loop over the execution order.  The engine is suspended
    while it awaits [node.execute]; a handler of the stop route can run in
    the meantime.  [stops k] tells whether that happens during the call
    made by the [k]-th iteration. *)
Fixpoint run_nodes (E : Env) (workflow : Workflow) (executionId : string)
    (stops : nat -> bool) (k : nat) (order : list string)
    (executionResults : jsmap (list value)) (w : World)
  : World * jsmap (list value) * LoopExit :=
  match order with
  | [] => (w, executionResults, Finished)
  | nodeId :: rest =>
      let w1 :=
        with_store
          (updateExecution executionId
             {| up_status := None; up_completedAt := None;
                up_currentNodeId := Some (Some nodeId); up_logs := None;
                up_results := None |}) w in
      match find (fun n => String.eqb (node_id n) nodeId) (wf_nodes workflow) with
      | None =>
          (w1, executionResults,
           Crashed ("Node configuration not found for " ^^ nodeId))
      | Some nodeConfig =>
          let w2 :=
            addLog E executionId info
              ("Executing Node: " ^^ node_id nodeConfig ^^ " ("
               ^^ node_type nodeConfig ^^ ")") (Some nodeId) w1 in
          match map_get (node_type nodeConfig) nodeRegistry with
          | None =>
              (fail_node E executionId nodeId
                 (unregistered_message (node_type nodeConfig)) w2,
               executionResults,
               NodeFailed nodeId (unregistered_message (node_type nodeConfig)))
          | Some node =>
              let inputData :=
                gather_inputs (wf_connections workflow) executionResults nodeId in
              let w3 :=
                record_call
                  {| inv_nodeId := nodeId; inv_type := node_type nodeConfig;
                     inv_input := inputData; inv_results := executionResults;
                     inv_status :=
                       option_map ex_status (getExecution executionId (store w2)) |}
                  w2 in
              let outcome :=
                node E (now E w3) inputData (or_else (node_params nodeConfig) []) in
              let w4 := while_in_flight E executionId (stops k) (tick w3) in
              match outcome with
              | Throw m =>
                  (fail_node E executionId nodeId m w4, executionResults,
                   NodeFailed nodeId m)
              | Ok outputData =>
                  let executionResults' :=
                    map_set (node_id nodeConfig) outputData executionResults in
                  let w5 :=
                    addLog E executionId info
                      ("Output: "
                       ^^ or_undefined (JSON_stringify_pretty (VArr outputData)))
                      (Some nodeId) w4 in
                  run_nodes E workflow executionId stops (S k) rest
                    executionResults' w5
              end
          end
      end
  end.

(** The outer [catch] block. *)
Definition fail_workflow (E : Env) (executionId message : string) (w : World)
  : World :=
  mark_failed E executionId
    (addLog E executionId error ("Workflow execution failed: " ^^ message) None w).

(** The success path after the loop. *)
Definition finish_workflow (E : Env) (executionId : string)
    (executionResults : jsmap (list value)) (w : World) : World :=
  let w1 :=
    addLog E executionId info "--- Workflow Finished Successfully ---" None w in
  with_store
    (updateExecution executionId
       {| up_status := Some completed; up_completedAt := Some (Some (now E w1));
          up_currentNodeId := Some None; up_logs := None;
          up_results := Some (Some executionResults) |})
    (tick w1).

(** [executeWorkflow], with the local result map and the way the loop
    ended kept for inspection. *)
Definition executeWorkflow_trace (E : Env) (workflow : Workflow)
    (executionId : string) (stops : nat -> bool) (w : World)
  : World * jsmap (list value) * option LoopExit :=
  let w1 := addLog E executionId info "--- Workflow Starting ---" None w in
  let w2 :=
    addLog E executionId info ("Executing workflow: " ^^ wf_name workflow) None w1 in
  match getExecutionOrder (wf_nodes workflow) (wf_connections workflow) with
  | Throw m => (fail_workflow E executionId m w2, [], None)
  | Ok executionOrder =>
      let w3 :=
        addLog E executionId info
          ("Execution order: " ^^ String.concat " -> " executionOrder) None w2 in
      match run_nodes E workflow executionId stops 0 executionOrder [] w3 with
      | (w4, executionResults, Finished) =>
          (finish_workflow E executionId executionResults w4,
           executionResults, Some Finished)
      | (w4, executionResults, NodeFailed n m) =>
          (w4, executionResults, Some (NodeFailed n m))
      | (w4, executionResults, Crashed m) =>
          (fail_workflow E executionId m w4, executionResults, Some (Crashed m))
      end
  end.

Definition executeWorkflow (E : Env) (workflow : Workflow) (executionId : string)
    (stops : nat -> bool) (w : World) : World :=
  fst (fst (executeWorkflow_trace E workflow executionId stops w)).

(** The execute route: create the execution, then run the engine. *)
Definition execute_route (E : Env) (workflow : Workflow) (executionId : string)
    (stops : nat -> bool) (w : World) : World :=
  executeWorkflow E workflow executionId stops
    (with_store
       (createExecution executionId (now E w) (wf_id workflow) running)
       (tick w)).

(** *** Reference instances, used to run the model on concrete inputs *)

(** The reference environment: its values have no inherited members, its
    evaluator is the reference fragment, and its clock reads [t0], [t1],
    ...  Its transport is the following. *)

(** A transport that answers every request with [200 OK] and body
    [{ok: true}], except for URLs starting with ["http://down"], which get
    [500]. *)
Definition ref_axios (config : AxiosConfig) : AxiosOutcome :=
  match ax_url config with
  | VStr u =>
      if String.prefix "http://down" u
      then Rejected {| err_response :=
                         Some {| resp_status := 500;
                                 resp_statusText := "Internal Server Error";
                                 resp_headers := empty_object;
                                 resp_data := VNull |};
                       err_request := true;
                       err_message := "Request failed with status code 500" |}
      else Resolved {| resp_status := 200; resp_statusText := "OK";
                       resp_headers := empty_object;
                       resp_data := VObj [("ok", VBool true)] |}
  | _ => Rejected {| err_response := None; err_request := false;
                     err_message := "Invalid URL" |}
  end.

Definition ref_env : Env :=
  {| axios := ref_axios;
     js_eval := fun scope script =>
       match eval_fragment script with
       | Some v => Returns {| ev_value := v; ev_data := scope_data scope |}
       | None => Raises "Unexpected token"
       end;
     prototype_has := fun _ _ => false;
     prototype_json := fun _ _ _ => Ok "undefined";
     prototype_text := fun _ _ _ => Ok None;
     type_error_message := fun method _ => method ^^ " is not a function";
     clock := fun n => "t" ^^ string_of_nat n |}.

Definition empty_world : World := {| store := []; ticks := 0; invoked := [] |}.

(** ** Vocabulary of the specification *)

Definition ids (nodes : list WorkflowNode) : list string := map node_id nodes.

(** Every endpoint of every connection is the id of a node. *)
Definition known_endpoints (nodes : list WorkflowNode)
    (connections : list Connection) : Prop :=
  forall c, In c connections ->
    In (conn_from c) (ids nodes) /\ In (conn_to c) (ids nodes).

Definition edge (connections : list Connection) (a b : string) : Prop :=
  exists c, In c connections /\ conn_from c = a /\ conn_to c = b.

(** A non-empty walk along the connections. *)
Inductive path (connections : list Connection) : string -> string -> Prop :=
| path_one : forall a b, edge connections a b -> path connections a b
| path_cons : forall a b c,
    edge connections a b -> path connections b c -> path connections a c.

Definition acyclic (connections : list Connection) : Prop :=
  forall x, ~ path connections x x.

Definition has_cycle (connections : list Connection) : Prop :=
  exists x, path connections x x.

(** [a] occurs before [b] in [l]. *)
Definition before (l : list string) (a b : string) : Prop :=
  exists l1 l2 l3, l = l1 ++ a :: l2 ++ b :: l3.

(** No connection ends in [nodeId]. *)
Definition zero_in_degree (connections : list Connection) (nodeId : string) : bool :=
  forallb (fun c => negb (String.eqb (conn_to c) nodeId)) connections.



Definition terminal (s : Status) : bool :=
  match s with
  | running => false
  | _ => true
  end.

(** ** Quantities used in the analysis of the scheduler *)

Definition mem (x : string) (l : list string) : bool := existsb (String.eqb x) l.

(** Occurrences of [x] in [l]. *)
Definition occ (x : string) (l : list string) : nat :=
  List.length (filter (String.eqb x) l).

(** The adjacency list of [u]: targets of its outgoing connections, in
    connection order. *)
Definition adj (connections : list Connection) (u : string) : list string :=
  map conn_to (filter (fun c => String.eqb (conn_from c) u) connections).

(** Incoming connections of [v] whose source is not in [done]. *)
Definition remaining (connections : list Connection) (done : list string)
    (v : string) : nat :=
  List.length
    (filter (fun c => String.eqb (conn_to c) v && negb (mem (conn_from c) done))
       connections).

(** The invariant of the two nested loops: [todo] is the part of the
    current adjacency list still to be visited. *)
Record kahn_inv (connections : list Connection) (keys : list string)
    (inDegree : jsmap jsnum) (queue order todo : list string) : Prop := {
  inv_keys : map fst inDegree = keys;
  inv_degree : forall v, In v keys ->
      map_get v inDegree
      = Some (Num (Z.of_nat (remaining connections order v + occ v todo)));
  inv_nodup : NoDup (order ++ queue);
  inv_incl : incl (order ++ queue) keys;
  inv_ready : forall v, In v keys ->
      (In v (order ++ queue) <-> remaining connections order v + occ v todo = 0);
  inv_todo : incl todo keys;
  inv_sorted : forall c, In c connections -> In (conn_to c) order ->
      before order (conn_from c) (conn_to c)
}.

(** One pass of the first loop. *)
Definition init_step (st : jsmap jsnum * jsmap (list string)) (node : WorkflowNode) :=
  (map_set (node_id node) (Num 0) (fst st), map_set (node_id node) [] (snd st)).

(** The invariant of the first loop. *)
Record init_inv (st : jsmap jsnum * jsmap (list string)) : Prop := {
  ii_same : map fst (fst st) = map fst (snd st);
  ii_nodup : NoDup (map fst (fst st));
  ii_zero : forall k v, In (k, v) (fst st) -> v = Num 0;
  ii_empty : forall k l, In (k, l) (snd st) -> l = []
}.

(** The keys of both maps after the first loop. *)
Definition graph_keys (nodes : list WorkflowNode) : list string :=
  map fst (fst (init_graph nodes)).

(** The position of the first occurrence of [x] in [l]. *)
Fixpoint pos (x : string) (l : list string) : nat :=
  match l with
  | [] => 0
  | y :: l' => if String.eqb x y then 0 else S (pos x l')
  end.

(** Consecutive elements of [l] are joined by connections. *)
Fixpoint chain (connections : list Connection) (l : list string) : Prop :=
  match l with
  | x :: t =>
      match t with
      | y :: _ => edge connections x y /\ chain connections t
      | [] => True
      end
  | [] => True
  end.

(** ** Vocabulary for the run loop *)

(** From [w] to [w'] the record of the execution, if there is one, stays,
    keeps its [results] field, and only gains log entries. *)
Definition evolves (executionId : string) (w w' : World) : Prop :=
  forall e, getExecution executionId (store w) = Some e ->
    exists e', getExecution executionId (store w') = Some e'
      /\ ex_results e' = ex_results e
      /\ exists more, ex_logs e' = ex_logs e ++ more.

(** The status of the execution in the store. *)
Definition status_of (executionId : string) (w : World) : option Status :=
  option_map ex_status (getExecution executionId (store w)).


(** The input of a recorded call is what [gather_inputs] yields on the
    results stored when the call was made. *)
Definition call_gathered (connections : list Connection) (i : Invocation) : Prop :=
  inv_input i = gather_inputs connections (inv_results i) (inv_nodeId i).

(** What a run of the loop over [order] from result map [res] leaves
    behind: the calls it made, the result map [res'], and how it ended. *)
Definition loop_outcome (executionId : string) (order : list string)
    (res res' : jsmap (list value)) (w w' : World) (calls : list Invocation)
    (exit : LoopExit) : Prop :=
  match exit with
  | Finished =>
      map inv_nodeId calls = order
      /\ (forall x, In x (map fst res') <-> In x (map fst res) \/ In x order)
  | NodeFailed n m =>
      exists done later,
        order = done ++ n :: later
        /\ (map inv_nodeId calls = done ++ [n] \/ map inv_nodeId calls = done)
        /\ (forall x, In x (map fst res') <-> In x (map fst res) \/ In x done)
        /\ (forall e, getExecution executionId (store w) = Some e ->
              status_of executionId w' = Some failed)
  | Crashed _ => True
  end.

(** ** Vocabulary for placeholders *)

(** [s.slice(n)] *)
Fixpoint string_drop (n : nat) (s : string) : string :=
  match n, s with
  | O, _ => s
  | S k, String _ s' => string_drop k s'
  | S _, EmptyString => EmptyString
  end.

(** The captures of the successive matches that [replace_matches] finds. *)
Fixpoint captures (matcher : string -> option (string * nat)) (skip : nat)
    (s : string) : list string :=
  match s with
  | EmptyString => []
  | String c s' =>
      match skip with
      | S k => captures matcher k s'
      | O =>
          match matcher s with
          | Some (capture, len) => capture :: captures matcher (len - 1) s'
          | None => captures matcher 0 s'
          end
      end
  end.

(** The placeholder paths of a template. *)
Definition placeholders (template : string) : list string :=
  captures match_placeholder 0 template.

(** No character of [s] is [c]. *)
Fixpoint free_of (c : ascii) (s : string) : bool :=
  match s with
  | EmptyString => true
  | String a s' => negb (Ascii.eqb a c) && free_of c s'
  end.

(** The field of a record as the specification reads it: [undefined] for
    a record that is not there and for a field the record does not have. *)
Definition field_get (obj : value) (key : string) : value :=
  match obj with
  | VUndefined | VNull => VUndefined
  | _ => get_prop obj key
  end.

(** Walking a dotted path into the fields of a record, as the
    specification words it. *)
Definition spec_lookup_path (path : string) (data : value) : value :=
  fold_left field_get (split_on "." path) data.


(** ** Sample workflows *)

Definition sample_node (nodeId type : string) (params : list (string * value))
  : WorkflowNode :=
  {| node_id := nodeId; node_type := type; node_params := Some params |}.

Definition sample_conn (from to : string) : Connection :=
  {| conn_id := from ^^ "->" ^^ to; conn_from := from; conn_to := to |}.

(** Two independent triggers. *)
Definition wf_two : Workflow :=
  {| wf_id := "wf-two"; wf_name := "Two triggers";
     wf_nodes := [sample_node "a" "StartNode" []; sample_node "b" "StartNode" []];
     wf_connections := [] |}.

(** Trigger, HTTP call, log. *)
Definition wf_chain : Workflow :=
  {| wf_id := "wf-chain"; wf_name := "Fetch and log";
     wf_nodes := [sample_node "trigger" "StartNode" [];
                  sample_node "fetch" "FetchApiNode" [("url", VStr "http://up")];
                  sample_node "log" "LogMessageNode" [("message", VStr "done")]];
     wf_connections := [sample_conn "trigger" "fetch"; sample_conn "fetch" "log"] |}.

(** Trigger, HTTP call without a URL, log. *)
Definition wf_no_url : Workflow :=
  {| wf_id := "wf-no-url"; wf_name := "Fetch without URL";
     wf_nodes := [sample_node "trigger" "StartNode" [];
                  sample_node "fetch" "FetchApiNode" [];
                  sample_node "log" "LogMessageNode" [("message", VStr "done")]];
     wf_connections := [sample_conn "trigger" "fetch"; sample_conn "fetch" "log"] |}.

(** A diamond: [a] and [b] feed [c]; [d] stands alone. *)
Definition wf_diamond : Workflow :=
  {| wf_id := "wf-diamond"; wf_name := "Diamond";
     wf_nodes := [sample_node "a" "StartNode" []; sample_node "b" "StartNode" [];
                  sample_node "c" "LogMessageNode" []; sample_node "d" "StartNode" []];
     wf_connections := [sample_conn "b" "c"; sample_conn "a" "c"] |}.

(** Two nodes feeding each other. *)
Definition wf_loop : Workflow :=
  {| wf_id := "wf-loop"; wf_name := "Loop";
     wf_nodes := [sample_node "a" "StartNode" []; sample_node "b" "StartNode" []];
     wf_connections := [sample_conn "a" "b"; sample_conn "b" "a"] |}.

(** A self-loop next to a connection to a node that does not exist. *)
Definition wf_loop_dangling : Workflow :=
  {| wf_id := "wf-loop-dangling"; wf_name := "Loop and dangling edge";
     wf_nodes := [sample_node "a" "StartNode" []];
     wf_connections := [sample_conn "a" "a"; sample_conn "a" "ghost"] |}.

(** The world right after the execute route has created execution
    ["e1"] of [workflow]. *)
Definition created (workflow : Workflow) : World :=
  with_store (createExecution "e1" (now ref_env empty_world) (wf_id workflow) running)
             (tick empty_world).

(** No stop request. *)
Definition never : nat -> bool := fun _ => false.

(** One stop request, served during the call of iteration [n]. *)
Definition during_call (n : nat) : nat -> bool := fun k => Nat.eqb k n.

(** ** The claims that the code does not satisfy, as they are stated *)

(** C2 as stated: after a failed run the record has status [failed] and a
    [results] map with exactly the entries of the nodes that succeeded. *)
Definition C2_as_stated (E : Env) (workflow : Workflow) (executionId : string)
    (stops : nat -> bool) (w : World) : Prop :=
  forall w' res n m,
    executeWorkflow_trace E workflow executionId stops w
    = (w', res, Some (NodeFailed n m)) ->
    exists e' r,
      getExecution executionId (store w') = Some e'
      /\ ex_status e' = failed
      /\ ex_results e' = Some r
      /\ forall x, In x (map fst r) <-> In x (map fst res).

(** C6 as stated: a cycle always makes scheduling fail with the cycle
    error. *)
Definition C6_as_stated (nodes : list WorkflowNode) (connections : list Connection)
  : Prop :=
  has_cycle connections -> getExecutionOrder nodes connections = Throw cycle_message.


(** C4 as stated, second half: a placeholder whose path is absent stays in
    the substituted expression, and the step fails. *)
Definition C4_as_stated (E : Env) (now : string) (inputData : list value)
    (condition path : string) : Prop :=
  In path (placeholders condition) ->
  spec_lookup_path path (js_or (first_item inputData) empty_object) = VUndefined ->
  (exists substituted,
     substitute_condition E condition (js_or (first_item inputData) empty_object)
     = Ok substituted
     /\ In path (placeholders substituted))
  /\ exists m,
       IfNode_execute E now inputData [("condition", VStr condition)] = Throw m.

(** The request the HTTP step builds for method [m]. *)
Definition fetch_config (params : list (string * value)) (m : string) : AxiosConfig :=
  {| ax_method := to_lower m;
     ax_url := get_prop (VObj params) "url";
     ax_headers := param_or params "headers" empty_object;
     ax_data := get_prop (VObj params) "body";
     ax_timeout := 30000 |}.

(* ================================================================== *)
(** * The rest of the store, the routes and the sibling schedulers *)

(** ** [Map.prototype.delete]

    The keys of a [Map] are distinct, so removing the entries of key [k]
    removes at most one. *)

Definition map_delete {V : Type} (k : string) (m : jsmap V) : jsmap V :=
  filter (fun e => negb (String.eqb (fst e) k)) m.

(** ** The workflow and user stores of [MemStorage] *)

(** The schema's [Workflow]: what the engine reads, plus the description
    and the two dates.  The position and the display status of a node are
    not part of [WorkflowNode] here; no function of the store or of the
    engine reads them. *)
Record WorkflowRecord : Type := {
  wr_id : string;
  wr_name : string;
  wr_description : option string;
  wr_nodes : list WorkflowNode;
  wr_connections : list Connection;
  wr_createdAt : string;
  wr_updatedAt : string
}.

(** [InsertWorkflow] *)
Record InsertWorkflow : Type := {
  iw_name : string;
  iw_description : option string;
  iw_nodes : list WorkflowNode;
  iw_connections : list Connection
}.

(** [Partial<InsertWorkflow>] *)
Record WorkflowUpdate : Type := {
  uw_name : option string;
  uw_description : option (option string);
  uw_nodes : option (list WorkflowNode);
  uw_connections : option (list Connection)
}.

Record User : Type := {
  user_id : string;
  user_username : string;
  user_password : string
}.

Record MemStorage : Type := {
  users : jsmap User;
  workflows : jsmap WorkflowRecord;
  executions : Storage
}.

Definition set_workflows (f : jsmap WorkflowRecord -> jsmap WorkflowRecord)
    (ms : MemStorage) : MemStorage :=
  {| users := users ms; workflows := f (workflows ms); executions := executions ms |}.

Definition set_executions (f : Storage -> Storage) (ms : MemStorage) : MemStorage :=
  {| users := users ms; workflows := workflows ms; executions := f (executions ms) |}.

Definition set_users (f : jsmap User -> jsmap User) (ms : MemStorage) : MemStorage :=
  {| users := f (users ms); workflows := workflows ms; executions := executions ms |}.

(** The workflow [initializeSampleWorkflow] installs. *)
Definition sampleWorkflow (createdAt updatedAt : string) : WorkflowRecord :=
  {| wr_id := "sample-workflow-1";
     wr_name := "My First Workflow";
     wr_description :=
       Some "A simple workflow demonstrating HTTP request and logging";
     wr_nodes :=
       [{| node_id := "start-node"; node_type := "StartNode";
           node_params := Some [] |};
        {| node_id := "fetch-node"; node_type := "FetchApiNode";
           node_params :=
             Some [("method", VStr "GET");
                   ("url", VStr "https://jsonplaceholder.typicode.com/users");
                   ("headers", empty_object)] |};
        {| node_id := "log-node"; node_type := "LogMessageNode";
           node_params := Some [("message", VStr "API Response received")] |}];
     wr_connections :=
       [{| conn_id := "conn-1"; conn_from := "start-node"; conn_to := "fetch-node" |};
        {| conn_id := "conn-2"; conn_from := "fetch-node"; conn_to := "log-node" |}];
     wr_createdAt := createdAt;
     wr_updatedAt := updatedAt |}.

(** The constructor of [MemStorage], with the two clock readings of
    [initializeSampleWorkflow]. *)
Definition MemStorage_new (createdAt updatedAt : string) : MemStorage :=
  {| users := [];
     workflows :=
       map_set "sample-workflow-1" (sampleWorkflow createdAt updatedAt) [];
     executions := [] |}.

Definition getUser (id : string) (ms : MemStorage) : option User :=
  map_get id (users ms).

Definition getUserByUsername (username : string) (ms : MemStorage) : option User :=
  find (fun user => String.eqb (user_username user) username) (map snd (users ms)).

(** [createUser], with the identifier it draws. *)
Definition createUser (id username password : string) (ms : MemStorage)
  : MemStorage * User :=
  let user := {| user_id := id; user_username := username;
                 user_password := password |} in
  (set_users (map_set id user) ms, user).

Definition getWorkflow (id : string) (ms : MemStorage) : option WorkflowRecord :=
  map_get id (workflows ms).

Definition getAllWorkflows (ms : MemStorage) : list WorkflowRecord :=
  map snd (workflows ms).

(** [createWorkflow], with the identifier and the time it draws. *)
Definition createWorkflow (id now : string) (insertWorkflow : InsertWorkflow)
    (ms : MemStorage) : MemStorage * WorkflowRecord :=
  let workflow :=
    {| wr_id := id; wr_name := iw_name insertWorkflow;
       wr_description := iw_description insertWorkflow;
       wr_nodes := iw_nodes insertWorkflow;
       wr_connections := iw_connections insertWorkflow;
       wr_createdAt := now; wr_updatedAt := now |} in
  (set_workflows (map_set id workflow) ms, workflow).

(** [{ ...existing, ...updateData, updatedAt: now }] *)
Definition merge_workflow (existing : WorkflowRecord) (u : WorkflowUpdate)
    (now : string) : WorkflowRecord :=
  {| wr_id := wr_id existing;
     wr_name := or_else (uw_name u) (wr_name existing);
     wr_description := or_else (uw_description u) (wr_description existing);
     wr_nodes := or_else (uw_nodes u) (wr_nodes existing);
     wr_connections := or_else (uw_connections u) (wr_connections existing);
     wr_createdAt := wr_createdAt existing;
     wr_updatedAt := now |}.

Definition updateWorkflow (id : string) (u : WorkflowUpdate) (now : string)
    (ms : MemStorage) : MemStorage * option WorkflowRecord :=
  match map_get id (workflows ms) with
  | None => (ms, None)
  | Some existing =>
      let updated := merge_workflow existing u now in
      (set_workflows (map_set id updated) ms, Some updated)
  end.

Definition deleteWorkflow (id : string) (ms : MemStorage) : MemStorage * bool :=
  (set_workflows (map_delete id) ms, map_has id (workflows ms)).

Definition getExecutionsByWorkflow (workflowId : string) (st : Storage)
  : list Execution :=
  filter (fun execution => String.eqb (ex_workflowId execution) workflowId)
         (map snd st).

(** ** The routes ([registerRoutes])

    A handler takes the state of the server to the new state and the
    response.  The store never throws, so the answers with status 500 do
    not occur; the [details] field of an answer with status 400 is left
    out. *)

Inductive Body : Type :=
| BWorkflows (l : list WorkflowRecord)
| BWorkflow (w : WorkflowRecord)
| BExecution (e : Execution)
| BExecutions (l : list Execution)
| BError (message : string)
| BEmpty.

Record Response : Type := {
  res_status : nat;
  res_body : Body
}.

(** The state of the server: the store, the clock readings so far and the
    executor calls made so far. *)
Record Server : Type := {
  sv_storage : MemStorage;
  sv_ticks : nat;
  sv_invoked : list Invocation
}.

(** The part of the server the engine works on, and its way back. *)
Definition world_of (srv : Server) : World :=
  {| store := executions (sv_storage srv); ticks := sv_ticks srv;
     invoked := sv_invoked srv |}.

Definition with_world (srv : Server) (w : World) : Server :=
  {| sv_storage := set_executions (fun _ => store w) (sv_storage srv);
     sv_ticks := ticks w; sv_invoked := invoked w |}.

Definition with_storage (srv : Server) (ms : MemStorage) : Server :=
  {| sv_storage := ms; sv_ticks := sv_ticks srv; sv_invoked := sv_invoked srv |}.

Definition sv_tick (srv : Server) : Server :=
  {| sv_storage := sv_storage srv; sv_ticks := S (sv_ticks srv);
     sv_invoked := sv_invoked srv |}.

(** The engine's view of a stored workflow. *)
Definition to_workflow (wr : WorkflowRecord) : Workflow :=
  {| wf_id := wr_id wr; wf_name := wr_name wr; wf_nodes := wr_nodes wr;
     wf_connections := wr_connections wr |}.

(** The update a validated body stands for: [description] is written only
    when the body has one. *)
Definition update_of_insert (i : InsertWorkflow) : WorkflowUpdate :=
  {| uw_name := Some (iw_name i);
     uw_description := option_map Some (iw_description i);
     uw_nodes := Some (iw_nodes i);
     uw_connections := Some (iw_connections i) |}.

Definition not_found (what : string) : Response :=
  {| res_status := 404; res_body := BError (what ^^ " not found") |}.

(** [GET /api/workflows] *)
Definition route_get_workflows (srv : Server) : Server * Response :=
  (srv, {| res_status := 200;
           res_body := BWorkflows (getAllWorkflows (sv_storage srv)) |}).

(** [GET /api/workflows/:id] *)
Definition route_get_workflow (id : string) (srv : Server) : Server * Response :=
  match getWorkflow id (sv_storage srv) with
  | None => (srv, not_found "Workflow")
  | Some workflow => (srv, {| res_status := 200; res_body := BWorkflow workflow |})
  end.

(** [POST /api/workflows]; [validated] is what [insertWorkflowSchema.parse]
    makes of the body, [None] when it throws; [id] is the identifier the
    store draws. *)
Definition route_post_workflow (E : Env) (id : string)
    (validated : option InsertWorkflow) (srv : Server) : Server * Response :=
  match validated with
  | None => (srv, {| res_status := 400; res_body := BError "Invalid workflow data" |})
  | Some data =>
      let r := createWorkflow id (clock E (sv_ticks srv)) data (sv_storage srv) in
      (with_storage (sv_tick srv) (fst r),
       {| res_status := 201; res_body := BWorkflow (snd r) |})
  end.

(** [PUT /api/workflows/:id] *)
Definition route_put_workflow (E : Env) (id : string)
    (validated : option InsertWorkflow) (srv : Server) : Server * Response :=
  match validated with
  | None => (srv, {| res_status := 400; res_body := BError "Invalid workflow data" |})
  | Some data =>
      match updateWorkflow id (update_of_insert data) (clock E (sv_ticks srv))
              (sv_storage srv) with
      | (_, None) => (srv, not_found "Workflow")
      | (ms, Some workflow) =>
          (with_storage (sv_tick srv) ms,
           {| res_status := 200; res_body := BWorkflow workflow |})
      end
  end.

(** [DELETE /api/workflows/:id] *)
Definition route_delete_workflow (id : string) (srv : Server) : Server * Response :=
  let r := deleteWorkflow id (sv_storage srv) in
  if snd r
  then (with_storage srv (fst r), {| res_status := 204; res_body := BEmpty |})
  else (with_storage srv (fst r), not_found "Workflow").

(** [POST /api/workflows/:id/execute]; [executionId] is the identifier the
    store draws.  The response carries the execution as created; the engine
    then runs in the background, [stops] telling which of its calls a stop
    request overlaps. *)
Definition route_execute (E : Env) (id executionId : string)
    (stops : nat -> bool) (srv : Server) : Server * Response :=
  match getWorkflow id (sv_storage srv) with
  | None => (srv, not_found "Workflow")
  | Some workflow =>
      let w0 := world_of srv in
      let w1 :=
        with_store (createExecution executionId (now E w0) (wr_id workflow) running)
                   (tick w0) in
      let created := getExecution executionId (store w1) in
      let w2 := executeWorkflow E (to_workflow workflow) executionId stops w1 in
      (with_world srv w2,
       {| res_status := 201;
          res_body := match created with
                      | Some execution => BExecution execution
                      | None => BEmpty
                      end |})
  end.

(** [GET /api/executions/:id] *)
Definition route_get_execution (id : string) (srv : Server) : Server * Response :=
  match getExecution id (executions (sv_storage srv)) with
  | None => (srv, not_found "Execution")
  | Some execution =>
      (srv, {| res_status := 200; res_body := BExecution execution |})
  end.

(** [GET /api/workflows/:id/executions] *)
Definition route_get_executions (id : string) (srv : Server) : Server * Response :=
  (srv, {| res_status := 200;
           res_body :=
             BExecutions (getExecutionsByWorkflow id (executions (sv_storage srv))) |}).

(** [POST /api/executions/:id/stop]: the update of [stop_route], and the
    response. *)
Definition route_stop (E : Env) (id : string) (srv : Server) : Server * Response :=
  let w := stop_route E id (world_of srv) in
  match getExecution id (executions (sv_storage srv)) with
  | None => (with_world srv w, not_found "Execution")
  | Some _ =>
      (with_world srv w,
       {| res_status := 200;
          res_body := match getExecution id (store w) with
                      | Some execution => BExecution execution
                      | None => BEmpty
                      end |})
  end.

(** The types the schema admits for a node ([workflowNodeSchema]). *)
Definition node_type_enum : list string :=
  ["StartNode"; "FetchApiNode"; "LogMessageNode"; "IfNode"].

(** ** The scheduler of the browser engine ([client/src/lib/workflow-engine.ts]) *)

Module Client.

(** The second loop: [graph.get(conn.from)?.push(conn.to)] and the
    in-degree update, with no check of the endpoints. *)
Fixpoint build_graph (connections : list Connection)
    (inDegree : jsmap jsnum) (graph : jsmap (list string))
  : jsmap jsnum * jsmap (list string) :=
  match connections with
  | [] => (inDegree, graph)
  | conn :: rest =>
      let graph' :=
        match map_get (conn_from conn) graph with
        | Some l => map_set (conn_from conn) (l ++ [conn_to conn]) graph
        | None => graph
        end in
      let inDegree' :=
        map_set (conn_to conn)
          (Num (or_zero (map_get (conn_to conn) inDegree) + 1)) inDegree in
      build_graph rest inDegree' graph'
  end.

(** [getExecutionOrder], its [while] loop run with as much fuel as the
    in-degree map has entries, plus [extra]. *)
Definition schedule (extra : nat) (nodes : list WorkflowNode)
    (connections : list Connection) : result (list string) :=
  let g0 := init_graph nodes in
  let g := build_graph connections (fst g0) (snd g0) in
  let executionOrder :=
    kahn_loop (List.length (fst g) + extra) (snd g) (fst g) (seeds (fst g)) [] in
  if negb (Nat.eqb (List.length executionOrder) (List.length nodes))
  then Throw cycle_message
  else Ok executionOrder.

Definition getExecutionOrder (nodes : list WorkflowNode)
    (connections : list Connection) : result (list string) :=
  schedule 0 nodes connections.

End Client.

(** ** Vocabulary for the store during a run *)

(** The record [e'] continues [e]: same identity, same start, and a log
    that extends the earlier one. *)
Definition same_run (e e' : Execution) : Prop :=
  ex_id e' = ex_id e
  /\ ex_workflowId e' = ex_workflowId e
  /\ ex_startedAt e' = ex_startedAt e
  /\ exists more, ex_logs e' = ex_logs e ++ more.

(** One entry of the store before and after: the key stays; the record
    stays too unless the key is [executionId], and then it continues the
    earlier one. *)
Definition entry_step (executionId : string) (p p' : string * Execution) : Prop :=
  fst p' = fst p
  /\ (fst p <> executionId -> snd p' = snd p)
  /\ same_run (snd p) (snd p').

Definition run_step (executionId : string) (st st' : Storage) : Prop :=
  Forall2 (entry_step executionId) st st'.

(** Where a call stands in the order, and what was stored when it was
    made. *)
Definition call_placed (order : list string) (res : jsmap (list value))
    (i : Invocation) : Prop :=
  exists done later,
    order = done ++ inv_nodeId i :: later
    /\ forall x, In x (map fst (inv_results i)) <-> In x (map fst res) \/ In x done.

(** An execution that has come to its end. *)
Definition closed_record (e : Execution) : Prop :=
  (ex_status e = completed \/ ex_status e = failed)
  /\ (exists t, ex_completedAt e = Some t)
  /\ ex_currentNodeId e = None.

(** The entries of [positive] in-degree. *)
Definition is_positive (d : jsnum) : bool :=
  match d with
  | Num z => Z.ltb 0 z
  | NaN => false
  end.

Definition positives (inDegree : jsmap jsnum) : nat :=
  List.length (filter (fun e => is_positive (snd e)) inDegree).

(** No line terminator occurs in [s]. *)
Fixpoint one_line (s : string) : bool :=
  match s with
  | EmptyString => true
  | String c s' =>
      negb (Ascii.eqb c "010") && negb (Ascii.eqb c "013") && one_line s'
  end.

(** ** The scheduler of the earlier engine ([core/Workflow.ts]) *)

Module LegacyWorkflow.

Definition cycle_message : string :=
  "Workflow has a cycle (loop) and cannot be executed.".

(** The second loop: [graph.get(conn.from)!.push(conn.to)] raises a
    [TypeError], of message [push_error], when [conn.from] has no entry. *)
Fixpoint build_graph (push_error : string) (connections : list Connection)
    (inDegree : jsmap jsnum) (graph : jsmap (list string))
  : result (jsmap jsnum * jsmap (list string)) :=
  match connections with
  | [] => Ok (inDegree, graph)
  | conn :: rest =>
      match map_get (conn_from conn) graph with
      | None => Throw push_error
      | Some l =>
          build_graph push_error rest
            (map_set (conn_to conn)
               (Num (or_zero (map_get (conn_to conn) inDegree) + 1)) inDegree)
            (map_set (conn_from conn) (l ++ [conn_to conn]) graph)
      end
  end.

(** The [while] loop: [for (const neighborId of graph.get(nodeId)!)]
    raises a [TypeError], of message [iterate_error], when [nodeId] has no
    entry. *)
Fixpoint kahn_loop (iterate_error : string) (fuel : nat)
    (graph : jsmap (list string)) (inDegree : jsmap jsnum)
    (queue executionOrder : list string) : result (list string) :=
  match fuel with
  | O => Ok executionOrder
  | S fuel' =>
      match queue with
      | [] => Ok executionOrder
      | nodeId :: queue' =>
          match map_get nodeId graph with
          | None => Throw iterate_error
          | Some l =>
              let st := fold_left visit_neighbor l (inDegree, queue') in
              kahn_loop iterate_error fuel' graph (fst st) (snd st)
                (executionOrder ++ [nodeId])
          end
      end
  end.

(** [getExecutionOrder], its [while] loop run with as much fuel as the
    in-degree map has entries, plus [extra]. *)
Definition schedule (push_error iterate_error : string) (extra : nat)
    (nodes : list WorkflowNode) (connections : list Connection)
  : result (list string) :=
  let g0 := init_graph nodes in
  match build_graph push_error connections (fst g0) (snd g0) with
  | Throw m => Throw m
  | Ok (inDegree, graph) =>
      match kahn_loop iterate_error (List.length inDegree + extra) graph inDegree
              (seeds inDegree) [] with
      | Throw m => Throw m
      | Ok executionOrder =>
          if negb (Nat.eqb (List.length executionOrder) (List.length nodes))
          then Throw cycle_message
          else Ok executionOrder
      end
  end.

Definition getExecutionOrder (push_error iterate_error : string)
    (nodes : list WorkflowNode) (connections : list Connection)
  : result (list string) :=
  schedule push_error iterate_error 0 nodes connections.

End LegacyWorkflow.

(** ** Values and keys that JavaScript shows as the model does *)

Fixpoint digits_only (s : string) : bool :=
  match s with
  | EmptyString => true
  | String c s' =>
      let n := nat_of_ascii c in
      Nat.leb 48 n && Nat.leb n 57 && digits_only s'
  end.

(** A key that an object keeps in insertion order and stores as an own
    property: not made of digits only, and not [__proto__]. *)
Definition plain_key (k : string) : bool :=
  negb (digits_only k) && negb (String.eqb k "__proto__").

Fixpoint distinct (l : list string) : bool :=
  match l with
  | [] => true
  | x :: t => negb (mem x t) && distinct t
  end.

(** A value whose JSON text is the one the model computes: its numbers are
    safe integers, and its objects have distinct plain keys. *)
Fixpoint plain_value (v : value) : bool :=
  match v with
  | VNum z => Z.leb (Z.abs z) max_safe_integer
  | VArr items => forallb plain_value items
  | VObj fields =>
      distinct (map fst fields)
      && forallb (fun kv => plain_key (fst kv) && plain_value (snd kv)) fields
  | _ => true
  end.

(** A value whose conversion to a string is the one the model computes:
    its numbers are safe integers, and no object to convert has a
    [toString] of its own. *)
Fixpoint printable (v : value) : bool :=
  match v with
  | VNum z => Z.leb (Z.abs z) max_safe_integer
  | VArr items => forallb printable items
  | VObj fields => negb (map_has "toString" fields)
  | _ => true
  end.

(** The placeholders of [condition] lead, in [data], to values whose JSON
    text the model computes. *)
Definition plainly_substituted (E : Env) (condition : string) (data : value)
  : Prop :=
  forall path v,
    In path (placeholders condition) ->
    lookup_path E path data = Reached v -> plain_value v = true.


(** ** An environment with a built-in member *)

(** The reference environment, extended with one built-in member: every
    object inherits [constructor], a function whose [name] is [Object]. *)
Definition object_env : Env :=
  {| axios := axios ref_env;
     js_eval := js_eval ref_env;
     prototype_has :=
       fun v key =>
         match v with
         | VObj _ => String.eqb key "constructor"
         | _ => false
         end;
     prototype_json :=
       fun _ _ rest =>
         match rest with
         | ["name"] => Ok (quote_json "Object")
         | _ => Ok "undefined"
         end;
     prototype_text :=
       fun _ _ rest =>
         match rest with
         | [] => Ok (Some "function Object() { [native code] }")
         | ["name"] => Ok (Some "Object")
         | _ => Ok None
         end;
     type_error_message := type_error_message ref_env;
     clock := clock ref_env |}.

(** ** Vocabulary for the log of a run and for its calls *)

(** The log of the execution in the store. *)
Definition logs_at (executionId : string) (w : World) : option (list LogEntry) :=
  option_map ex_logs (getExecution executionId (store w)).

(** A log entry without its time. *)
Definition log_view (l : LogEntry) : Level * option string * string :=
  (log_level l, log_nodeId l, log_message l).

(** The message written before a node is executed. *)
Definition executing_message (workflow : Workflow) (nodeId : string) : string :=
  match find (fun n => String.eqb (node_id n) nodeId) (wf_nodes workflow) with
  | Some nodeConfig =>
      "Executing Node: " ^^ node_id nodeConfig ^^ " ("
      ^^ node_type nodeConfig ^^ ")"
  | None => EmptyString
  end.

(** The entries that open the log of a run. *)
Definition opening_entries (workflow : Workflow) (order : list string)
  : list (Level * option string * string) :=
  [(info, None, "--- Workflow Starting ---");
   (info, None, "Executing workflow: " ^^ wf_name workflow);
   (info, None, "Execution order: " ^^ String.concat " -> " order)].

(** The two entries of each node that succeeded, given the node and the
    text of its output. *)
Definition served_entries (workflow : Workflow) (served : list (string * string))
  : list (Level * option string * string) :=
  flat_map
    (fun s => [(info, Some (fst s), executing_message workflow (fst s));
               (info, Some (fst s), "Output: " ^^ snd s)])
    served.

(** The two entries of the node that failed. *)
Definition failing_entries (workflow : Workflow) (n m : string)
  : list (Level * option string * string) :=
  [(info, Some n, executing_message workflow n);
   (error, Some n, "ERROR: " ^^ m)].



(* ================================================================== *)
(** * Properties *)

(** ** Association lists *)

Section JsMap.

Context {V : Type}.

Lemma map_get_set_same (k : string) (v : V) (m : jsmap V) :
  map_get k (map_set k v m) = Some v.
Proof.
  induction m as [|[k' v'] m IH]; simpl.
  - now rewrite String.eqb_refl.
  - destruct (String.eqb k' k) eqn:Hk; simpl; rewrite Hk; auto.
Qed.

Lemma map_get_set_other (k k' : string) (v : V) (m : jsmap V) :
  k <> k' -> map_get k' (map_set k v m) = map_get k' m.
Proof.
  intros Hne. induction m as [|[k0 v0] m IH]; simpl.
  - destruct (String.eqb_spec k k'); congruence.
  - destruct (String.eqb_spec k0 k) as [->|Hk0]; simpl.
    + destruct (String.eqb_spec k k'); congruence.
    + destruct (String.eqb_spec k0 k'); auto.
Qed.

Lemma map_get_keys (k : string) (m : jsmap V) :
  In k (map fst m) <-> exists v, map_get k m = Some v.
Proof.
  induction m as [|[k0 v0] m IH]; simpl.
  - split; [tauto | intros [v Hv]; discriminate].
  - destruct (String.eqb_spec k0 k) as [->|Hne].
    + split; eauto.
    + rewrite <- IH. split; [intros [?|?]; [congruence|auto] | auto].
Qed.

Lemma map_has_keys (k : string) (m : jsmap V) :
  map_has k m = true <-> In k (map fst m).
Proof.
  unfold map_has. rewrite map_get_keys.
  destruct (map_get k m); split; intros H; eauto; try discriminate.
  destruct H; discriminate.
Qed.

Lemma map_set_keys_in (k : string) (v : V) (m : jsmap V) :
  In k (map fst m) -> map fst (map_set k v m) = map fst m.
Proof.
  induction m as [|[k0 v0] m IH]; simpl; [tauto|].
  intros H. destruct (String.eqb_spec k0 k) as [->|Hne]; simpl; auto.
  f_equal. apply IH. destruct H; congruence.
Qed.

Lemma map_set_keys_new (k : string) (v : V) (m : jsmap V) :
  ~ In k (map fst m) -> map fst (map_set k v m) = map fst m ++ [k].
Proof.
  induction m as [|[k0 v0] m IH]; simpl; auto.
  intros H. destruct (String.eqb_spec k0 k) as [->|Hne]; simpl.
  - tauto.
  - f_equal. apply IH. tauto.
Qed.

Lemma map_get_in_nodup (k : string) (v : V) (m : jsmap V) :
  NoDup (map fst m) -> In (k, v) m -> map_get k m = Some v.
Proof.
  induction m as [|[k0 v0] m IH]; simpl; [tauto|].
  intros Hnd [Heq|Hin].
  - inversion Heq; subst. now rewrite String.eqb_refl.
  - inversion Hnd; subst.
    destruct (String.eqb_spec k0 k) as [->|Hne]; auto.
    exfalso. apply H1. change k with (fst (k, v)). now apply in_map.
Qed.

Lemma map_get_some_in (k : string) (v : V) (m : jsmap V) :
  map_get k m = Some v -> In (k, v) m.
Proof.
  induction m as [|[k0 v0] m IH]; simpl; [discriminate|].
  destruct (String.eqb_spec k0 k) as [->|Hne]; intros H.
  - inversion H; auto.
  - auto.
Qed.

Lemma map_set_in (k k0 : string) (v v0 : V) (m : jsmap V) :
  In (k, v) (map_set k0 v0 m) -> (k, v) = (k0, v0) \/ In (k, v) m.
Proof.
  induction m as [|[k1 v1] m IH]; simpl.
  - intros [H|[]]; auto.
  - destruct (String.eqb_spec k1 k0) as [->|Hne]; simpl.
    + intros [H|H]; auto.
    + intros [H|H]; auto. destruct (IH H); auto.
Qed.

Lemma map_set_keys_iff (k x : string) (v : V) (m : jsmap V) :
  In x (map fst (map_set k v m)) <-> x = k \/ In x (map fst m).
Proof.
  rewrite !map_get_keys.
  destruct (String.eqb_spec k x) as [->|Hne].
  - rewrite map_get_set_same. split; eauto.
  - rewrite map_get_set_other by assumption.
    split; [auto | intros [->|H]; [congruence | auto]].
Qed.

Lemma map_set_keys_nodup (k : string) (v : V) (m : jsmap V) :
  NoDup (map fst m) -> NoDup (map fst (map_set k v m)).
Proof.
  intros Hnd.
  destruct (in_dec string_dec k (map fst m)) as [Hin|Hnin].
  - now rewrite map_set_keys_in.
  - rewrite map_set_keys_new by assumption.
    apply NoDup_app; auto.
    + constructor; [simpl; tauto | constructor].
    + intros x Hx [<-|[]]. contradiction.
Qed.

Lemma map_set_keys_length (k : string) (v : V) (m : jsmap V) :
  List.length (map_set k v m) <= S (List.length m).
Proof.
  induction m as [|[k0 v0] m IH]; simpl; auto.
  destruct (String.eqb k0 k); simpl; lia.
Qed.

End JsMap.

(** ** The scheduler *)

(** *** The first loop *)



Lemma init_step_inv st node : init_inv st -> init_inv (init_step st node).
Proof.
  intros [Hs Hn Hz He]. destruct st as [deg graph]; simpl in *.
  constructor; simpl.
  - destruct (in_dec string_dec (node_id node) (map fst deg)) as [Hin|Hnin].
    + rewrite !map_set_keys_in; auto. now rewrite <- Hs.
    + rewrite !map_set_keys_new; auto; [congruence | now rewrite <- Hs].
  - now apply map_set_keys_nodup.
  - intros k v H. apply map_set_in in H. destruct H as [H|H]; [congruence | eauto].
  - intros k l H. apply map_set_in in H. destruct H as [H|H]; [congruence | eauto].
Qed.

Lemma init_fold_inv nodes st :
  init_inv st ->
  let st' := fold_left init_step nodes st in
  init_inv st'
  /\ (forall x, In x (map fst (fst st')) <-> In x (map fst (fst st)) \/ In x (ids nodes))
  /\ List.length (fst st') <= List.length (fst st) + List.length nodes
  /\ (NoDup (map fst (fst st) ++ ids nodes) ->
      map fst (fst st') = map fst (fst st) ++ ids nodes).
Proof.
  revert st. induction nodes as [|n nodes IH]; intros st Hinv; simpl.
  - cbv zeta. split; [exact Hinv|]. split; [tauto|]. split; [lia|].
    intros _. now rewrite app_nil_r.
  - destruct (IH (init_step st n) (init_step_inv st n Hinv)) as (H1 & H2 & H3 & H4).
    cbv zeta in *. split; [exact H1|]. split; [split|split].
    + intros Hx. apply H2 in Hx. destruct Hx as [Hx|Hx]; auto.
      simpl in Hx. apply map_set_keys_iff in Hx. destruct Hx as [->|Hx]; auto.
    + intros Hx. apply H2. simpl. rewrite map_set_keys_iff.
      destruct Hx as [Hx|[Hx|Hx]]; auto.
    + etransitivity; [exact H3|]. simpl.
      pose proof (map_set_keys_length (node_id n) (Num 0) (fst st)). lia.
    + intros Hnd.
      assert (Hnin : ~ In (node_id n) (map fst (fst st))).
      { intros Hin. apply NoDup_remove_2 in Hnd. apply Hnd.
        apply in_or_app; auto. }
      assert (Hk : map fst (fst (init_step st n)) = map fst (fst st) ++ [node_id n]).
      { simpl. now apply map_set_keys_new. }
      rewrite H4; rewrite Hk; rewrite <- app_assoc; simpl; auto.
Qed.

Lemma init_graph_unfold nodes : init_graph nodes = fold_left init_step nodes ([], []).
Proof. reflexivity. Qed.

Lemma init_inv_nil : init_inv ([], []).
Proof. constructor; simpl; auto; try constructor; intros; contradiction. Qed.


Lemma graph_keys_spec nodes :
  NoDup (graph_keys nodes)
  /\ (forall x, In x (graph_keys nodes) <-> In x (ids nodes))
  /\ List.length (graph_keys nodes) <= List.length nodes
  /\ map fst (snd (init_graph nodes)) = graph_keys nodes
  /\ (forall v, In v (graph_keys nodes) ->
        map_get v (fst (init_graph nodes)) = Some (Num 0))
  /\ (forall v, In v (graph_keys nodes) ->
        map_get v (snd (init_graph nodes)) = Some [])
  /\ (NoDup (ids nodes) -> graph_keys nodes = ids nodes).
Proof.
  unfold graph_keys. rewrite init_graph_unfold.
  destruct (init_fold_inv nodes ([], []) init_inv_nil) as ([Hs Hn Hz He] & H2 & H3 & H4).
  simpl in *.
  split; [exact Hn|].
  split; [intros x; rewrite H2; tauto|].
  split; [rewrite length_map; lia|].
  split; [auto|].
  split; [|split; [|exact H4]].
  - intros v Hv. apply map_get_keys in Hv. destruct Hv as [z Hz'].
    rewrite Hz'. f_equal. eapply Hz. eapply map_get_some_in; eauto.
  - intros v Hv. rewrite Hs in Hv. apply map_get_keys in Hv. destruct Hv as [z Hz'].
    rewrite Hz'. f_equal. eapply He. eapply map_get_some_in; eauto.
Qed.

(** *** The second loop *)

Lemma mem_In x l : mem x l = true <-> In x l.
Proof.
  unfold mem. rewrite existsb_exists. split.
  - intros (y & Hy & Heq). apply String.eqb_eq in Heq. now subst.
  - intros H. exists x. split; auto. apply String.eqb_refl.
Qed.

Lemma mem_false x l : mem x l = false <-> ~ In x l.
Proof.
  rewrite <- mem_In. destruct (mem x l); split; congruence.
Qed.

Lemma remaining_cons c conns done v :
  remaining (c :: conns) done v
  = (if String.eqb (conn_to c) v && negb (mem (conn_from c) done) then 1 else 0)
    + remaining conns done v.
Proof.
  unfold remaining. simpl.
  destruct (String.eqb (conn_to c) v && negb (mem (conn_from c) done)); reflexivity.
Qed.

Lemma adj_cons c conns u :
  adj (c :: conns) u
  = (if String.eqb (conn_from c) u then [conn_to c] else []) ++ adj conns u.
Proof.
  unfold adj. simpl. destruct (String.eqb (conn_from c) u); reflexivity.
Qed.

Lemma occ_cons x y l :
  occ x (y :: l) = (if String.eqb x y then 1 else 0) + occ x l.
Proof. unfold occ. simpl. destruct (String.eqb x y); reflexivity. Qed.

Lemma occ_single x y : occ x [y] = if String.eqb x y then 1 else 0.
Proof. unfold occ. simpl. destruct (String.eqb x y); reflexivity. Qed.

Lemma occ_app x l1 l2 : occ x (l1 ++ l2) = occ x l1 + occ x l2.
Proof. unfold occ. now rewrite filter_app, length_app. Qed.

(** When every endpoint is a key, the second loop succeeds; it adds to
    each in-degree the number of incoming connections and appends to each
    adjacency list the targets of the outgoing ones. *)
Lemma build_graph_ok keys conns : forall inDegree graph,
  map fst inDegree = keys -> map fst graph = keys ->
  (forall c, In c conns -> In (conn_from c) keys /\ In (conn_to c) keys) ->
  exists inDegree' graph',
    build_graph conns inDegree graph = Ok (inDegree', graph')
    /\ map fst inDegree' = keys /\ map fst graph' = keys
    /\ (forall v z, map_get v inDegree = Some (Num z) ->
          map_get v inDegree'
          = Some (Num (z + Z.of_nat (remaining conns [] v))))
    /\ (forall u l, map_get u graph = Some l ->
          map_get u graph' = Some (l ++ adj conns u)).
Proof.
  induction conns as [|c conns IH]; intros deg graph Hd Hg Hk.
  - exists deg, graph. simpl. repeat (split; auto).
    + intros v z H. rewrite H. do 2 f_equal. unfold remaining. simpl. lia.
    + intros u l H. unfold adj. simpl. now rewrite app_nil_r.
  - destruct (Hk c (or_introl eq_refl)) as [Hf Ht].
    simpl.
    assert (Hhf : map_has (conn_from c) graph = true)
      by (apply map_has_keys; now rewrite Hg).
    assert (Hht : map_has (conn_to c) graph = true)
      by (apply map_has_keys; now rewrite Hg).
    rewrite Hhf, Hht. simpl.
    assert (Hgf : exists l0, map_get (conn_from c) graph = Some l0)
      by (apply map_get_keys; now rewrite Hg).
    destruct Hgf as [l0 Hl0]. rewrite Hl0.
    set (graph1 := map_set (conn_from c) (l0 ++ [conn_to c]) graph).
    set (deg1 := map_set (conn_to c)
                   (Num (or_zero (map_get (conn_to c) deg) + 1)) deg).
    assert (Hd1 : map fst deg1 = keys)
      by (unfold deg1; rewrite map_set_keys_in; auto; now rewrite Hd).
    assert (Hg1 : map fst graph1 = keys)
      by (unfold graph1; rewrite map_set_keys_in; auto; now rewrite Hg).
    destruct (IH deg1 graph1 Hd1 Hg1 (fun c' H => Hk c' (or_intror H)))
      as (deg' & graph' & Hb & Hd' & Hg' & Hdeg & Hadj).
    exists deg', graph'. repeat (split; auto).
    + intros v z Hv. rewrite remaining_cons. simpl. rewrite andb_true_r.
      destruct (String.eqb_spec (conn_to c) v) as [Heq|Hne].
      * subst v. rewrite (Hdeg (conn_to c) (z + 1)%Z).
        -- do 2 f_equal. lia.
        -- unfold deg1. rewrite map_get_set_same, Hv. reflexivity.
      * rewrite (Hdeg v z).
        -- do 2 f_equal.
        -- unfold deg1. now rewrite map_get_set_other.
    + intros u l Hu. rewrite adj_cons.
      destruct (String.eqb_spec (conn_from c) u) as [Heq|Hne].
      * subst u. rewrite (Hadj (conn_from c) (l0 ++ [conn_to c])).
        -- rewrite Hl0 in Hu. inversion Hu; subst. now rewrite <- app_assoc.
        -- unfold graph1. now rewrite map_get_set_same.
      * rewrite (Hadj u l); auto.
        unfold graph1. now rewrite map_get_set_other.
Qed.

(** The second loop stops at the first connection with an endpoint that
    is not a key. *)
Lemma build_graph_invalid keys conns : forall inDegree graph,
  map fst graph = keys ->
  (exists c, In c conns /\ (~ In (conn_from c) keys \/ ~ In (conn_to c) keys)) ->
  exists c, In c conns
    /\ (~ In (conn_from c) keys \/ ~ In (conn_to c) keys)
    /\ build_graph conns inDegree graph
       = Throw (invalid_connection_message (conn_from c) (conn_to c)).
Proof.
  induction conns as [|c conns IH]; intros deg graph Hg (c0 & Hin & Hbad).
  - contradiction.
  - simpl.
    destruct (map_has (conn_from c) graph) eqn:Hf;
      [destruct (map_has (conn_to c) graph) eqn:Ht|]; simpl.
    + apply map_has_keys in Hf, Ht. rewrite Hg in Hf, Ht.
      destruct Hin as [->|Hin]; [tauto|].
      assert (Hgf : exists l0, map_get (conn_from c) graph = Some l0)
        by (apply map_get_keys; now rewrite Hg).
      destruct Hgf as [l0 Hl0]. rewrite Hl0.
      destruct (IH (map_set (conn_to c)
                      (Num (or_zero (map_get (conn_to c) deg) + 1)) deg)
                   (map_set (conn_from c) (l0 ++ [conn_to c]) graph))
        as (c1 & Hin1 & Hbad1 & Hthrow).
      * rewrite map_set_keys_in; [exact Hg | now rewrite Hg].
      * exists c0. eauto.
      * exists c1. split; [now right|]. split; eauto.
    + exists c. split; [now left|]. split; auto.
      right. rewrite <- Hg, <- map_has_keys. congruence.
    + exists c. split; [now left|]. split; auto.
      left. rewrite <- Hg, <- map_has_keys. congruence.
Qed.

(** *** Counting the connections still to be served *)

Lemma mem_snoc x l u : mem x (l ++ [u]) = mem x l || String.eqb x u.
Proof. unfold mem. rewrite existsb_app. simpl. now rewrite orb_false_r. Qed.

(** Appending [u] to the served nodes removes from the count of [v]
    exactly the connections from [u] to [v]. *)
Lemma remaining_split conns order u v :
  ~ In u order ->
  remaining conns order v
  = remaining conns (order ++ [u]) v + occ v (adj conns u).
Proof.
  intros Hu. induction conns as [|c conns IH].
  - reflexivity.
  - rewrite !remaining_cons, adj_cons, occ_app, IH, mem_snoc.
    destruct (String.eqb_spec (conn_from c) u) as [Hf|Hf].
    + assert (Hm : mem (conn_from c) order = false)
        by (apply mem_false; now rewrite Hf).
      rewrite Hm. simpl. rewrite andb_true_r, andb_false_r, occ_single.
      rewrite (String.eqb_sym v). simpl. lia.
    + rewrite orb_false_r. change (occ v []) with 0. lia.
Qed.

Lemma remaining_zero conns order v :
  remaining conns order v = 0 <->
  (forall c, In c conns -> conn_to c = v -> In (conn_from c) order).
Proof.
  induction conns as [|c conns IH].
  - split; [intros _ c []| reflexivity].
  - rewrite remaining_cons. split.
    + intros H c' [<-|Hin] Hto.
      * apply mem_In. subst v. rewrite String.eqb_refl in H. simpl in H.
        destruct (mem (conn_from c) order); simpl in H; [reflexivity | lia].
      * apply IH; auto. lia.
    + intros H.
      assert (H0 : remaining conns order v = 0)
        by (apply IH; intros; apply H; auto; now right).
      rewrite H0.
      destruct (String.eqb_spec (conn_to c) v) as [Hto|Hto]; simpl; auto.
      assert (Hm : mem (conn_from c) order = true)
        by (apply mem_In; apply H; auto; now left).
      now rewrite Hm.
Qed.

Lemma remaining_source conns order v :
  remaining conns order v <> 0 ->
  exists c, In c conns /\ conn_to c = v /\ ~ In (conn_from c) order.
Proof.
  induction conns as [|c conns IH].
  - intros H. now contradiction H.
  - rewrite remaining_cons. intros H.
    destruct (String.eqb_spec (conn_to c) v) as [Hto|Hto]; simpl in H.
    + destruct (mem (conn_from c) order) eqn:Hm; simpl in H.
      * destruct (IH H) as (c' & Hin & Hc'). exists c'. split; [now right | auto].
      * exists c. split; [now left|]. split; auto. now apply mem_false.
    + destruct (IH H) as (c' & Hin & Hc'). exists c'. split; [now right | auto].
Qed.

Lemma zero_in_degree_remaining conns v :
  zero_in_degree conns v = Nat.eqb (remaining conns [] v) 0.
Proof.
  induction conns as [|c conns IH].
  - reflexivity.
  - rewrite remaining_cons. simpl. rewrite IH, andb_true_r.
    destruct (String.eqb (conn_to c) v); simpl; auto.
Qed.

(** *** Seeding the queue *)

Lemma seeds_filter (f : string -> nat) (m : jsmap jsnum) :
  NoDup (map fst m) ->
  (forall v, In v (map fst m) -> map_get v m = Some (Num (Z.of_nat (f v)))) ->
  seeds m = filter (fun v => Nat.eqb (f v) 0) (map fst m).
Proof.
  unfold seeds. induction m as [|[k d] m IH]; intros Hnd Hget.
  - reflexivity.
  - inversion Hnd as [|? ? Hk Hnd']; subst.
    assert (Hd : d = Num (Z.of_nat (f k))).
    { specialize (Hget k (or_introl eq_refl)). simpl in Hget.
      rewrite String.eqb_refl in Hget. congruence. }
    assert (IH' : map fst (filter (fun e => is_zero (Some (snd e))) m)
                  = filter (fun v => Nat.eqb (f v) 0) (map fst m)).
    { apply IH; auto. intros v Hv.
      specialize (Hget v (or_intror Hv)). simpl in Hget.
      destruct (String.eqb_spec k v) as [->|Hne]; [contradiction | assumption]. }
    subst d. cbn [filter map fst snd is_zero].
    destruct (Nat.eqb_spec (f k) 0) as [H0|H0].
    + assert (Hz : (Z.of_nat (f k) =? 0)%Z = true) by (apply Z.eqb_eq; lia).
      rewrite Hz. cbn [map fst]. f_equal. exact IH'.
    + assert (Hz : (Z.of_nat (f k) =? 0)%Z = false) by (apply Z.eqb_neq; lia).
      rewrite Hz. exact IH'.
Qed.

Lemma kahn_inv_init conns keys inDegree :
  NoDup keys -> map fst inDegree = keys ->
  (forall v, In v keys ->
     map_get v inDegree = Some (Num (Z.of_nat (remaining conns [] v)))) ->
  seeds inDegree = filter (zero_in_degree conns) keys
  /\ kahn_inv conns keys inDegree (seeds inDegree) [] [].
Proof.
  intros Hnd Hk Hget.
  assert (Hs : seeds inDegree = filter (zero_in_degree conns) keys).
  { rewrite (seeds_filter (remaining conns [])); rewrite Hk; auto.
    apply filter_ext. intros v. now rewrite zero_in_degree_remaining. }
  split; [exact Hs|]. rewrite Hs.
  constructor; simpl; auto.
  - intros v Hv. rewrite Hget by assumption. do 3 f_equal. unfold occ. simpl. lia.
  - now apply NoDup_filter.
  - intros x Hx. apply filter_In in Hx. tauto.
  - intros v Hv. rewrite filter_In, zero_in_degree_remaining, Nat.eqb_eq.
    unfold occ. simpl. split; [intros [_ H]; lia | intros H; split; auto; lia].
  - intros x [].
  - intros c _ [].
Qed.

(** *** Positions and walks *)

Lemma before_snoc l a b u : before l a b -> before (l ++ [u]) a b.
Proof.
  intros (l1 & l2 & l3 & ->). exists l1, l2, (l3 ++ [u]).
  rewrite <- !app_assoc. simpl. rewrite <- !app_assoc. reflexivity.
Qed.

Lemma before_last l a u : In a l -> before (l ++ [u]) a u.
Proof.
  intros H. apply in_split in H. destruct H as (l1 & l2 & ->).
  exists l1, l2, []. rewrite <- app_assoc. reflexivity.
Qed.

Lemma pos_le a l1 t : pos a (l1 ++ a :: t) <= List.length l1.
Proof.
  induction l1 as [|y l1 IH]; simpl.
  - now rewrite String.eqb_refl.
  - destruct (String.eqb a y); lia.
Qed.

Lemma pos_skip b p s : ~ In b p -> pos b (p ++ b :: s) = List.length p.
Proof.
  induction p as [|y p IH]; simpl; intros H.
  - now rewrite String.eqb_refl.
  - destruct (String.eqb_spec b y) as [->|Hne]; [tauto|].
    f_equal. apply IH. tauto.
Qed.

Lemma before_pos l a b : NoDup l -> before l a b -> pos a l < pos b l.
Proof.
  intros Hnd (l1 & l2 & l3 & ->).
  pose proof (pos_le a l1 (l2 ++ b :: l3)) as Hle.
  assert (Hb : ~ In b (l1 ++ a :: l2)).
  { replace (l1 ++ a :: l2 ++ b :: l3) with ((l1 ++ a :: l2) ++ b :: l3) in Hnd
      by (rewrite <- app_assoc; reflexivity).
    apply NoDup_remove_2 in Hnd. intros Hin. apply Hnd.
    apply in_or_app. now left. }
  replace (l1 ++ a :: l2 ++ b :: l3) with ((l1 ++ a :: l2) ++ b :: l3) at 2
    by (rewrite <- app_assoc; reflexivity).
  rewrite (pos_skip b _ l3 Hb), length_app. simpl. lia.
Qed.

Lemma path_pos conns order x y :
  NoDup order ->
  (forall c, In c conns -> before order (conn_from c) (conn_to c)) ->
  path conns x y -> pos x order < pos y order.
Proof.
  intros Hnd Hall Hp. induction Hp as [a b (c & Hc & <- & <-)|a b d (c & Hc & <- & <-) _ IH].
  - apply before_pos; auto.
  - etransitivity; [apply before_pos; eauto | exact IH].
Qed.

Lemma chain_cons conns x y l :
  edge conns x y -> chain conns (y :: l) -> chain conns (x :: y :: l).
Proof. intros He Hc. split; assumption. Qed.

Lemma chain_tail conns x l : chain conns (x :: l) -> chain conns l.
Proof. destruct l; simpl; tauto. Qed.

Lemma chain_path conns : forall l x y,
  chain conns (x :: l) -> In y l -> path conns x y.
Proof.
  induction l as [|z l IH]; intros x y Hc Hy; [contradiction|].
  destruct Hc as [He Hc'].
  destruct (string_dec z y) as [->|Hne].
  - now apply path_one.
  - destruct Hy as [Hy|Hy]; [contradiction|].
    eapply path_cons; eauto.
Qed.

Lemma chain_repeat conns : forall l,
  chain conns l -> ~ NoDup l -> has_cycle conns.
Proof.
  induction l as [|x l IH]; intros Hc Hnd.
  - exfalso. apply Hnd. constructor.
  - destruct (in_dec string_dec x l) as [Hin|Hnin].
    + exists x. eapply chain_path; eauto.
    + apply IH; [eapply chain_tail; eauto|].
      intros H. apply Hnd. now constructor.
Qed.

(** *** The nested loops keep the invariant *)

Section Kahn.

Variable conns : list Connection.
Variable keys : list string.

Hypothesis endpoints_known :
  forall c, In c conns -> In (conn_from c) keys /\ In (conn_to c) keys.

(** One neighbour visited. *)
Lemma visit_neighbor_inv inDegree queue order nb todo :
  kahn_inv conns keys inDegree queue order (nb :: todo) ->
  kahn_inv conns keys
    (fst (visit_neighbor (inDegree, queue) nb))
    (snd (visit_neighbor (inDegree, queue) nb)) order todo
  /\ exists pushed,
       snd (visit_neighbor (inDegree, queue) nb) = queue ++ pushed.
Proof.
  intros [Hk Hdeg Hnd Hincl Hready Htodo Hsorted].
  assert (Hnb : In nb keys) by (apply Htodo; now left).
  set (r := remaining conns order nb) in *.
  assert (Hget : map_get nb inDegree
                 = Some (Num (Z.of_nat (r + S (occ nb todo))))).
  { rewrite (Hdeg nb Hnb), occ_cons, String.eqb_refl. reflexivity. }
  assert (Hout : ~ In nb (order ++ queue)).
  { intros Hin. apply (Hready nb Hnb) in Hin.
    rewrite occ_cons, String.eqb_refl in Hin. lia. }
  unfold visit_neighbor. cbn [fst snd]. rewrite Hget. cbn [minus_one].
  rewrite map_get_set_same. cbn [is_zero].
  set (deg' := map_set nb (Num (Z.of_nat (r + S (occ nb todo)) - 1)) inDegree).
  assert (Hk' : map fst deg' = keys)
    by (unfold deg'; rewrite map_set_keys_in; auto; now rewrite Hk).
  assert (Hdeg' : forall v, In v keys ->
            map_get v deg'
            = Some (Num (Z.of_nat (remaining conns order v + occ v todo)))).
  { intros v Hv. unfold deg'.
    destruct (String.eqb_spec nb v) as [<-|Hne].
    - rewrite map_get_set_same. do 2 f_equal. fold r. lia.
    - rewrite map_get_set_other by assumption. rewrite (Hdeg v Hv).
      rewrite occ_cons. destruct (String.eqb_spec v nb); [congruence|].
      reflexivity. }
  assert (Htodo' : incl todo keys) by (intros x Hx; apply Htodo; now right).
  destruct (Z.eqb_spec (Z.of_nat (r + S (occ nb todo)) - 1) 0) as [Hz|Hz];
    cbn [fst snd].
  - split; [|now exists [nb]].
    constructor; auto.
    + rewrite app_assoc. apply NoDup_app; auto.
      * constructor; [simpl; tauto | constructor].
      * intros x Hx [<-|[]]. contradiction.
    + rewrite app_assoc. apply incl_app; auto. intros x [<-|[]]. assumption.
    + intros v Hv. rewrite app_assoc, in_app_iff.
      destruct (String.eqb_spec v nb) as [->|Hne].
      * fold r. split; [lia | intros _; right; now left].
      * rewrite (Hready v Hv), occ_cons.
        destruct (String.eqb_spec v nb); [congruence|].
        simpl. split; [intros [H|[H|[]]]; [lia | congruence] | auto].
  - split; [|exists []; now rewrite app_nil_r].
    constructor; auto.
    intros v Hv.
    destruct (String.eqb_spec v nb) as [->|Hne].
    + fold r. split; [contradiction | lia].
    + rewrite (Hready v Hv), occ_cons.
      destruct (String.eqb_spec v nb); [congruence|]. reflexivity.
Qed.

(** The whole adjacency list visited. *)
Lemma visit_all_inv order todo : forall inDegree queue,
  kahn_inv conns keys inDegree queue order todo ->
  kahn_inv conns keys
    (fst (fold_left visit_neighbor todo (inDegree, queue)))
    (snd (fold_left visit_neighbor todo (inDegree, queue))) order []
  /\ exists pushed,
       snd (fold_left visit_neighbor todo (inDegree, queue)) = queue ++ pushed.
Proof.
  induction todo as [|nb todo IH]; intros deg q Hinv.
  - simpl. split; [assumption | exists []; now rewrite app_nil_r].
  - simpl. destruct (visit_neighbor_inv _ _ _ _ _ Hinv) as [H1 (p1 & Hp1)].
    destruct (visit_neighbor (deg, q) nb) as [deg1 q1] eqn:Hv. cbn [fst snd] in *.
    destruct (IH deg1 q1 H1) as [H2 (p2 & Hp2)].
    split; [assumption|]. exists (p1 ++ p2). rewrite Hp2, Hp1.
    now rewrite app_assoc.
Qed.

(** A node leaves the queue. *)
Lemma dequeue_inv inDegree u queue order :
  kahn_inv conns keys inDegree (u :: queue) order [] ->
  kahn_inv conns keys inDegree queue (order ++ [u]) (adj conns u).
Proof.
  intros [Hk Hdeg Hnd Hincl Hready Htodo Hsorted].
  assert (Hu : ~ In u order).
  { intros Hin. apply NoDup_remove_2 in Hnd. apply Hnd.
    apply in_or_app. now left. }
  assert (Hukey : In u keys) by (apply Hincl, in_or_app; right; now left).
  assert (Hzero : remaining conns order u = 0).
  { assert (H : remaining conns order u + occ u [] = 0)
      by (apply Hready; auto; apply in_or_app; right; now left).
    lia. }
  assert (Hsplit : forall v, remaining conns order v + occ v []
                             = remaining conns (order ++ [u]) v + occ v (adj conns u)).
  { intros v. rewrite (remaining_split conns order u v Hu).
    change (occ v []) with 0. lia. }
  constructor; auto.
  - intros v Hv. rewrite (Hdeg v Hv). now rewrite Hsplit.
  - now rewrite <- app_assoc.
  - now rewrite <- app_assoc.
  - intros v Hv. rewrite <- app_assoc. simpl. rewrite (Hready v Hv). now rewrite Hsplit.
  - intros x Hx. unfold adj in Hx. apply in_map_iff in Hx.
    destruct Hx as (c & <- & Hc). apply filter_In in Hc. apply endpoints_known. tauto.
  - intros c Hc Hin. apply in_app_or in Hin. destruct Hin as [Hin|[Hto|[]]].
    + apply before_snoc. now apply Hsorted.
    + rewrite Hto. apply before_last.
      apply (proj1 (remaining_zero conns order u) Hzero c Hc). congruence.
Qed.

(** *** The [while] loop *)

Lemma kahn_inv_bound inDegree queue order todo :
  kahn_inv conns keys inDegree queue order todo ->
  List.length order + List.length queue <= List.length keys.
Proof.
  intros H. rewrite <- length_app.
  apply NoDup_incl_length;
    [apply (inv_nodup _ _ _ _ _ _ H) | apply (inv_incl _ _ _ _ _ _ H)].
Qed.

(** With enough fuel the loop runs until the queue is empty: the final
    order satisfies the invariant with an empty queue, it extends the
    order built so far by the queue and then by later arrivals, and more
    fuel changes nothing. *)
Lemma kahn_loop_fuel graph :
  (forall u, In u keys -> neighbors graph u = adj conns u) ->
  forall fuel inDegree queue order,
    kahn_inv conns keys inDegree queue order [] ->
    List.length keys <= fuel + List.length order ->
    (exists inDegree',
       kahn_inv conns keys inDegree' []
         (kahn_loop fuel graph inDegree queue order) [])
    /\ (exists rest,
          kahn_loop fuel graph inDegree queue order = order ++ queue ++ rest)
    /\ (forall extra,
          kahn_loop (fuel + extra) graph inDegree queue order
          = kahn_loop fuel graph inDegree queue order).
Proof.
  intros Hgraph.
  induction fuel as [|fuel IH]; intros deg q order Hinv Hlen.
  - pose proof (kahn_inv_bound _ _ _ _ Hinv) as Hb.
    destruct q as [|u q]; [|simpl in Hb; lia].
    simpl. split; [eauto|]. split; [exists []; now rewrite !app_nil_r|].
    intros extra. destruct extra; reflexivity.
  - destruct q as [|u q].
    + simpl. split; [eauto|]. split; [exists []; now rewrite !app_nil_r|].
      reflexivity.
    + assert (Hukey : In u keys)
        by (apply (inv_incl _ _ _ _ _ _ Hinv), in_or_app; right; now left).
      pose proof (dequeue_inv _ _ _ _ Hinv) as Hd.
      destruct (visit_all_inv _ _ _ _ Hd) as [Hv (pushed & Hp)].
      simpl. rewrite (Hgraph u Hukey).
      destruct (fold_left visit_neighbor (adj conns u) (deg, q)) as [deg1 q1] eqn:Hf.
      cbn [fst snd] in *.
      destruct (IH deg1 q1 (order ++ [u]) Hv) as (H1 & (rest & H2) & H3).
      { rewrite length_app. simpl. lia. }
      split; [assumption|]. split; [|assumption].
      exists (pushed ++ rest). rewrite H2, Hp.
      rewrite <- !app_assoc. reflexivity.
Qed.

(** *** A cycle keeps some node out of the order *)

Lemma order_nodup inDegree order :
  kahn_inv conns keys inDegree [] order [] -> NoDup order /\ incl order keys.
Proof.
  intros H. pose proof (inv_nodup _ _ _ _ _ _ H) as Hn.
  pose proof (inv_incl _ _ _ _ _ _ H) as Hi.
  rewrite app_nil_r in Hn, Hi. auto.
Qed.

Lemma cycle_not_served inDegree order :
  kahn_inv conns keys inDegree [] order [] ->
  incl keys order -> has_cycle conns -> False.
Proof.
  intros Hinv Hall (x & Hx).
  destruct (order_nodup _ _ Hinv) as [Hnd _].
  assert (H : pos x order < pos x order).
  { apply (path_pos conns); auto.
    intros c Hc. apply (inv_sorted _ _ _ _ _ _ Hinv c Hc).
    apply Hall. now apply endpoints_known. }
  lia.
Qed.

(** *** Without a cycle every node is served *)

Lemma unserved_source inDegree order v :
  kahn_inv conns keys inDegree [] order [] ->
  In v keys -> ~ In v order ->
  exists u, edge conns u v /\ In u keys /\ ~ In u order.
Proof.
  intros Hinv Hv Hout.
  assert (Hr : remaining conns order v <> 0).
  { intros H0. apply Hout.
    pose proof (proj2 (inv_ready _ _ _ _ _ _ Hinv v Hv)) as H.
    rewrite app_nil_r in H. apply H. change (occ v []) with 0. lia. }
  destruct (remaining_source conns order v Hr) as (c & Hc & Hto & Hfrom).
  exists (conn_from c). split; [exists c; auto|].
  split; [now apply endpoints_known | assumption].
Qed.

Lemma unserved_chain inDegree order :
  kahn_inv conns keys inDegree [] order [] ->
  forall n v, In v keys -> ~ In v order ->
    exists l, List.length l = n /\ chain conns (l ++ [v])
              /\ (forall x, In x l -> In x keys /\ ~ In x order).
Proof.
  intros Hinv. induction n as [|n IH]; intros v Hv Hout.
  - exists []. simpl. repeat split; auto; contradiction.
  - destruct (IH v Hv Hout) as (l & Hlen & Hch & Hl).
    assert (Hhead : exists h t, l ++ [v] = h :: t /\ In h keys /\ ~ In h order).
    { destruct l as [|h t]; simpl.
      - exists v, []. auto.
      - exists h, (t ++ [v]). split; auto. apply Hl. now left. }
    destruct Hhead as (h & t & Heq & Hh & Hhout).
    destruct (unserved_source inDegree order h Hinv Hh Hhout)
      as (u & He & Hu & Huout).
    exists (u :: l). simpl. split; [lia|]. split.
    + rewrite Heq in *. now apply chain_cons.
    + intros x [<-|Hx]; auto.
Qed.

Lemma acyclic_all_served inDegree order :
  kahn_inv conns keys inDegree [] order [] ->
  acyclic conns -> incl keys order.
Proof.
  intros Hinv Hac v Hv.
  destruct (in_dec string_dec v order) as [Hin|Hout]; [assumption|].
  exfalso.
  destruct (unserved_chain inDegree order Hinv (List.length keys) v Hv Hout)
    as (l & Hlen & Hch & Hl).
  destruct (chain_repeat conns (l ++ [v]) Hch) as (x & Hx).
  - intros Hnd. apply NoDup_incl_length with (l' := keys) in Hnd.
    + rewrite length_app in Hnd. simpl in Hnd. lia.
    + intros y Hy. apply in_app_or in Hy. destruct Hy as [Hy|[<-|[]]]; auto.
      now apply Hl.
  - exact (Hac x Hx).
Qed.

End Kahn.

(** *** What the scheduler returns for known endpoints *)

Lemma known_endpoints_keys nodes conns :
  known_endpoints nodes conns ->
  forall c, In c conns ->
    In (conn_from c) (graph_keys nodes) /\ In (conn_to c) (graph_keys nodes).
Proof.
  intros H c Hc. destruct (graph_keys_spec nodes) as (_ & Hin & _).
  rewrite !Hin. now apply H.
Qed.

Lemma graph_neighbors conns keys (graph : jsmap (list string)) :
  (forall u, In u keys -> map_get u graph = Some (adj conns u)) ->
  forall u, In u keys -> neighbors graph u = adj conns u.
Proof. intros H u Hu. unfold neighbors. now rewrite (H u Hu). Qed.

Lemma scheduler_run nodes conns :
  known_endpoints nodes conns ->
  exists order inDegree,
    kahn_inv conns (graph_keys nodes) inDegree [] order []
    /\ (exists rest,
          order = filter (zero_in_degree conns) (graph_keys nodes) ++ rest)
    /\ (exists inDegree0 graph,
          build_graph conns (fst (init_graph nodes)) (snd (init_graph nodes))
          = Ok (inDegree0, graph)
          /\ order = kahn_loop (List.length nodes) graph inDegree0
                       (seeds inDegree0) [])
    /\ getExecutionOrder nodes conns
       = if Nat.eqb (List.length order) (List.length nodes)
         then Ok order else Throw cycle_message.
Proof.
  intros Hknown.
  pose proof (known_endpoints_keys nodes conns Hknown) as Hk.
  destruct (graph_keys_spec nodes) as (Hnd & Hin & Hlen & Hg & Hz & He & _).
  destruct (build_graph_ok (graph_keys nodes) conns
              (fst (init_graph nodes)) (snd (init_graph nodes)) eq_refl Hg Hk)
    as (deg & graph & Hb & Hdk & Hgk & Hdeg & Hadj).
  destruct (kahn_inv_init conns (graph_keys nodes) deg Hnd Hdk) as [Hseeds Hinit].
  { intros v Hv. rewrite (Hdeg v 0%Z (Hz v Hv)). reflexivity. }
  destruct (kahn_loop_fuel conns (graph_keys nodes) Hk graph
              (graph_neighbors conns _ graph (fun u Hu => Hadj u [] (He u Hu)))
              (List.length nodes) deg (seeds deg) [] Hinit)
    as ((deg' & Hfinal) & (rest & Hrest) & _).
  { simpl. lia. }
  exists (kahn_loop (List.length nodes) graph deg (seeds deg) []), deg'.
  split; [assumption|]. split; [|split].
  - exists rest. rewrite Hrest. simpl. now rewrite Hseeds.
  - exists deg, graph. auto.
  - unfold getExecutionOrder. rewrite Hb.
    destruct (Nat.eqb _ _); reflexivity.
Qed.

(** The fuel handed to the loop is never what stops it. *)
Lemma getExecutionOrder_fuel nodes conns inDegree graph extra :
  build_graph conns (fst (init_graph nodes)) (snd (init_graph nodes))
  = Ok (inDegree, graph) ->
  kahn_loop (List.length nodes + extra) graph inDegree (seeds inDegree) []
  = kahn_loop (List.length nodes) graph inDegree (seeds inDegree) [].
Proof.
  intros Hb.
  destruct (graph_keys_spec nodes) as (Hnd & Hin & Hlen & Hg & Hz & He & _).
  assert (Hk : forall c, In c conns ->
             In (conn_from c) (graph_keys nodes) /\ In (conn_to c) (graph_keys nodes)).
  { intros c Hc.
    destruct (in_dec string_dec (conn_from c) (graph_keys nodes)) as [Hf|Hf];
      [destruct (in_dec string_dec (conn_to c) (graph_keys nodes)) as [Ht|Ht]|];
      [auto | |].
    - destruct (build_graph_invalid (graph_keys nodes) conns
                  (fst (init_graph nodes)) (snd (init_graph nodes)) Hg)
        as (c' & _ & _ & Hthrow); [eauto | congruence].
    - destruct (build_graph_invalid (graph_keys nodes) conns
                  (fst (init_graph nodes)) (snd (init_graph nodes)) Hg)
        as (c' & _ & _ & Hthrow); [eauto | congruence]. }
  destruct (build_graph_ok (graph_keys nodes) conns
              (fst (init_graph nodes)) (snd (init_graph nodes)) eq_refl Hg Hk)
    as (deg & graph' & Hb' & Hdk & Hgk & Hdeg & Hadj).
  rewrite Hb in Hb'. inversion Hb'; subst deg graph'.
  destruct (kahn_inv_init conns (graph_keys nodes) inDegree Hnd Hdk) as [Hseeds Hinit].
  { intros v Hv. rewrite (Hdeg v 0%Z (Hz v Hv)). reflexivity. }
  destruct (kahn_loop_fuel conns (graph_keys nodes) Hk graph
              (graph_neighbors conns _ graph (fun u Hu => Hadj u [] (He u Hu)))
              (List.length nodes) inDegree (seeds inDegree) [] Hinit)
    as (_ & _ & Hextra).
  { simpl. lia. }
  apply Hextra.
Qed.

(** *** Outcomes of the scheduler *)

Lemma before_app_l l r a b : before l a b -> before (l ++ r) a b.
Proof.
  intros (l1 & l2 & l3 & ->). exists l1, l2, (l3 ++ r).
  rewrite <- !app_assoc. simpl. rewrite <- !app_assoc. reflexivity.
Qed.

Lemma before_filter (p : string -> bool) l a b :
  before l a b -> p a = true -> p b = true -> before (filter p l) a b.
Proof.
  intros (l1 & l2 & l3 & ->) Ha Hb.
  exists (filter p l1), (filter p l2), (filter p l3).
  rewrite filter_app. simpl. rewrite Ha, filter_app. simpl. now rewrite Hb.
Qed.

(** A ranking that grows along every connection rules out cycles. *)
Lemma ranked_acyclic (rank : string -> nat) conns :
  (forall c, In c conns -> rank (conn_from c) < rank (conn_to c)) ->
  acyclic conns.
Proof.
  intros Hr.
  assert (H : forall x y, path conns x y -> rank x < rank y).
  { intros x y Hp.
    induction Hp as [a b (c & Hc & <- & <-)|a b d (c & Hc & <- & <-) _ IH].
    - auto.
    - etransitivity; [apply Hr; eauto | exact IH]. }
  intros x Hx. apply H in Hx. lia.
Qed.

(** With known endpoints and no cycle, the scheduler returns an order in
    which every node occurs once and every connection points forward. *)
Lemma acyclic_order nodes conns :
  NoDup (ids nodes) -> known_endpoints nodes conns -> acyclic conns ->
  exists order,
    getExecutionOrder nodes conns = Ok order
    /\ (forall c, In c conns -> before order (conn_from c) (conn_to c))
    /\ (exists rest, order = filter (zero_in_degree conns) (ids nodes) ++ rest)
    /\ NoDup order
    /\ (forall x, In x order <-> In x (ids nodes)).
Proof.
  intros Hnd Hknown Hac.
  destruct (scheduler_run nodes conns Hknown)
    as (order & deg & Hinv & Hrest & _ & Hget).
  pose proof (known_endpoints_keys nodes conns Hknown) as Hk.
  destruct (graph_keys_spec nodes) as (Hkn & Hin & Hlen & _ & _ & _ & Heq).
  specialize (Heq Hnd).
  destruct (order_nodup _ _ _ _ Hinv) as [Hon Hoi].
  assert (Hall : incl (graph_keys nodes) order).
  { eapply acyclic_all_served; eauto. }
  assert (Hl : List.length order = List.length nodes).
  { apply Nat.le_antisymm.
    - etransitivity; [apply NoDup_incl_length; eauto | assumption].
    - replace (List.length nodes) with (List.length (graph_keys nodes))
        by (rewrite Heq; unfold ids; apply length_map).
      apply NoDup_incl_length; auto. }
  exists order. rewrite Hget, Hl, Nat.eqb_refl.
  split; [reflexivity|]. split; [|split; [|split]].
  - intros c Hc. apply (inv_sorted _ _ _ _ _ _ Hinv c Hc).
    apply Hall. apply Hk; auto.
  - now rewrite <- Heq.
  - assumption.
  - intros x. rewrite <- Hin. split; [apply Hoi | apply Hall].
Qed.

(** With known endpoints and a cycle, the loop ends with fewer nodes than
    the workflow has, and the scheduler reports the cycle. *)
Lemma cyclic_order nodes conns :
  known_endpoints nodes conns -> has_cycle conns ->
  (exists inDegree graph,
     build_graph conns (fst (init_graph nodes)) (snd (init_graph nodes))
     = Ok (inDegree, graph)
     /\ List.length (kahn_loop (List.length nodes) graph inDegree
                       (seeds inDegree) [])
        < List.length nodes)
  /\ getExecutionOrder nodes conns = Throw cycle_message.
Proof.
  intros Hknown Hcyc.
  destruct (scheduler_run nodes conns Hknown)
    as (order & deg & Hinv & _ & (deg0 & graph & Hb & Horder) & Hget).
  pose proof (known_endpoints_keys nodes conns Hknown) as Hk.
  destruct (graph_keys_spec nodes) as (Hkn & Hin & Hlen & _).
  destruct (order_nodup _ _ _ _ Hinv) as [Hon Hoi].
  assert (Hle : List.length order <= List.length (graph_keys nodes))
    by (apply NoDup_incl_length; auto).
  assert (Hlt : List.length order < List.length nodes).
  { destruct (Nat.eq_dec (List.length order) (List.length nodes)) as [Heq|Hne];
      [|lia].
    exfalso. eapply cycle_not_served; eauto.
    apply NoDup_length_incl; auto. lia. }
  split.
  - exists deg0, graph. split; [assumption|]. now rewrite <- Horder.
  - rewrite Hget. destruct (Nat.eqb_spec (List.length order) (List.length nodes));
      [lia | reflexivity].
Qed.

(** An endpoint that is no node id makes the scheduler fail on the first
    such connection. *)
Lemma invalid_order nodes conns :
  (exists c, In c conns
     /\ (~ In (conn_from c) (ids nodes) \/ ~ In (conn_to c) (ids nodes))) ->
  exists c, In c conns
    /\ (~ In (conn_from c) (ids nodes) \/ ~ In (conn_to c) (ids nodes))
    /\ getExecutionOrder nodes conns
       = Throw (invalid_connection_message (conn_from c) (conn_to c)).
Proof.
  intros (c & Hc & Hbad).
  destruct (graph_keys_spec nodes) as (_ & Hin & _ & Hg & _).
  destruct (build_graph_invalid (graph_keys nodes) conns
              (fst (init_graph nodes)) (snd (init_graph nodes)) Hg)
    as (c' & Hc' & Hbad' & Hthrow).
  - exists c. rewrite !Hin. auto.
  - exists c'. rewrite !Hin in Hbad'. repeat split; auto.
    unfold getExecutionOrder. now rewrite Hthrow.
Qed.

(** When the scheduler returns an order, the endpoints were known, and
    the order lists distinct node ids, as many as there are nodes. *)
Lemma getExecutionOrder_ok nodes conns order :
  getExecutionOrder nodes conns = Ok order ->
  known_endpoints nodes conns
  /\ NoDup order /\ incl order (ids nodes)
  /\ List.length order = List.length nodes.
Proof.
  intros Hok.
  assert (Hknown : known_endpoints nodes conns).
  { intros c Hc.
    destruct (in_dec string_dec (conn_from c) (ids nodes)) as [Hf|Hf];
      [destruct (in_dec string_dec (conn_to c) (ids nodes)) as [Ht|Ht]|];
      [auto | |].
    - destruct (invalid_order nodes conns) as (c' & _ & _ & Hthrow);
        [eauto | congruence].
    - destruct (invalid_order nodes conns) as (c' & _ & _ & Hthrow);
        [eauto | congruence]. }
  split; [assumption|].
  destruct (scheduler_run nodes conns Hknown) as (o & deg & Hinv & _ & _ & Hget).
  destruct (graph_keys_spec nodes) as (_ & Hin & _).
  destruct (order_nodup _ _ _ _ Hinv) as [Hon Hoi].
  rewrite Hget in Hok.
  destruct (Nat.eqb_spec (List.length o) (List.length nodes)); [|discriminate].
  inversion Hok; subst o. repeat split; auto.
  intros x Hx. apply Hin. now apply Hoi.
Qed.

(** ** The store and the log *)

Lemma getExecution_update id u st :
  getExecution id (updateExecution id u st)
  = option_map (fun e => merge_execution e u) (getExecution id st).
Proof.
  unfold getExecution, updateExecution.
  destruct (map_get id st) as [e|] eqn:He; simpl.
  - apply map_get_set_same.
  - now rewrite He.
Qed.

Lemma evolves_refl id w : evolves id w w.
Proof.
  intros e He. exists e. repeat split; auto. exists []. now rewrite app_nil_r.
Qed.

Lemma evolves_trans id w1 w2 w3 :
  evolves id w1 w2 -> evolves id w2 w3 -> evolves id w1 w3.
Proof.
  intros H12 H23 e He.
  destruct (H12 e He) as (e2 & He2 & Hr2 & (m2 & Hl2)).
  destruct (H23 e2 He2) as (e3 & He3 & Hr3 & (m3 & Hl3)).
  exists e3. repeat split; auto; try congruence.
  exists (m2 ++ m3). rewrite Hl3, Hl2. now rewrite app_assoc.
Qed.

(** An update that mentions neither [results] nor [logs]. *)
Lemma evolves_update id u w :
  up_results u = None -> up_logs u = None ->
  evolves id w (with_store (updateExecution id u) w).
Proof.
  intros Hr Hl e He. simpl. rewrite getExecution_update, He. simpl.
  eexists. split; [reflexivity|]. simpl. rewrite Hr, Hl. simpl.
  split; auto. exists []. now rewrite app_nil_r.
Qed.

Lemma evolves_tick id w : evolves id w (tick w).
Proof. exact (evolves_refl id w). Qed.

Lemma evolves_record_call id i w : evolves id w (record_call i w).
Proof. exact (evolves_refl id w). Qed.

Lemma evolves_addLog E id level message nodeId w :
  evolves id w (addLog E id level message nodeId w).
Proof.
  intros e He. unfold addLog. rewrite He. simpl.
  rewrite getExecution_update, He. simpl.
  eexists. split; [reflexivity|]. simpl. split; eauto.
Qed.

Lemma evolves_mark_failed E id w : evolves id w (mark_failed E id w).
Proof.
  unfold mark_failed. eapply evolves_trans; [apply evolves_tick|].
  apply (evolves_update id _ (tick w)); reflexivity.
Qed.

Lemma evolves_stop_route E id w : evolves id w (stop_route E id w).
Proof.
  unfold stop_route. eapply evolves_trans; [apply evolves_tick|].
  apply (evolves_update id _ (tick w)); reflexivity.
Qed.

Lemma evolves_fail_node E id n m w : evolves id w (fail_node E id n m w).
Proof.
  unfold fail_node.
  eapply evolves_trans; [apply evolves_addLog | apply evolves_mark_failed].
Qed.

Lemma evolves_fail_workflow E id m w : evolves id w (fail_workflow E id m w).
Proof.
  unfold fail_workflow.
  eapply evolves_trans; [apply evolves_addLog | apply evolves_mark_failed].
Qed.

Lemma invoked_addLog E id level message nodeId w :
  invoked (addLog E id level message nodeId w) = invoked w.
Proof. unfold addLog. destruct (getExecution id (store w)); reflexivity. Qed.

Lemma invoked_mark_failed E id w : invoked (mark_failed E id w) = invoked w.
Proof. reflexivity. Qed.

Lemma invoked_stop_route E id w : invoked (stop_route E id w) = invoked w.
Proof. reflexivity. Qed.

Lemma invoked_fail_node E id n m w : invoked (fail_node E id n m w) = invoked w.
Proof. unfold fail_node. now rewrite invoked_mark_failed, invoked_addLog. Qed.

Lemma invoked_fail_workflow E id m w :
  invoked (fail_workflow E id m w) = invoked w.
Proof. unfold fail_workflow. now rewrite invoked_mark_failed, invoked_addLog. Qed.

Lemma status_mark_failed E id w e :
  getExecution id (store w) = Some e ->
  status_of id (mark_failed E id w) = Some failed.
Proof.
  intros He. unfold status_of, mark_failed. simpl.
  rewrite getExecution_update, He. reflexivity.
Qed.

Lemma evolves_some id w w' e :
  evolves id w w' -> getExecution id (store w) = Some e ->
  exists e', getExecution id (store w') = Some e'.
Proof. intros H He. destruct (H e He) as (e' & He' & _). eauto. Qed.

Lemma status_fail_node E id n m w e :
  getExecution id (store w) = Some e ->
  status_of id (fail_node E id n m w) = Some failed.
Proof.
  intros He. unfold fail_node.
  destruct (evolves_some _ _ _ _ (evolves_addLog E id error ("ERROR: " ^^ m) (Some n) w) He)
    as (e' & He').
  eapply status_mark_failed; eauto.
Qed.

Lemma status_fail_workflow E id m w e :
  getExecution id (store w) = Some e ->
  status_of id (fail_workflow E id m w) = Some failed.
Proof.
  intros He. unfold fail_workflow.
  destruct (evolves_some _ _ _ _
              (evolves_addLog E id error ("Workflow execution failed: " ^^ m) None w) He)
    as (e' & He').
  eapply status_mark_failed; eauto.
Qed.

(** ** The run loop *)

Lemma find_node_id nodes nodeId nodeConfig :
  find (fun n => String.eqb (node_id n) nodeId) nodes = Some nodeConfig ->
  node_id nodeConfig = nodeId.
Proof.
  intros H. apply find_some in H. destruct H as [_ H]. now apply String.eqb_eq.
Qed.

Lemma evolves_set_current id nodeId w :
  evolves id w
    (with_store
       (updateExecution id
          {| up_status := None; up_completedAt := None;
             up_currentNodeId := Some (Some nodeId); up_logs := None;
             up_results := None |}) w).
Proof. apply evolves_update; reflexivity. Qed.

Lemma evolves_in_flight E id (b : bool) w :
  evolves id w (while_in_flight E id b w).
Proof. destruct b; [apply evolves_stop_route | apply evolves_refl]. Qed.

Create HintDb evolve.

#[local] Hint Resolve evolves_tick evolves_record_call evolves_addLog
  evolves_mark_failed evolves_stop_route evolves_fail_node
  evolves_fail_workflow evolves_set_current evolves_in_flight : evolve.

(** Relates two worlds that are a chain of engine steps apart, peeling
    the steps off from the last one. *)
Ltac evolve :=
  first [ assumption
        | apply evolves_refl
        | eapply evolves_trans; [|solve [eauto with evolve]]; evolve ].

Lemma invoked_in_flight E id (b : bool) w :
  invoked (while_in_flight E id b w) = invoked w.
Proof. destruct b; reflexivity. Qed.

Lemma run_nodes_spec E wf id stops : forall order k res w w' res' exit,
  run_nodes E wf id stops k order res w = (w', res', exit) ->
  evolves id w w'
  /\ exists calls,
       invoked w' = invoked w ++ calls
       /\ Forall (call_gathered (wf_connections wf)) calls
       /\ loop_outcome id order res res' w w' calls exit.
Proof.
  induction order as [|nodeId rest IH]; intros k res w w' res' exit Hrun.
  - simpl in Hrun. inversion Hrun; subst. split; [apply evolves_refl|].
    exists []. rewrite app_nil_r. split; [reflexivity|]. split; [constructor|].
    simpl. split; [reflexivity|]. intros x. tauto.
  - cbn [run_nodes] in Hrun.
    set (w1 := with_store _ w) in *.
    assert (Hev1 : evolves id w w1) by apply evolves_set_current.
    assert (Hi1 : invoked w1 = invoked w) by reflexivity.
    destruct (find _ (wf_nodes wf)) as [nodeConfig|] eqn:Hfind.
    2:{ inversion Hrun; subst. split; [assumption|].
        exists []. rewrite app_nil_r. split; [assumption|].
        split; [constructor | exact I]. }
    pose proof (find_node_id _ _ _ Hfind) as Hid.
    set (w2 := addLog E id info _ (Some nodeId) w1) in *.
    assert (Hev2 : evolves id w w2) by (unfold w2; evolve).
    assert (Hi2 : invoked w2 = invoked w).
    { unfold w2. now rewrite invoked_addLog. }
    destruct (map_get (node_type nodeConfig) nodeRegistry) as [node|] eqn:Hreg.
    2:{ inversion Hrun; subst. split.
        - eapply evolves_trans; [exact Hev2 | apply evolves_fail_node].
        - exists []. rewrite app_nil_r, invoked_fail_node.
          split; [assumption|]. split; [constructor|].
          exists [], rest. split; [reflexivity|]. split; [now right|].
          split; [intros x; simpl; tauto|].
          intros e He. destruct (evolves_some _ _ _ _ Hev2 He) as (e2 & He2).
          eapply status_fail_node; eauto. }
    set (call := {| inv_nodeId := nodeId; inv_type := node_type nodeConfig;
                    inv_input := gather_inputs (wf_connections wf) res nodeId;
                    inv_results := res;
                    inv_status := option_map ex_status (getExecution id (store w2)) |})
      in *.
    set (w3 := record_call call w2) in *.
    set (w4 := while_in_flight E id (stops k) (tick w3)) in *.
    assert (Hcall : call_gathered (wf_connections wf) call) by reflexivity.
    assert (Hev4 : evolves id w w4).
    { unfold w4, w3. evolve. }
    assert (Hi4 : invoked w4 = invoked w ++ [call]).
    { unfold w4. rewrite invoked_in_flight. simpl. now rewrite Hi2. }
    destruct (node E (now E w3) (gather_inputs (wf_connections wf) res nodeId)
                (or_else (node_params nodeConfig) [])) as [outputData|m] eqn:Hexec.
    + set (w5 := addLog E id info _ (Some nodeId) w4) in *.
      assert (Hev5 : evolves id w w5) by (unfold w5; evolve).
      assert (Hi5 : invoked w5 = invoked w ++ [call]).
      { unfold w5. now rewrite invoked_addLog. }
      destruct (IH _ _ _ _ _ _ Hrun) as (Hev & calls & Hinv & Hall & Hout).
      split; [eapply evolves_trans; eauto|].
      exists (call :: calls). split; [|split].
      * rewrite Hinv, Hi5, <- app_assoc. reflexivity.
      * constructor; assumption.
      * assert (Hkeys : forall x,
                  In x (map fst (map_set (node_id nodeConfig) outputData res))
                  <-> In x (map fst res) \/ x = nodeId).
        { intros x. rewrite map_set_keys_iff, Hid. tauto. }
        destruct exit as [|n m|m]; simpl in *.
        -- destruct Hout as [Hc Hk]. split; [now rewrite Hc|].
           intros x. rewrite Hk, Hkeys. intuition (subst; auto).
        -- destruct Hout as (done & later & Ho & Hc & Hk & Hs).
           exists (nodeId :: done), later. split; [now rewrite Ho|]. split; [|split].
           ++ simpl. destruct Hc as [Hc|Hc]; rewrite Hc; auto.
           ++ intros x. rewrite Hk, Hkeys. simpl. intuition (subst; auto).
           ++ intros e He. destruct (evolves_some _ _ _ _ Hev5 He) as (e5 & He5).
              eapply Hs; eauto.
        -- exact I.
    + inversion Hrun; subst. split.
      * eapply evolves_trans; [exact Hev4 | apply evolves_fail_node].
      * exists [call]. rewrite invoked_fail_node, Hi4.
        split; [reflexivity|]. split; [constructor; auto|].
        exists [], rest. split; [reflexivity|]. split; [now left|].
        split; [intros x; simpl; tauto|].
        intros e He. destruct (evolves_some _ _ _ _ Hev4 He) as (e4 & He4).
        eapply status_fail_node; eauto.
Qed.

(** ** The whole run *)

Lemma nodup_app_disjoint (l1 l2 : list string) x :
  NoDup (l1 ++ l2) -> In x l1 -> In x l2 -> False.
Proof.
  induction l1 as [|y l1 IH]; simpl; intros Hnd H1 H2; [contradiction|].
  inversion Hnd as [|? ? Hy Hnd']; subst.
  destruct H1 as [->|H1].
  - apply Hy. apply in_or_app. now right.
  - now apply IH.
Qed.



Lemma evolves_pre E wf id w :
  evolves id w
    (addLog E id info ("Executing workflow: " ^^ wf_name wf) None
       (addLog E id info "--- Workflow Starting ---" None w))
  /\ invoked
       (addLog E id info ("Executing workflow: " ^^ wf_name wf) None
          (addLog E id info "--- Workflow Starting ---" None w))
     = invoked w.
Proof.
  split.
  - eapply evolves_trans; apply evolves_addLog.
  - now rewrite !invoked_addLog.
Qed.

(** A run that cannot be scheduled calls no executor and marks the
    execution failed without touching its results. *)
Lemma unscheduled_run E wf id stops w e m :
  getExecutionOrder (wf_nodes wf) (wf_connections wf) = Throw m ->
  getExecution id (store w) = Some e ->
  invoked (executeWorkflow E wf id stops w) = invoked w
  /\ exists e', getExecution id (store (executeWorkflow E wf id stops w)) = Some e'
       /\ ex_status e' = failed /\ ex_results e' = ex_results e.
Proof.
  intros Hthrow He. unfold executeWorkflow, executeWorkflow_trace.
  rewrite Hthrow. cbn [fst].
  destruct (evolves_pre E wf id w) as [Hev Hinv].
  set (w2 := addLog E id info _ None (addLog E id info _ None w)) in *.
  split; [now rewrite invoked_fail_workflow|].
  destruct (evolves_some _ _ _ _ Hev He) as (e2 & He2).
  pose proof (status_fail_workflow E id m w2 e2 He2) as Hs.
  destruct (evolves_trans _ _ _ _ Hev (evolves_fail_workflow E id m w2) e He)
    as (e' & He' & Hr & _).
  exists e'. split; [assumption|]. split; [|assumption].
  unfold status_of in Hs. rewrite He' in Hs. simpl in Hs. congruence.
Qed.

(** The calls of a whole run. *)
Lemma run_calls E wf id stops w :
  exists calls,
    invoked (executeWorkflow E wf id stops w) = invoked w ++ calls
    /\ Forall (call_gathered (wf_connections wf)) calls.
Proof.
  unfold executeWorkflow, executeWorkflow_trace.
  destruct (evolves_pre E wf id w) as [_ Hinv].
  set (w2 := addLog E id info _ None (addLog E id info _ None w)) in *.
  destruct (getExecutionOrder (wf_nodes wf) (wf_connections wf)) as [order|m].
  - set (w3 := addLog E id info _ None w2).
    assert (Hi3 : invoked w3 = invoked w)
      by (unfold w3; now rewrite invoked_addLog).
    destruct (run_nodes E wf id stops 0 order [] w3) as [[w4 res] exit] eqn:Hrun.
    destruct (run_nodes_spec _ _ _ _ _ _ _ _ _ _ _ Hrun)
      as (_ & calls & Hc & Hall & _).
    exists calls. split; [|assumption].
    destruct exit; cbn [fst].
    + unfold finish_workflow. simpl. rewrite invoked_addLog.
      now rewrite Hc, Hi3.
    + now rewrite Hc, Hi3.
    + rewrite invoked_fail_workflow. now rewrite Hc, Hi3.
  - exists []. cbn [fst]. rewrite invoked_fail_workflow, app_nil_r.
    split; [assumption | constructor].
Qed.

(** A run whose nodes all succeed ends [completed] and stores the local
    result map, whatever stop requests were served on the way. *)
Lemma finished_run_completed E wf id stops w e w' res :
  getExecution id (store w) = Some e ->
  executeWorkflow_trace E wf id stops w = (w', res, Some Finished) ->
  exists e', getExecution id (store w') = Some e'
    /\ ex_status e' = completed /\ ex_results e' = Some res.
Proof.
  intros He Hrun. unfold executeWorkflow_trace in Hrun.
  destruct (evolves_pre E wf id w) as [Hev2 _].
  set (w2 := addLog E id info _ None (addLog E id info _ None w)) in *.
  destruct (getExecutionOrder (wf_nodes wf) (wf_connections wf)) as [order|m];
    [|discriminate].
  set (w3 := addLog E id info _ None w2) in *.
  assert (Hev3 : evolves id w w3) by (unfold w3; evolve).
  destruct (run_nodes E wf id stops 0 order [] w3) as [[w4 res4] exit] eqn:Hloop.
  destruct exit; inversion Hrun; subst; clear Hrun.
  destruct (run_nodes_spec _ _ _ _ _ _ _ _ _ _ _ Hloop) as (Hev4 & _).
  assert (Hev5 : evolves id w
            (addLog E id info "--- Workflow Finished Successfully ---" None w4))
    by evolve.
  destruct (evolves_some _ _ _ _ Hev5 He) as (e5 & He5).
  unfold finish_workflow. simpl. rewrite getExecution_update.
  simpl in He5. rewrite He5. simpl. eauto.
Qed.

(** ** The HTTP step *)




Lemma FetchApiNode_run_unfold E inputData params :
  FetchApiNode_run E inputData params
  = if negb (truthy (get_prop (VObj params) "url"))
    then (Throw missing_url_message, [])
    else
      match param_or params "method" (VStr "GET") with
      | VStr m =>
          match axios E (fetch_config params m) with
          | Resolved response =>
              (Ok [VObj [("statusCode", VNum (resp_status response));
                         ("headers", resp_headers response);
                         ("data", resp_data response);
                         ("inputData", js_or (first_item inputData) empty_object)]],
               [fetch_config params m])
          | Rejected err =>
              (Throw (fetch_error_message err), [fetch_config params m])
          end
      | _ =>
          (Throw (setup_failure_message
                    (type_error_message E "toLowerCase"
                       (param_or params "method" (VStr "GET")))), [])
      end.
Proof. reflexivity. Qed.

(** ** Placeholders *)




Lemma string_drop_append (a b : string) :
  string_drop (String.length a) (a ^^ b) = b.
Proof. induction a as [|x a IH]; simpl; auto. Qed.



Lemma span_body_free : forall p rest,
  free_of "}" p = true ->
  span_body (p ^^ String "}" rest) = (p, String "}" rest).
Proof.
  induction p as [|c p IH]; intros rest Hp; simpl.
  - reflexivity.
  - simpl in Hp. apply andb_true_iff in Hp. destruct Hp as [Hc Hp].
    apply negb_true_iff in Hc. rewrite Hc, (IH rest Hp). reflexivity.
Qed.


Lemma string_drop_append_plus (a b : string) k :
  string_drop (String.length a + k) (a ^^ b) = string_drop k b.
Proof. induction a as [|x a IH]; simpl; auto. Qed.

Lemma string_drop_match (body rest : string) :
  string_drop (4 + String.length body) ("{{" ^^ body ^^ "}}" ^^ rest) = rest.
Proof.
  replace (4 + String.length body) with (S (S (String.length body + 2))) by lia.
  cbn [String.append string_drop]. now rewrite string_drop_append_plus.
Qed.


Lemma match_placeholder_hit path post :
  path <> EmptyString -> free_of "}" path = true ->
  match_placeholder ("{{" ^^ path ^^ "}}" ^^ post)
  = Some (path, 4 + String.length path).
Proof.
  intros Hne Hfree. cbn [String.append]. unfold match_placeholder.
  cbn [Ascii.eqb Bool.eqb andb].
  change (path ^^ String "}" (String "}" post))
    with (path ^^ String "}" (String "}" post)).
  rewrite (span_body_free path (String "}" post) Hfree). cbn [fst snd].
  destruct (String.eqb_spec path EmptyString) as [->|_]; [congruence|].
  reflexivity.
Qed.

Lemma match_placeholder_miss c s :
  Ascii.eqb c "{" = false -> match_placeholder (String c s) = None.
Proof.
  intros H. unfold match_placeholder. destruct s; [reflexivity|].
  now rewrite H.
Qed.

(** A prefix without an opening brace is copied. *)
Lemma replace_prefix callback : forall pre s,
  free_of "{" pre = true ->
  replace_matches match_placeholder callback 0 (pre ^^ s)
  = pre ^^ replace_matches match_placeholder callback 0 s.
Proof.
  induction pre as [|c pre IH]; intros s Hpre; [reflexivity|].
  simpl in Hpre. apply andb_true_iff in Hpre. destruct Hpre as [Hc Hpre].
  apply negb_true_iff in Hc.
  cbn [String.append replace_matches].
  rewrite (match_placeholder_miss c (pre ^^ s) Hc). now rewrite IH.
Qed.




(** *** Replacement with a callback that can fail *)

Lemma replace_r_skip matcher callback : forall s k,
  replace_matches_r matcher callback k s
  = replace_matches_r matcher callback 0 (string_drop k s).
Proof.
  induction s as [|c s IH]; intros k.
  - destruct k; reflexivity.
  - destruct k as [|k]; [reflexivity|]. simpl. apply IH.
Qed.


Lemma replace_r_prefix callback : forall pre s,
  free_of "{" pre = true ->
  replace_matches_r match_placeholder callback 0 (pre ^^ s)
  = map_ok (String.append pre) (replace_matches_r match_placeholder callback 0 s).
Proof.
  induction pre as [|c pre IH]; intros s Hpre.
  - simpl. destruct (replace_matches_r _ _ 0 s); reflexivity.
  - simpl in Hpre. apply andb_true_iff in Hpre. destruct Hpre as [Hc Hpre].
    apply negb_true_iff in Hc.
    cbn [String.append replace_matches_r].
    rewrite (match_placeholder_miss c (pre ^^ s) Hc), (IH s Hpre).
    destruct (replace_matches_r _ _ 0 s); reflexivity.
Qed.

Lemma replace_r_hit matcher callback s capture len :
  matcher s = Some (capture, len) -> len = 4 + String.length capture ->
  s <> EmptyString ->
  replace_matches_r matcher callback 0 s
  = match callback capture with
    | Throw m => Throw m
    | Ok text =>
        map_ok (String.append text)
          (replace_matches_r matcher callback 0 (string_drop len s))
    end.
Proof.
  intros Hm Hlen Hs. destruct s as [|c s]; [congruence|].
  cbn [replace_matches_r]. rewrite Hm, replace_r_skip. subst len.
  destruct (callback capture); [|reflexivity].
  change (string_drop (4 + String.length capture) (String c s))
    with (string_drop (4 + String.length capture - 1) s).
  destruct (replace_matches_r _ _ 0 _); reflexivity.
Qed.

Lemma replace_r_plain callback : forall s,
  free_of "{" s = true ->
  replace_matches_r match_placeholder callback 0 s = Ok s.
Proof.
  induction s as [|c s IH]; intros Hs; [reflexivity|].
  simpl in Hs. apply andb_true_iff in Hs. destruct Hs as [Hc Hs].
  apply negb_true_iff in Hc.
  cbn [replace_matches_r]. rewrite (match_placeholder_miss c s Hc).
  now rewrite IH.
Qed.

(** The first placeholder of a condition is replaced by what the callback
    gives for its path; the text before it is kept, the text after it is
    substituted in the same way. *)
Lemma substitute_placeholder E pre path post data :
  free_of "{" pre = true -> path <> EmptyString -> free_of "}" path = true ->
  substitute_condition E (pre ^^ "{{" ^^ path ^^ "}}" ^^ post) data
  = match render_json E data path with
    | Throw m => Throw m
    | Ok text =>
        map_ok (fun rest => pre ^^ text ^^ rest) (substitute_condition E post data)
    end.
Proof.
  intros Hpre Hne Hfree. unfold substitute_condition.
  rewrite replace_r_prefix by assumption.
  rewrite (replace_r_hit _ _ _ path (4 + String.length path))
    by (auto using match_placeholder_hit; discriminate).
  rewrite string_drop_match.
  destruct (render_json E data path); [|reflexivity].
  destruct (replace_matches_r _ _ 0 post); reflexivity.
Qed.


(** The branch step on a condition given as a string. *)
Lemma IfNode_execute_string E now inputData condition :
  IfNode_execute E now inputData [("condition", VStr condition)]
  = match substitute_condition E condition
            (js_or (first_item inputData) empty_object) with
    | Throw m => Throw (condition_error_message condition m)
    | Ok evaluableCondition =>
        match js_eval E
                {| scope_inputData := inputData;
                   scope_params := [("condition", VStr condition)];
                   scope_condition := condition;
                   scope_data := js_or (first_item inputData) empty_object |}
                evaluableCondition with
        | Returns r =>
            Ok [VObj [("conditionResult", VBool (truthy (ev_value r)));
                      ("conditionExpression", VStr condition);
                      ("inputData", ev_data r);
                      ("outputPath",
                       VStr (if truthy (ev_value r) then "true" else "false"))]]
        | Raises m => Throw (condition_error_message condition m)
        | RaisesUnreadable m => Throw m
        end
    end.
Proof. reflexivity. Qed.

(** An order is returned only for node lists without repeated ids. *)
Lemma getExecutionOrder_ok_unique nodes conns order :
  getExecutionOrder nodes conns = Ok order -> NoDup (ids nodes).
Proof.
  intros Hok.
  destruct (getExecutionOrder_ok nodes conns order Hok) as (Hknown & Hnd & _ & Hlen).
  destruct (scheduler_run nodes conns Hknown) as (o & deg & Hinv & _ & _ & Hget).
  rewrite Hget in Hok.
  destruct (Nat.eqb_spec (List.length o) (List.length nodes)); [|discriminate].
  inversion Hok; subst o.
  destruct (graph_keys_spec nodes) as (Hkn & Hin & Hkl & _).
  destruct (order_nodup _ _ _ _ Hinv) as [_ Hoi].
  apply NoDup_incl_NoDup with (l := graph_keys nodes); auto.
  - unfold ids. rewrite length_map.
    assert (List.length order <= List.length (graph_keys nodes))
      by (apply NoDup_incl_length; auto).
    lia.
  - intros x Hx. now apply Hin.
Qed.

(** *** The earlier log node *)





(** ** The model on small inputs *)

Example stringify_nested :
  JSON_stringify
    (VArr [VObj [("a", VNum 1); ("b", VArr [VUndefined]); ("c", VStr "x");
                 ("d", VObj [("e", VUndefined)])]])
  = Some ("[{" ^^ quote_json "a" ^^ ":1," ^^ quote_json "b" ^^ ":[null],"
          ^^ quote_json "c" ^^ ":" ^^ quote_json "x" ^^ ","
          ^^ quote_json "d" ^^ ":{}}]").
Proof. reflexivity. Qed.

Example stringify_escapes :
  JSON_stringify (VStr (String quote_char (String backslash newline)))
  = Some (String quote_char
            (String backslash (String quote_char
               (String backslash (String backslash
                  (String backslash (String "n"
                     (String quote_char EmptyString)))))))).
Proof. reflexivity. Qed.

Example lookup_nested :
  lookup_path ref_env "a.b" (VObj [("a", VObj [("b", VNum 5)])]) = Reached (VNum 5)
  /\ lookup_path ref_env "a.c" (VObj [("a", VObj [("b", VNum 5)])])
     = Reached VUndefined
  /\ lookup_path ref_env "a.b.c" (VObj [("a", VObj [("b", VNum 5)])])
     = Reached VUndefined
  /\ lookup_path ref_env "items.1" (VObj [("items", VArr [VNum 7; VNum 8])])
     = Reached (VNum 8)
  /\ lookup_path ref_env "items.length" (VObj [("items", VArr [VNum 7; VNum 8])])
     = Reached (VNum 2).
Proof. repeat split; reflexivity. Qed.

Example substitute_mixed :
  substitute_condition ref_env "{{a.c}} === 5 {{a}} {{ {{a.b}} }} {{}}"
    (VObj [("a", VObj [("b", VNum 5)])])
  = Ok ("undefined === 5 {" ^^ quote_json "b" ^^ ":5} undefined }} {{}}").
Proof. reflexivity. Qed.

Example legacy_format :
  Legacy.format_message ref_env "x {{a.b}} {{a.c}} {{}} {{a}}"
    (VObj [("a", VObj [("b", VNum 5)])])
  = Ok "x 5 {{a.c}} {{}} [object Object]".
Proof. reflexivity. Qed.

Example eval_fragment_samples :
  eval_fragment "5 === 5" = Some (VBool true)
  /\ eval_fragment "undefined === 5" = Some (VBool false)
  /\ eval_fragment "-3 < 2" = Some (VBool true)
  /\ eval_fragment "05 === 5" = None
  /\ eval_fragment "alert(1)" = None.
Proof. repeat split; reflexivity. Qed.

Example scheduler_samples :
  getExecutionOrder (wf_nodes wf_chain) (wf_connections wf_chain)
  = Ok ["trigger"; "fetch"; "log"]
  /\ getExecutionOrder (wf_nodes wf_loop) (wf_connections wf_loop)
     = Throw cycle_message
  /\ getExecutionOrder (wf_nodes wf_loop_dangling) (wf_connections wf_loop_dangling)
     = Throw "Invalid connection: a -> ghost"
  /\ getExecutionOrder [sample_node "a" "StartNode" []; sample_node "a" "StartNode" []] []
     = Throw cycle_message.
Proof. repeat split; reflexivity. Qed.
(* ================================================================== *)
(** * Further properties *)

(** ** Deleting from a map *)

Section JsMapDelete.

Context {V : Type}.

Lemma map_get_delete_same (k : string) (m : jsmap V) :
  map_get k (map_delete k m) = None.
Proof.
  unfold map_delete. induction m as [|[k0 v0] m IH]; simpl; auto.
  destruct (String.eqb_spec k0 k) as [->|Hne]; simpl; auto.
  destruct (String.eqb_spec k0 k); [contradiction | assumption].
Qed.

Lemma map_get_delete_other (k k' : string) (m : jsmap V) :
  k <> k' -> map_get k' (map_delete k m) = map_get k' m.
Proof.
  intros Hne. unfold map_delete. induction m as [|[k0 v0] m IH]; simpl; auto.
  destruct (String.eqb_spec k0 k) as [->|Hk0]; simpl.
  - destruct (String.eqb_spec k k'); [contradiction | assumption].
  - now rewrite IH.
Qed.

Lemma map_delete_absent (k : string) (m : jsmap V) :
  ~ In k (map fst m) -> map_delete k m = m.
Proof.
  unfold map_delete. induction m as [|[k0 v0] m IH]; simpl; auto.
  intros Hnin. destruct (String.eqb_spec k0 k) as [->|Hne]; simpl.
  - tauto.
  - f_equal. apply IH. tauto.
Qed.

Lemma map_set_snoc (k : string) (v : V) (m : jsmap V) :
  ~ In k (map fst m) -> map_set k v m = m ++ [(k, v)].
Proof.
  induction m as [|[k0 v0] m IH]; simpl; auto.
  intros Hnin. destruct (String.eqb_spec k0 k) as [->|Hne].
  - tauto.
  - f_equal. apply IH. tauto.
Qed.

Lemma map_delete_set_new (k : string) (v : V) (m : jsmap V) :
  ~ In k (map fst m) -> map_delete k (map_set k v m) = m.
Proof.
  intros Hnin. rewrite map_set_snoc by assumption.
  unfold map_delete. rewrite filter_app. simpl. rewrite String.eqb_refl. simpl.
  rewrite app_nil_r. now apply map_delete_absent.
Qed.

Lemma map_delete_keys (k : string) (m : jsmap V) :
  map fst (map_delete k m) = filter (fun x => negb (String.eqb x k)) (map fst m).
Proof.
  unfold map_delete. induction m as [|[k0 v0] m IH]; simpl; auto.
  destruct (String.eqb k0 k); simpl; now rewrite IH.
Qed.

Lemma map_has_false (k : string) (m : jsmap V) :
  map_has k m = false <-> ~ In k (map fst m).
Proof.
  rewrite <- map_has_keys. destruct (map_has k m); split; congruence.
Qed.

End JsMapDelete.

(** ** What a step of the engine does to the store *)

Lemma same_run_refl e : same_run e e.
Proof. repeat split; auto. exists []. now rewrite app_nil_r. Qed.

Lemma same_run_trans e1 e2 e3 : same_run e1 e2 -> same_run e2 e3 -> same_run e1 e3.
Proof.
  intros (A1 & A2 & A3 & m1 & A4) (B1 & B2 & B3 & m2 & B4).
  repeat split; try congruence.
  exists (m1 ++ m2). rewrite B4, A4. now rewrite app_assoc.
Qed.

Lemma entry_step_refl id p : entry_step id p p.
Proof. split; [reflexivity|]. split; [reflexivity | apply same_run_refl]. Qed.

Lemma run_step_refl id st : run_step id st st.
Proof. induction st; constructor; auto using entry_step_refl. Qed.

Lemma run_step_trans id st1 st2 st3 :
  run_step id st1 st2 -> run_step id st2 st3 -> run_step id st1 st3.
Proof.
  intros H12. revert st3. induction H12 as [|p1 p2 l1 l2 Hp H12 IH]; intros st3 H23.
  - inversion H23. constructor.
  - inversion H23 as [|? p3 ? l3 Hp' H23']; subst. constructor; [|now apply IH].
    destruct Hp as (F1 & O1 & S1). destruct Hp' as (F2 & O2 & S2).
    split; [congruence|]. split.
    + intros Hne. rewrite O2 by congruence. now apply O1.
    + eapply same_run_trans; eauto.
Qed.

(** Writing a continuation of the stored record over it. *)
Lemma run_step_set id e e' (st : Storage) :
  map_get id st = Some e -> same_run e e' -> run_step id st (map_set id e' st).
Proof.
  induction st as [|[k0 v0] st IH]; simpl; [discriminate|].
  destruct (String.eqb_spec k0 id) as [->|Hne]; intros Hget Hs.
  - inversion Hget; subst. constructor; [|apply run_step_refl].
    split; [reflexivity|]. split; [simpl; congruence | exact Hs].
  - constructor; [apply entry_step_refl | now apply IH].
Qed.

(** An update that leaves the log alone or extends it. *)
Lemma run_step_update id u st :
  (forall e l, getExecution id st = Some e -> up_logs u = Some l ->
     exists more, l = ex_logs e ++ more) ->
  run_step id st (updateExecution id u st).
Proof.
  intros Hlogs. unfold updateExecution.
  destruct (map_get id st) as [e|] eqn:He; [|apply run_step_refl].
  eapply run_step_set; eauto.
  repeat split; simpl; auto.
  destruct (up_logs u) as [l|] eqn:Hl; simpl.
  - now apply (Hlogs e l).
  - exists []. now rewrite app_nil_r.
Qed.

Lemma run_step_quiet id u st :
  up_logs u = None -> run_step id st (updateExecution id u st).
Proof. intros Hl. apply run_step_update. intros e l _ H. congruence. Qed.

Lemma run_step_addLog E id level message nodeId w :
  run_step id (store w) (store (addLog E id level message nodeId w)).
Proof.
  unfold addLog. destruct (getExecution id (store w)) as [e|] eqn:He;
    [|apply run_step_refl].
  simpl. apply run_step_update. intros e0 l He0 Hl. simpl in Hl.
  inversion Hl; subst. exists [{| log_timestamp := now E w; log_level := level;
                                 log_message := message; log_nodeId := nodeId |}].
  congruence.
Qed.

Lemma run_step_mark_failed E id w :
  run_step id (store w) (store (mark_failed E id w)).
Proof. apply run_step_quiet. reflexivity. Qed.

Lemma run_step_stop_route E id w :
  run_step id (store w) (store (stop_route E id w)).
Proof. apply run_step_quiet. reflexivity. Qed.

Lemma run_step_in_flight E id (b : bool) w :
  run_step id (store w) (store (while_in_flight E id b w)).
Proof. destruct b; [apply run_step_stop_route | apply run_step_refl]. Qed.

Lemma run_step_fail_node E id n m w :
  run_step id (store w) (store (fail_node E id n m w)).
Proof.
  unfold fail_node.
  eapply run_step_trans; [apply run_step_addLog | apply run_step_mark_failed].
Qed.

Lemma run_step_fail_workflow E id m w :
  run_step id (store w) (store (fail_workflow E id m w)).
Proof.
  unfold fail_workflow.
  eapply run_step_trans; [apply run_step_addLog | apply run_step_mark_failed].
Qed.

Lemma run_step_finish E id res w :
  run_step id (store w) (store (finish_workflow E id res w)).
Proof.
  unfold finish_workflow.
  eapply run_step_trans; [apply run_step_addLog|].
  apply run_step_quiet. reflexivity.
Qed.



Lemma run_step_same id st st' e :
  run_step id st st' -> getExecution id st = Some e ->
  exists e', getExecution id st' = Some e' /\ same_run e e'.
Proof.
  unfold getExecution.
  induction 1 as [|[k v] [k' v'] l l' (Hf & _ & Hs) _ IH]; simpl; [discriminate|].
  simpl in *. subst k'.
  destruct (String.eqb_spec k id) as [->|Hk]; [|exact IH].
  intros H. inversion H; subst. eauto.
Qed.


(** The records listed for a workflow keep their place. *)
Lemma run_step_listing id st st' workflowId :
  run_step id st st' ->
  Forall2 same_run (getExecutionsByWorkflow workflowId st)
                   (getExecutionsByWorkflow workflowId st').
Proof.
  unfold getExecutionsByWorkflow.
  induction 1 as [|[k v] [k' v'] l l' (Hf & _ & Hs) _ IH]; simpl; [constructor|].
  simpl in *. destruct Hs as (H1 & H2 & H3 & H4). rewrite H2.
  destruct (String.eqb (ex_workflowId v) workflowId); [|exact IH].
  constructor; [|exact IH]. repeat split; auto.
Qed.

(** The loop over the order, and the whole run. *)
Lemma run_step_loop E wf id stops : forall order k res w,
  run_step id (store w)
    (store (fst (fst (run_nodes E wf id stops k order res w)))).
Proof.
  induction order as [|nodeId rest IH]; intros k res w.
  - apply run_step_refl.
  - cbn [run_nodes].
    set (w1 := with_store _ w).
    assert (H1 : run_step id (store w) (store w1))
      by (apply run_step_quiet; reflexivity).
    destruct (find _ (wf_nodes wf)) as [nodeConfig|]; [|exact H1].
    set (w2 := addLog E id info _ (Some nodeId) w1).
    assert (H2 : run_step id (store w) (store w2)).
    { eapply run_step_trans; [exact H1 | apply run_step_addLog]. }
    destruct (map_get (node_type nodeConfig) nodeRegistry) as [node|].
    2:{ cbn [fst]. eapply run_step_trans; [exact H2 | apply run_step_fail_node]. }
    set (w3 := record_call _ w2).
    set (w4 := while_in_flight E id (stops k) (tick w3)).
    assert (H4 : run_step id (store w) (store w4)).
    { eapply run_step_trans; [exact H2|].
      apply (run_step_in_flight E id (stops k) (tick w3)). }
    destruct (node E (now E w3) _ _) as [outputData|m].
    + eapply run_step_trans; [|apply IH].
      eapply run_step_trans; [exact H4 | apply run_step_addLog].
    + cbn [fst]. eapply run_step_trans; [exact H4 | apply run_step_fail_node].
Qed.

Lemma run_step_run E wf id stops w :
  run_step id (store w) (store (executeWorkflow E wf id stops w)).
Proof.
  unfold executeWorkflow, executeWorkflow_trace.
  set (w2 := addLog E id info _ None (addLog E id info _ None w)).
  assert (H2 : run_step id (store w) (store w2)).
  { eapply run_step_trans; apply run_step_addLog. }
  destruct (getExecutionOrder (wf_nodes wf) (wf_connections wf)) as [order|m].
  - set (w3 := addLog E id info _ None w2).
    assert (H3 : run_step id (store w) (store w3)).
    { eapply run_step_trans; [exact H2 | apply run_step_addLog]. }
    pose proof (run_step_loop E wf id stops order 0 [] w3) as H4.
    destruct (run_nodes E wf id stops 0 order [] w3) as [[w4 res] exit].
    cbn [fst] in H4.
    assert (H5 : run_step id (store w) (store w4))
      by (eapply run_step_trans; eauto).
    destruct exit; cbn [fst].
    + eapply run_step_trans; [exact H5 | apply run_step_finish].
    + exact H5.
    + eapply run_step_trans; [exact H5 | apply run_step_fail_workflow].
  - cbn [fst]. eapply run_step_trans; [exact H2 | apply run_step_fail_workflow].
Qed.

(** ** How a run ends *)

Lemma mark_failed_closed E id w e :
  getExecution id (store w) = Some e ->
  exists e', getExecution id (store (mark_failed E id w)) = Some e'
    /\ ex_status e' = failed /\ closed_record e'.
Proof.
  intros He. unfold mark_failed. simpl. rewrite getExecution_update, He. simpl.
  eexists. split; [reflexivity|]. split; [reflexivity|].
  split; [now right|]. split; [eexists|]; reflexivity.
Qed.

Lemma fail_node_closed E id n m w e :
  getExecution id (store w) = Some e ->
  exists e', getExecution id (store (fail_node E id n m w)) = Some e'
    /\ ex_status e' = failed /\ closed_record e'.
Proof.
  intros He. unfold fail_node.
  destruct (run_step_same _ _ _ _
              (run_step_addLog E id error ("ERROR: " ^^ m) (Some n) w) He)
    as (e1 & He1 & _).
  eapply mark_failed_closed; eauto.
Qed.

Lemma fail_workflow_closed E id m w e :
  getExecution id (store w) = Some e ->
  exists e', getExecution id (store (fail_workflow E id m w)) = Some e'
    /\ ex_status e' = failed /\ closed_record e'.
Proof.
  intros He. unfold fail_workflow.
  destruct (run_step_same _ _ _ _
              (run_step_addLog E id error
                 ("Workflow execution failed: " ^^ m) None w) He)
    as (e1 & He1 & _).
  eapply mark_failed_closed; eauto.
Qed.

Lemma finish_workflow_closed E id res w e :
  getExecution id (store w) = Some e ->
  exists e', getExecution id (store (finish_workflow E id res w)) = Some e'
    /\ ex_status e' = completed /\ ex_results e' = Some res /\ closed_record e'.
Proof.
  intros He. unfold finish_workflow.
  destruct (run_step_same _ _ _ _
              (run_step_addLog E id info
                 "--- Workflow Finished Successfully ---" None w) He)
    as (e1 & He1 & _).
  simpl. rewrite getExecution_update, He1. simpl.
  eexists. split; [reflexivity|]. split; [reflexivity|]. split; [reflexivity|].
  split; [now left|]. split; [eexists|]; reflexivity.
Qed.

(** A loop that stops at a failing node leaves the record closed. *)
Lemma run_nodes_failed_closed E wf id stops : forall order k res w w' res' n m e,
  getExecution id (store w) = Some e ->
  run_nodes E wf id stops k order res w = (w', res', NodeFailed n m) ->
  exists e', getExecution id (store w') = Some e'
    /\ ex_status e' = failed /\ closed_record e'.
Proof.
  induction order as [|nodeId rest IH]; intros k res w w' res' n m e He Hrun.
  - discriminate.
  - cbn [run_nodes] in Hrun.
    set (w1 := with_store _ w) in *.
    assert (H1 : run_step id (store w) (store w1))
      by (apply run_step_quiet; reflexivity).
    destruct (find _ (wf_nodes wf)) as [nodeConfig|]; [|discriminate].
    set (w2 := addLog E id info _ (Some nodeId) w1) in *.
    assert (H2 : run_step id (store w) (store w2)).
    { eapply run_step_trans; [exact H1 | apply run_step_addLog]. }
    destruct (map_get (node_type nodeConfig) nodeRegistry) as [node|].
    2:{ inversion Hrun; subst.
        destruct (run_step_same _ _ _ _ H2 He) as (e2 & He2 & _).
        eapply fail_node_closed; eauto. }
    set (w3 := record_call _ w2) in *.
    set (w4 := while_in_flight E id (stops k) (tick w3)) in *.
    assert (H4 : run_step id (store w) (store w4)).
    { eapply run_step_trans; [exact H2|].
      apply (run_step_in_flight E id (stops k) (tick w3)). }
    destruct (run_step_same _ _ _ _ H4 He) as (e4 & He4 & _).
    destruct (node E (now E w3) _ _) as [outputData|m0].
    + set (w5 := addLog E id info _ (Some nodeId) w4) in *.
      destruct (run_step_same _ _ _ _
                  (run_step_addLog E id info
                     ("Output: "
                      ^^ or_undefined (JSON_stringify_pretty (VArr outputData)))
                     (Some nodeId) w4) He4)
        as (e5 & He5 & _).
      eapply IH; eauto.
    + inversion Hrun; subst. eapply fail_node_closed; eauto.
Qed.

(** Every run closes the record of its execution. *)
Lemma run_closed (E : Env) (wf : Workflow)
    (id : string) (stops : nat -> bool) (w : World) (e : Execution)
    (Hrecord : getExecution id (store w) = Some e) :
  exists e',
    getExecution id (store (executeWorkflow E wf id stops w)) = Some e'
    /\ closed_record e'.
Proof.
  unfold executeWorkflow, executeWorkflow_trace.
  set (w2 := addLog E id info _ None (addLog E id info _ None w)).
  assert (H2 : run_step id (store w) (store w2)).
  { eapply run_step_trans; apply run_step_addLog. }
  destruct (run_step_same _ _ _ _ H2 Hrecord) as (e2 & He2 & _).
  destruct (getExecutionOrder (wf_nodes wf) (wf_connections wf))
    as [order|m].
  - set (w3 := addLog E id info _ None w2).
    destruct (run_step_same _ _ _ _
                (run_step_addLog E id info
                   ("Execution order: " ^^ String.concat " -> " order) None w2) He2)
      as (e3 & He3 & _).
    fold w3 in He3.
    pose proof (run_step_loop E wf id stops order 0 [] w3) as H4.
    destruct (run_nodes E wf id stops 0 order [] w3)
      as [[w4 res] exit] eqn:Hloop.
    cbn [fst] in H4.
    destruct (run_step_same _ _ _ _ H4 He3) as (e4 & He4 & _).
    destruct exit as [|n m|m]; cbn [fst].
    + destruct (finish_workflow_closed E id res w4 e4 He4)
        as (e' & He' & _ & _ & Hc).
      exists e'. split; [exact He' | exact Hc].
    + destruct (run_nodes_failed_closed _ _ _ _ _ _ _ _ _ _ _ _ _ He3 Hloop)
        as (e' & He' & _ & Hc).
      exists e'. split; [exact He' | exact Hc].
    + destruct (fail_workflow_closed E id m w4 e4 He4)
        as (e' & He' & _ & Hc).
      exists e'. split; [exact He' | exact Hc].
  - cbn [fst].
    destruct (fail_workflow_closed E id m w2 e2 He2)
      as (e' & He' & _ & Hc).
    exists e'. split; [exact He' | exact Hc].
Qed.


(** ** The results and the calls of the loop *)

(** A loop that finishes adds one entry per node, in the order of the
    nodes. *)
Lemma run_nodes_finished_keys E wf id stops : forall order k res w w' res',
  run_nodes E wf id stops k order res w = (w', res', Finished) ->
  NoDup (map fst res ++ order) ->
  map fst res' = map fst res ++ order.
Proof.
  induction order as [|nodeId rest IH]; intros k res w w' res' Hrun Hnd.
  - simpl in Hrun. inversion Hrun; subst. now rewrite app_nil_r.
  - cbn [run_nodes] in Hrun.
    destruct (find _ (wf_nodes wf)) as [nodeConfig|] eqn:Hfind; [|discriminate].
    pose proof (find_node_id _ _ _ Hfind) as Hid.
    destruct (map_get (node_type nodeConfig) nodeRegistry) as [node|];
      [|discriminate].
    destruct (node E _ _ _) as [outputData|m0]; [|discriminate].
    assert (Hnew : ~ In nodeId (map fst res)).
    { intros Hin. apply NoDup_remove_2 in Hnd. apply Hnd.
      apply in_or_app. now left. }
    assert (Hk : map fst (map_set (node_id nodeConfig) outputData res)
                 = map fst res ++ [nodeId]).
    { rewrite Hid. now apply map_set_keys_new. }
    rewrite (IH _ _ _ _ _ Hrun); rewrite Hk, <- app_assoc; [reflexivity|].
    exact Hnd.
Qed.

Lemma run_nodes_calls E wf id stops : forall order k res w w' res' exit,
  run_nodes E wf id stops k order res w = (w', res', exit) ->
  exists calls,
    invoked w' = invoked w ++ calls
    /\ Forall (call_placed order res) calls.
Proof.
  induction order as [|nodeId rest IH]; intros k res w w' res' exit Hrun.
  - simpl in Hrun. inversion Hrun; subst. exists []. rewrite app_nil_r.
    split; [reflexivity | constructor].
  - cbn [run_nodes] in Hrun.
    set (w1 := with_store _ w) in *.
    destruct (find _ (wf_nodes wf)) as [nodeConfig|] eqn:Hfind.
    2:{ inversion Hrun; subst. exists []. rewrite app_nil_r.
        split; [reflexivity | constructor]. }
    pose proof (find_node_id _ _ _ Hfind) as Hid.
    set (w2 := addLog E id info _ (Some nodeId) w1) in *.
    assert (Hi2 : invoked w2 = invoked w).
    { unfold w2. now rewrite invoked_addLog. }
    destruct (map_get (node_type nodeConfig) nodeRegistry) as [node|].
    2:{ inversion Hrun; subst. exists [].
        rewrite app_nil_r, invoked_fail_node.
        split; [assumption | constructor]. }
    set (call := {| inv_nodeId := nodeId; inv_type := node_type nodeConfig;
                    inv_input := gather_inputs (wf_connections wf) res nodeId;
                    inv_results := res;
                    inv_status := option_map ex_status (getExecution id (store w2)) |})
      in *.
    set (w3 := record_call call w2) in *.
    set (w4 := while_in_flight E id (stops k) (tick w3)) in *.
    assert (Hi4 : invoked w4 = invoked w ++ [call]).
    { unfold w4. rewrite invoked_in_flight. simpl. now rewrite Hi2. }
    assert (Hcall : call_placed (nodeId :: rest) res call).
    { exists [], rest. split; [reflexivity|]. intros x. simpl. tauto. }
    destruct (node E (now E w3) _ _) as [outputData|m0].
    + destruct (IH _ _ _ _ _ _ Hrun) as (calls & Hinv & Hall).
      exists (call :: calls). split.
      * rewrite Hinv, invoked_addLog, Hi4, <- app_assoc. reflexivity.
      * constructor; [exact Hcall|].
        eapply Forall_impl; [|exact Hall].
        intros i (done & later & Ho & Hk).
        exists (nodeId :: done), later. split; [now rewrite Ho|].
        intros x. rewrite Hk, map_set_keys_iff, Hid. simpl.
        intuition (subst; auto).
    + inversion Hrun; subst. exists [call]. rewrite invoked_fail_node.
      split; [exact Hi4 | constructor; [exact Hcall | constructor]].
Qed.

Lemma pos_in_prefix a : forall p s, pos a (p ++ s) < List.length p -> In a p.
Proof.
  induction p as [|y p IH]; intros s H; simpl in *; [lia|].
  destruct (String.eqb_spec a y) as [->|Hne]; [now left|].
  right. apply (IH s). lia.
Qed.

(** In an order without repetition, what stands before [b] is all there
    is before [b]. *)
Lemma before_in_prefix l done later a b :
  NoDup l -> l = done ++ b :: later -> before l a b -> In a done.
Proof.
  intros Hnd Hl Hb.
  pose proof (before_pos l a b Hnd Hb) as Hpos.
  assert (Hnb : ~ In b done).
  { subst l. intros Hin. apply (nodup_app_disjoint done (b :: later) b Hnd Hin).
    now left. }
  rewrite Hl in Hpos. rewrite (pos_skip b done later Hnb) in Hpos.
  now apply pos_in_prefix in Hpos.
Qed.

(** An order that is returned has every connection pointing forward. *)
Lemma ok_order_sorted nodes conns order :
  getExecutionOrder nodes conns = Ok order ->
  forall c, In c conns -> before order (conn_from c) (conn_to c).
Proof.
  intros Hok.
  destruct (getExecutionOrder_ok nodes conns order Hok) as (Hknown & Hnd & _ & Hlen).
  destruct (scheduler_run nodes conns Hknown) as (o & deg & Hinv & _ & _ & Hget).
  rewrite Hget in Hok.
  destruct (Nat.eqb_spec (List.length o) (List.length nodes)); [|discriminate].
  inversion Hok; subst o.
  destruct (graph_keys_spec nodes) as (Hkn & Hin & Hkl & _).
  destruct (order_nodup _ _ _ _ Hinv) as [_ Hoi].
  assert (Hall : incl (graph_keys nodes) order).
  { apply NoDup_length_incl; auto. lia. }
  intros c Hc. apply (inv_sorted _ _ _ _ _ _ Hinv c Hc).
  apply Hall. now apply (known_endpoints_keys nodes conns Hknown).
Qed.

Lemma ok_order_acyclic nodes conns order :
  getExecutionOrder nodes conns = Ok order -> acyclic conns.
Proof.
  intros Hok x Hx.
  destruct (getExecutionOrder_ok nodes conns order Hok) as (Hknown & _).
  destruct (cyclic_order nodes conns Hknown) as [_ Hthrow]; [now exists x|].
  congruence.
Qed.

(** In a list without repetition an element splits the list in one way. *)
Lemma nodup_split_unique (l1 l2 l1' l2' : list string) x :
  NoDup (l1 ++ x :: l2) -> l1 ++ x :: l2 = l1' ++ x :: l2' ->
  l1 = l1' /\ l2 = l2'.
Proof.
  revert l1'. induction l1 as [|y l1 IH]; intros l1' Hnd Heq.
  - destruct l1' as [|y' l1']; simpl in *.
    + inversion Heq. auto.
    + inversion Heq; subst. inversion Hnd as [|? ? Hx _]; subst.
      exfalso. apply Hx. apply in_or_app. right. now left.
  - destruct l1' as [|y' l1']; simpl in *.
    + inversion Heq; subst. inversion Hnd as [|? ? Hx _]; subst.
      exfalso. apply Hx. apply in_or_app. right. now left.
    + inversion Heq; subst. inversion Hnd as [|? ? _ Hnd']; subst.
      destruct (IH l1' Hnd' H1) as [-> ->]. auto.
Qed.

(** ** The log of a run *)

Lemma logs_addLog E id level message nodeId w l :
  logs_at id w = Some l ->
  exists entry,
    logs_at id (addLog E id level message nodeId w) = Some (l ++ [entry])
    /\ log_view entry = (level, nodeId, message).
Proof.
  unfold logs_at, addLog. intros Hl.
  destruct (getExecution id (store w)) as [e|] eqn:He; [|discriminate].
  simpl in Hl. inversion Hl; subst l.
  eexists. cbn [with_store tick store]. rewrite getExecution_update, He.
  split; reflexivity.
Qed.

Lemma logs_quiet id u w :
  up_logs u = None ->
  logs_at id (with_store (updateExecution id u) w) = logs_at id w.
Proof.
  intros Hu. unfold logs_at. cbn [with_store store].
  rewrite getExecution_update.
  destruct (getExecution id (store w)) as [e|]; [|reflexivity].
  simpl. now rewrite Hu.
Qed.

Lemma logs_mark_failed E id w : logs_at id (mark_failed E id w) = logs_at id w.
Proof. unfold mark_failed. now rewrite logs_quiet. Qed.

Lemma logs_in_flight E id (b : bool) w :
  logs_at id (while_in_flight E id b w) = logs_at id w.
Proof.
  destruct b; [|reflexivity]. unfold while_in_flight, stop_route.
  now rewrite logs_quiet.
Qed.

Lemma logs_fail_node E id n m w l :
  logs_at id w = Some l ->
  exists entry,
    logs_at id (fail_node E id n m w) = Some (l ++ [entry])
    /\ log_view entry = (error, Some n, "ERROR: " ^^ m).
Proof.
  intros Hl. unfold fail_node. rewrite logs_mark_failed.
  now apply logs_addLog.
Qed.

Lemma executing_message_found wf nodeId nodeConfig :
  find (fun n => String.eqb (node_id n) nodeId) (wf_nodes wf) = Some nodeConfig ->
  executing_message wf nodeId
  = "Executing Node: " ^^ node_id nodeConfig ^^ " (" ^^ node_type nodeConfig ^^ ")".
Proof. intros H. unfold executing_message. now rewrite H. Qed.

(** What the loop writes to the log. *)
Lemma run_nodes_log E wf id stops : forall order k res w w' res' exit l,
  logs_at id w = Some l ->
  run_nodes E wf id stops k order res w = (w', res', exit) ->
  exists entries,
    logs_at id w' = Some (l ++ entries)
    /\ match exit with
       | Finished =>
           exists outputs,
             List.length outputs = List.length order
             /\ map log_view entries = served_entries wf (combine order outputs)
       | NodeFailed n m =>
           exists done later outputs,
             order = done ++ n :: later
             /\ List.length outputs = List.length done
             /\ map log_view entries
                = served_entries wf (combine done outputs)
                  ++ failing_entries wf n m
       | Crashed _ => True
       end.
Proof.
  induction order as [|nodeId rest IH]; intros k res w w' res' exit l Hl Hrun.
  - simpl in Hrun. inversion Hrun; subst. exists []. rewrite app_nil_r.
    split; [assumption|]. exists []. split; reflexivity.
  - cbn [run_nodes] in Hrun.
    set (w1 := with_store _ w) in *.
    assert (Hl1 : logs_at id w1 = Some l)
      by (unfold w1; rewrite logs_quiet; [assumption | reflexivity]).
    destruct (find _ (wf_nodes wf)) as [nodeConfig|] eqn:Hfind.
    2:{ inversion Hrun; subst. exists []. rewrite app_nil_r. split; auto. }
    pose proof (executing_message_found _ _ _ Hfind) as Hmsg.
    set (w2 := addLog E id info _ (Some nodeId) w1) in *.
    destruct (logs_addLog E id info
                ("Executing Node: " ^^ node_id nodeConfig ^^ " ("
                 ^^ node_type nodeConfig ^^ ")") (Some nodeId) w1 l Hl1)
      as (e1 & Hl2 & Hv1).
    fold w2 in Hl2. rewrite <- Hmsg in Hv1.
    destruct (map_get (node_type nodeConfig) nodeRegistry) as [node|].
    2:{ inversion Hrun; subst.
        destruct (logs_fail_node E id nodeId
                    (unregistered_message (node_type nodeConfig)) w2 _ Hl2)
          as (e2 & Hl3 & Hv2).
        exists [e1; e2]. split; [now rewrite Hl3, <- app_assoc|].
        exists [], rest, []. split; [reflexivity|]. split; [reflexivity|].
        simpl. now rewrite Hv1, Hv2. }
    set (w3 := record_call _ w2) in *.
    set (w4 := while_in_flight E id (stops k) (tick w3)) in *.
    assert (Hl4 : logs_at id w4 = Some (l ++ [e1])).
    { unfold w4. rewrite logs_in_flight. exact Hl2. }
    destruct (node E (now E w3) _ _) as [outputData|m0].
    + set (text := or_undefined (JSON_stringify_pretty (VArr outputData))) in *.
      destruct (logs_addLog E id info ("Output: " ^^ text) (Some nodeId) w4 _ Hl4)
        as (e2 & Hl5 & Hv2).
      destruct (IH _ _ _ _ _ _ _ Hl5 Hrun) as (entries & Hl' & Hexit).
      exists (e1 :: e2 :: entries). split.
      * rewrite Hl', <- !app_assoc. reflexivity.
      * destruct exit as [|n m|m].
        -- destruct Hexit as (outputs & Hlen & Hview).
           exists (text :: outputs). split; [simpl; now rewrite Hlen|].
           simpl. now rewrite Hv1, Hv2, Hview.
        -- destruct Hexit as (done & later & outputs & Ho & Hlen & Hview).
           exists (nodeId :: done), later, (text :: outputs).
           split; [now rewrite Ho|]. split; [simpl; now rewrite Hlen|].
           simpl. now rewrite Hv1, Hv2, Hview.
        -- exact I.
    + inversion Hrun; subst.
      destruct (logs_fail_node E id nodeId m0 w4 _ Hl4) as (e2 & Hl5 & Hv2).
      exists [e1; e2]. split; [now rewrite Hl5, <- app_assoc|].
      exists [], rest, []. split; [reflexivity|]. split; [reflexivity|].
      simpl. now rewrite Hv1, Hv2.
Qed.

(** ** The calls of the loop run the executors *)




(** ** The server state *)

Lemma set_executions_same ms : set_executions (fun _ => executions ms) ms = ms.
Proof. now destruct ms. Qed.

Lemma with_world_same srv w :
  store w = executions (sv_storage srv) ->
  sv_storage (with_world srv w) = sv_storage srv.
Proof. intros H. simpl. rewrite H. apply set_executions_same. Qed.

(** ** The [while] loop of the scheduler ends on every input *)

Lemma positives_cons k d (m : jsmap jsnum) :
  positives ((k, d) :: m) = Nat.b2n (is_positive d) + positives m.
Proof. unfold positives. simpl. destruct (is_positive d); reflexivity. Qed.

(** Overwriting an entry trades its old sign for the new one. *)
Lemma positives_set k v (m : jsmap jsnum) :
  positives (map_set k v m)
  + Nat.b2n (match map_get k m with
             | Some old => is_positive old
             | None => false
             end)
  = positives m + Nat.b2n (is_positive v).
Proof.
  induction m as [|[k0 d0] m IH]; simpl.
  - rewrite positives_cons. unfold positives. simpl. lia.
  - destruct (String.eqb k0 k); rewrite !positives_cons; lia.
Qed.

(** A visit moves a node into the queue exactly when its in-degree stops
    being positive. *)
Lemma visit_neighbor_measure d q nb :
  List.length (snd (visit_neighbor (d, q) nb))
  + positives (fst (visit_neighbor (d, q) nb))
  = List.length q + positives d.
Proof.
  unfold visit_neighbor. cbn [fst snd]. rewrite map_get_set_same.
  pose proof (positives_set nb (minus_one (map_get nb d)) d) as H.
  destruct (map_get nb d) as [[z|]|]; cbn [minus_one is_zero is_positive] in *.
  - destruct (Z.eqb_spec (z - 1) 0); cbn [fst snd]; rewrite ?length_app;
      destruct (Z.ltb_spec 0 z), (Z.ltb_spec 0 (z - 1)); simpl in *; lia.
  - simpl in *. lia.
  - simpl in *. lia.
Qed.

Lemma visit_all_measure todo : forall d q,
  List.length (snd (fold_left visit_neighbor todo (d, q)))
  + positives (fst (fold_left visit_neighbor todo (d, q)))
  = List.length q + positives d.
Proof.
  induction todo as [|nb todo IH]; intros d q; [reflexivity|].
  simpl. pose proof (visit_neighbor_measure d q nb) as H.
  destruct (visit_neighbor (d, q) nb) as [d1 q1]. cbn [fst snd] in H.
  rewrite IH. exact H.
Qed.

(** Fuel beyond the length of the queue plus the number of positive
    in-degrees is never used. *)
Lemma kahn_loop_enough graph : forall fuel inDegree queue order extra,
  List.length queue + positives inDegree <= fuel ->
  kahn_loop (fuel + extra) graph inDegree queue order
  = kahn_loop fuel graph inDegree queue order.
Proof.
  induction fuel as [|fuel IH]; intros d q order extra Hle.
  - destruct q as [|u q]; [|simpl in Hle; lia].
    destruct extra; reflexivity.
  - destruct q as [|u q]; [reflexivity|]. simpl.
    apply IH. rewrite visit_all_measure. simpl in Hle. lia.
Qed.

Lemma seeds_positives (d : jsmap jsnum) :
  List.length (seeds d) + positives d <= List.length d.
Proof.
  unfold seeds. rewrite length_map.
  induction d as [|[k v] d IH]; [unfold positives; simpl; lia|].
  rewrite positives_cons. cbn [filter List.length].
  destruct v as [z|].
  - change (is_zero (Some (snd (k, Num z)))) with (Z.eqb z 0).
    change (is_positive (Num z)) with (Z.ltb 0 z).
    destruct (Z.eqb_spec z 0), (Z.ltb_spec 0 z); cbn [List.length Nat.b2n]; lia.
  - change (is_zero (Some (snd (k, NaN)))) with false.
    cbn [is_positive Nat.b2n]. lia.
Qed.

Lemma kahn_loop_any_fuel graph d fuel :
  List.length d <= fuel ->
  kahn_loop fuel graph d (seeds d) [] = kahn_loop (List.length d) graph d (seeds d) [].
Proof.
  intros Hle. replace fuel with (List.length d + (fuel - List.length d)) by lia.
  apply kahn_loop_enough. apply seeds_positives.
Qed.

(** ** The scheduler of the browser engine *)

(** Where the server accepts the connections, the browser engine builds
    the same maps. *)
Lemma client_build_graph conns : forall d g d' g',
  build_graph conns d g = Ok (d', g') ->
  Client.build_graph conns d g = (d', g').
Proof.
  induction conns as [|c conns IH]; intros d g d' g' H; simpl in *.
  - now inversion H.
  - destruct (negb (map_has (conn_from c) g) || negb (map_has (conn_to c) g));
      [discriminate|].
    now apply IH.
Qed.

(** ** The executors *)

Lemma to_lower_idempotent : forall s, to_lower (to_lower s) = to_lower s.
Proof.
  induction s as [|c s IH]; [reflexivity|].
  cbn [to_lower]. rewrite IH. f_equal.
  pose proof (nat_ascii_bounded c) as Hb.
  destruct (Nat.leb_spec 65 (nat_of_ascii c)) as [H1|H1];
    [destruct (Nat.leb_spec (nat_of_ascii c) 90) as [H2|H2]|]; cbn [andb].
  - rewrite nat_ascii_embedding by lia.
    destruct (Nat.leb_spec (nat_of_ascii c + 32) 90) as [H3|H3]; [lia|].
    now rewrite andb_false_r.
  - destruct (Nat.leb_spec 65 (nat_of_ascii c)); [|lia].
    destruct (Nat.leb_spec (nat_of_ascii c) 90); [lia | reflexivity].
  - destruct (Nat.leb_spec 65 (nat_of_ascii c)); [lia | reflexivity].
Qed.

(** [{ ...base, ...params }] read back: a key of [params] has the value
    [params] gives it, any other key the value it has in [base]. *)
Lemma spread_get k : forall params base,
  NoDup (map fst params) ->
  map_get k (spread base params)
  = match map_get k params with
    | Some v => Some v
    | None => map_get k base
    end.
Proof.
  unfold spread. induction params as [|[k0 v0] params IH]; intros base Hnd.
  - reflexivity.
  - inversion Hnd as [|? ? Hk0 Hnd']; subst. cbn [fold_left fst snd].
    rewrite (IH _ Hnd'). cbn [map_get].
    destruct (String.eqb_spec k0 k) as [->|Hne].
    + assert (Hnone : map_get k params = None).
      { destruct (map_get k params) eqn:Hg; [|reflexivity].
        exfalso. apply Hk0. apply map_get_keys. eauto. }
      rewrite Hnone. apply map_get_set_same.
    + now rewrite map_get_set_other.
Qed.

(** ** Paths *)

Lemma split_on_nonempty sep s : split_on sep s <> [].
Proof.
  destruct s as [|c s]; simpl; [discriminate|].
  destruct (Ascii.eqb c sep); [discriminate|].
  destruct (split_on sep s); discriminate.
Qed.

Lemma split_on_app sep : forall p q,
  split_on sep (p ^^ String sep q) = split_on sep p ++ split_on sep q.
Proof.
  induction p as [|c p IH]; intros q; cbn [String.append split_on].
  - now rewrite Ascii.eqb_refl.
  - rewrite IH. destruct (Ascii.eqb c sep); [reflexivity|].
    pose proof (split_on_nonempty sep p) as Hne.
    destruct (split_on sep p) as [|h t]; [contradiction | reflexivity].
Qed.

Lemma walk_app enter has : forall k1 k2 v,
  walk enter has (k1 ++ k2) v
  = match walk enter has k1 v with
    | Reached x => walk enter has k2 x
    | Beyond x key rest => Beyond x key (rest ++ k2)
    end.
Proof.
  induction k1 as [|key k1 IH]; intros k2 v; [reflexivity|].
  change ((key :: k1) ++ k2) with (key :: (k1 ++ k2)).
  cbn [walk]. destruct (enter v); [|apply IH].
  destruct (own_prop v key); [apply IH|].
  destruct (has v key); [reflexivity | apply IH].
Qed.

(** From [undefined] a walk leads nowhere. *)
Lemma walk_undefined enter has keys :
  enter VUndefined = false -> walk enter has keys VUndefined = Reached VUndefined.
Proof.
  intros He. induction keys as [|key keys IH]; [reflexivity|].
  cbn [walk]. now rewrite He.
Qed.

Lemma walk_closed enter has keys v :
  enter VUndefined = false -> enter v = false -> keys <> [] ->
  walk enter has keys v = Reached VUndefined.
Proof.
  intros He Hv Hne. destruct keys as [|key keys]; [congruence|].
  cbn [walk]. rewrite Hv. now apply walk_undefined.
Qed.

(** A walk that meets own properties only. *)
Lemma walk_own enter has : forall keys v,
  (forall x k, has x k = false) ->
  exists r, walk enter has keys v = Reached r.
Proof.
  induction keys as [|key keys IH]; intros v Hhas; [eauto|].
  cbn [walk]. destruct (enter v); [|now apply IH].
  destruct (own_prop v key); [now apply IH|].
  rewrite Hhas. now apply IH.
Qed.

(** *** The earlier log node *)

Lemma lazy_body_hit : forall key post,
  free_of "}" key = true -> one_line key = true ->
  Legacy.lazy_body (key ^^ "}}" ^^ post) = Some key.
Proof.
  induction key as [|c key IH]; intros post Hfree Hline.
  - reflexivity.
  - simpl in Hfree, Hline.
    apply andb_true_iff in Hfree. destruct Hfree as [Hc Hfree].
    apply andb_true_iff in Hline. destruct Hline as [Hnl Hline].
    apply andb_true_iff in Hnl. destruct Hnl as [Hlf Hcr].
    apply negb_true_iff in Hc, Hlf, Hcr.
    change (String c key ^^ "}}" ^^ post) with (String c (key ^^ "}}" ^^ post)).
    cbn [Legacy.lazy_body].
    assert (Hclose : starts_with_close (String c (key ^^ "}}" ^^ post)) = false).
    { unfold starts_with_close. destruct (key ^^ "}}" ^^ post); [reflexivity|].
      now rewrite Hc. }
    rewrite Hclose, Hlf, Hcr. cbn [orb].
    now rewrite (IH post Hfree Hline).
Qed.

Lemma legacy_match_hit key post :
  free_of "}" key = true -> one_line key = true ->
  Legacy.match_placeholder ("{{" ^^ key ^^ "}}" ^^ post)
  = Some (key, 4 + String.length key).
Proof.
  intros Hfree Hline. cbn [String.append]. unfold Legacy.match_placeholder.
  cbn [Ascii.eqb Bool.eqb andb].
  change (key ^^ String "}" (String "}" post)) with (key ^^ "}}" ^^ post).
  now rewrite (lazy_body_hit key post Hfree Hline).
Qed.

Lemma legacy_match_miss c s :
  Ascii.eqb c "{" = false -> Legacy.match_placeholder (String c s) = None.
Proof.
  intros H. unfold Legacy.match_placeholder. destruct s; [reflexivity|].
  now rewrite H.
Qed.

Lemma legacy_replace_prefix callback : forall pre s,
  free_of "{" pre = true ->
  replace_matches_r Legacy.match_placeholder callback 0 (pre ^^ s)
  = map_ok (String.append pre)
      (replace_matches_r Legacy.match_placeholder callback 0 s).
Proof.
  induction pre as [|c pre IH]; intros s Hpre.
  - simpl. destruct (replace_matches_r _ _ 0 s); reflexivity.
  - simpl in Hpre. apply andb_true_iff in Hpre. destruct Hpre as [Hc Hpre].
    apply negb_true_iff in Hc.
    cbn [String.append replace_matches_r].
    rewrite (legacy_match_miss c (pre ^^ s) Hc), (IH s Hpre).
    destruct (replace_matches_r _ _ 0 s); reflexivity.
Qed.

(** The first placeholder of a message, in the earlier log node. *)
Lemma legacy_format_placeholder E pre key post item :
  free_of "{" pre = true -> free_of "}" key = true -> one_line key = true ->
  Legacy.format_message E (pre ^^ "{{" ^^ key ^^ "}}" ^^ post) item
  = match Legacy.render_placeholder E item key with
    | Throw m => Throw m
    | Ok text =>
        map_ok (fun rest => pre ^^ text ^^ rest) (Legacy.format_message E post item)
    end.
Proof.
  intros Hpre Hfree Hline. unfold Legacy.format_message.
  rewrite legacy_replace_prefix by assumption.
  rewrite (replace_r_hit _ _ _ key (4 + String.length key))
    by (auto using legacy_match_hit; discriminate).
  rewrite string_drop_match.
  destruct (Legacy.render_placeholder E item key); [|reflexivity].
  destruct (replace_matches_r _ _ 0 post); reflexivity.
Qed.

(** ** Node types of the schema *)

Lemma enum_registered type :
  In type node_type_enum <-> exists node, map_get type nodeRegistry = Some node.
Proof.
  rewrite <- map_get_keys. reflexivity.
Qed.

(** With every node type registered, a loop that stops at a node has
    called that node. *)
Lemma run_nodes_failed_called E wf id stops :
  Forall (fun node => In (node_type node) node_type_enum) (wf_nodes wf) ->
  forall order k res w w' res' n m,
    run_nodes E wf id stops k order res w = (w', res', NodeFailed n m) ->
    exists calls done later,
      invoked w' = invoked w ++ calls
      /\ order = done ++ n :: later
      /\ map inv_nodeId calls = done ++ [n].
Proof.
  intros Hvalid.
  induction order as [|nodeId rest IH]; intros k res w w' res' n m Hrun.
  - discriminate.
  - cbn [run_nodes] in Hrun.
    set (w1 := with_store _ w) in *.
    destruct (find _ (wf_nodes wf)) as [nodeConfig|] eqn:Hfind; [|discriminate].
    set (w2 := addLog E id info _ (Some nodeId) w1) in *.
    assert (Hi2 : invoked w2 = invoked w).
    { unfold w2. now rewrite invoked_addLog. }
    assert (Hreg : exists node,
              map_get (node_type nodeConfig) nodeRegistry = Some node).
    { apply enum_registered. rewrite Forall_forall in Hvalid.
      apply Hvalid. apply find_some in Hfind. tauto. }
    destruct Hreg as (node & Hnode). rewrite Hnode in Hrun.
    set (call := {| inv_nodeId := nodeId; inv_type := node_type nodeConfig;
                    inv_input := gather_inputs (wf_connections wf) res nodeId;
                    inv_results := res;
                    inv_status := option_map ex_status (getExecution id (store w2)) |})
      in *.
    set (w3 := record_call call w2) in *.
    set (w4 := while_in_flight E id (stops k) (tick w3)) in *.
    assert (Hi4 : invoked w4 = invoked w ++ [call]).
    { unfold w4. rewrite invoked_in_flight. simpl. now rewrite Hi2. }
    destruct (node E (now E w3) _ _) as [outputData|m0].
    + destruct (IH _ _ _ _ _ _ _ Hrun) as (calls & done & later & Hc & Ho & Hm).
      exists (call :: calls), (nodeId :: done), later.
      split; [|split].
      * rewrite Hc, invoked_addLog, Hi4, <- app_assoc. reflexivity.
      * now rewrite Ho.
      * simpl. now rewrite Hm.
    + inversion Hrun; subst. exists [call], [], rest.
      rewrite invoked_fail_node. split; [exact Hi4|]. split; reflexivity.
Qed.

(** ** The scheduler of the earlier engine *)

Lemma legacy_build_graph push_error conns : forall d g d' g',
  build_graph conns d g = Ok (d', g') ->
  LegacyWorkflow.build_graph push_error conns d g = Ok (d', g').
Proof.
  induction conns as [|c conns IH]; intros d g d' g' H; simpl in *.
  - exact H.
  - destruct (map_has (conn_from c) g) eqn:Hf; [|discriminate].
    destruct (map_has (conn_to c) g); [|discriminate]. simpl in H.
    unfold map_has in Hf.
    destruct (map_get (conn_from c) g) as [l|]; [|discriminate].
    now apply IH.
Qed.

Lemma legacy_loop_enough iterate_error graph : forall fuel inDegree queue order extra,
  List.length queue + positives inDegree <= fuel ->
  LegacyWorkflow.kahn_loop iterate_error (fuel + extra) graph inDegree queue order
  = LegacyWorkflow.kahn_loop iterate_error fuel graph inDegree queue order.
Proof.
  induction fuel as [|fuel IH]; intros d q order extra Hle.
  - destruct q as [|u q]; [|simpl in Hle; lia].
    destruct extra; reflexivity.
  - destruct q as [|u q]; [reflexivity|]. simpl.
    destruct (map_get u graph) as [l|]; [|reflexivity].
    apply IH. rewrite visit_all_measure. simpl in Hle. lia.
Qed.

Section LegacyLoop.

Variable conns : list Connection.
Variable keys : list string.

Hypothesis endpoints_known :
  forall c, In c conns -> In (conn_from c) keys /\ In (conn_to c) keys.

(** While every node in the queue has its adjacency list, the loop of the
    earlier engine does what the loop of the server does. *)
Lemma legacy_loop_agrees iterate_error graph :
  (forall u, In u keys -> map_get u graph = Some (adj conns u)) ->
  forall fuel inDegree queue order,
    kahn_inv conns keys inDegree queue order [] ->
    LegacyWorkflow.kahn_loop iterate_error fuel graph inDegree queue order
    = Ok (kahn_loop fuel graph inDegree queue order).
Proof.
  intros Hgraph.
  induction fuel as [|fuel IH]; intros d q order Hinv; [reflexivity|].
  destruct q as [|u q]; [reflexivity|].
  assert (Hukey : In u keys)
    by (apply (inv_incl _ _ _ _ _ _ Hinv), in_or_app; right; now left).
  pose proof (dequeue_inv conns keys endpoints_known _ _ _ _ Hinv) as Hd.
  destruct (visit_all_inv conns keys _ _ _ _ Hd) as [Hv _].
  simpl. unfold neighbors. rewrite (Hgraph u Hukey).
  apply IH. exact Hv.
Qed.

End LegacyLoop.

(** *** Inherited members *)

(** A placeholder that names an inherited member is replaced by what the
    prototype chain gives: on the empty record, [constructor.name] is the
    string [Object] in a condition and in a message of the earlier log
    node, and [constructor] alone is rendered as the text of the
    function. *)
Example substitute_inherited :
  substitute_condition object_env "{{constructor.name}} === 5" (VObj [])
  = Ok (quote_json "Object" ^^ " === 5")
  /\ Legacy.format_message object_env "by {{constructor.name}}" (VObj [])
     = Ok "by Object"
  /\ Legacy.format_message object_env "{{constructor}}" (VObj [])
     = Ok "function Object() { [native code] }".
Proof. repeat split; reflexivity. Qed.

(* ================================================================== *)
(** * The claims *)

(** ** C1: a stop request and the run loop *)

(** C1 (the code at the failing input).  Execution ["e1"] of the chain
    trigger, HTTP call, log; a stop request is served while the HTTP call
    is in flight.  The log step is still called, with the stored status
    already [stopped], and the run ends by overwriting the status with
    [completed]. *)
Theorem C1_stop_request_ignored :
  let w := executeWorkflow ref_env wf_chain "e1" (during_call 1) (created wf_chain) in
  status_of "e1" w = Some completed
  /\ map (fun i => (inv_nodeId i, inv_status i)) (invoked w)
     = [("trigger", Some running); ("fetch", Some running);
        ("log", Some stopped)].
Proof. vm_compute. split; reflexivity. Qed.

(** A stop request served after the run has completed replaces the
    terminal status [completed] by [stopped]. *)
Example stop_after_completion :
  status_of "e1"
    (stop_route ref_env "e1"
       (executeWorkflow ref_env wf_chain "e1" never (created wf_chain)))
  = Some stopped.
Proof. vm_compute. reflexivity. Qed.

(** ** C2: what a failed run leaves behind *)

(** C2, amended.  When a node fails during a run, the record of the
    execution ends with status [failed]; its [results] field is left as it
    was before the run; its log is the log it had, followed by the three
    opening entries of the run, the two entries (execution and output) of
    every node that succeeded, in the order of their execution, and the
    two entries (execution and error) of the failing node.  The results of
    the nodes that succeeded are held in the loop's local map only: that
    map has an entry for exactly the nodes scheduled before the failing
    one, none for the failing node and none for any later node, and no
    executor is called after the failing one. *)
Theorem C2_failed_run (E : Env) (workflow : Workflow) (executionId : string)
    (stops : nat -> bool) (w w' : World) (e : Execution)
    (res : jsmap (list value)) (n m : string)
    (Hrecord : getExecution executionId (store w) = Some e)
    (Hfailed : executeWorkflow_trace E workflow executionId stops w
               = (w', res, Some (NodeFailed n m))) :
  exists e' done later,
    getExecution executionId (store w') = Some e'
    /\ ex_status e' = failed
    /\ ex_results e' = ex_results e
    /\ (exists more outputs,
          ex_logs e' = ex_logs e ++ more
          /\ List.length outputs = List.length done
          /\ map log_view more
             = opening_entries workflow (done ++ n :: later)
               ++ served_entries workflow (combine done outputs)
               ++ failing_entries workflow n m)
    /\ getExecutionOrder (wf_nodes workflow) (wf_connections workflow)
       = Ok (done ++ n :: later)
    /\ (forall x, In x (map fst res) <-> In x done)
    /\ ~ In n (map fst res)
    /\ (forall x, In x later -> ~ In x (map fst res))
    /\ exists calls,
         invoked w' = invoked w ++ calls
         /\ (map inv_nodeId calls = done ++ [n] \/ map inv_nodeId calls = done).
Proof.
  unfold executeWorkflow_trace in Hfailed.
  destruct (evolves_pre E workflow executionId w) as [Hev2 Hi2].
  assert (Hl0 : logs_at executionId w = Some (ex_logs e))
    by (unfold logs_at; now rewrite Hrecord).
  destruct (logs_addLog E executionId info "--- Workflow Starting ---" None w _ Hl0)
    as (a1 & Hl1 & Ha1).
  destruct (logs_addLog E executionId info
              ("Executing workflow: " ^^ wf_name workflow) None _ _ Hl1)
    as (a2 & Hl2 & Ha2).
  set (w2 := addLog E executionId info _ None (addLog E executionId info _ None w)) in *.
  destruct (getExecutionOrder (wf_nodes workflow) (wf_connections workflow))
    as [order|m0] eqn:Horder; [|discriminate].
  destruct (logs_addLog E executionId info
              ("Execution order: " ^^ String.concat " -> " order) None w2 _ Hl2)
    as (a3 & Hl3 & Ha3).
  set (w3 := addLog E executionId info _ None w2) in *.
  assert (Hev3 : evolves executionId w w3)
    by (eapply evolves_trans; [exact Hev2 | apply evolves_addLog]).
  assert (Hi3 : invoked w3 = invoked w)
    by (unfold w3; now rewrite invoked_addLog).
  destruct (run_nodes E workflow executionId stops 0 order [] w3)
    as [[w4 res4] exit] eqn:Hrun.
  destruct exit as [|n4 m4|m4]; inversion Hfailed; subst; clear Hfailed.
  destruct (run_nodes_spec _ _ _ _ _ _ _ _ _ _ _ Hrun)
    as (Hev & calls & Hc & _ & (done & later & Ho & Hcalls & Hkeys & Hstatus)).
  destruct (run_nodes_log _ _ _ _ _ _ _ _ _ _ _ _ Hl3 Hrun)
    as (entries & Hl4 & (done' & later' & outputs & Ho' & Hlen & Hview)).
  destruct (evolves_trans _ _ _ _ Hev3 Hev e Hrecord) as (e' & He' & Hres & _).
  destruct (evolves_some _ _ _ _ Hev3 Hrecord) as (e3 & He3).
  specialize (Hstatus e3 He3). unfold status_of in Hstatus.
  rewrite He' in Hstatus. simpl in Hstatus.
  destruct (getExecutionOrder_ok _ _ _ Horder) as (_ & Hnd & _).
  rewrite Ho in Hnd.
  assert (Hsame : done = done' /\ later = later').
  { apply (nodup_split_unique _ _ _ _ n Hnd). now rewrite <- Ho. }
  destruct Hsame as [<- <-].
  assert (Hdone : forall x, In x (map fst res) <-> In x done).
  { intros x. rewrite Hkeys. simpl. tauto. }
  exists e', done, later.
  split; [assumption|]. split; [congruence|]. split; [assumption|].
  split; [|split; [now rewrite Ho|]; split; [assumption|]; split; [|split]].
  - exists ([a1; a2; a3] ++ entries), outputs.
    unfold logs_at in Hl4. rewrite He' in Hl4. simpl in Hl4.
    inversion Hl4 as [Hlogs]. split; [|split; [exact Hlen|]].
    + rewrite Hlogs, <- !app_assoc. reflexivity.
    + rewrite map_app, Hview. cbn [map]. rewrite Ha1, Ha2, Ha3, <- Ho.
      reflexivity.
  - rewrite Hdone. intros Hin. apply NoDup_remove_2 in Hnd. apply Hnd.
    apply in_or_app. now left.
  - intros x Hx. rewrite Hdone. intros Hin.
    apply (nodup_app_disjoint _ _ x Hnd Hin). now right.
  - exists calls. split; [now rewrite Hc, Hi3 | assumption].
Qed.

Lemma C2_failed_run_witness :
  exists e' done later,
    getExecution "e1"
      (store (executeWorkflow ref_env wf_no_url "e1" never (created wf_no_url)))
    = Some e'
    /\ ex_status e' = failed
    /\ ex_results e' = None
    /\ (exists more outputs,
          ex_logs e' = [] ++ more
          /\ List.length outputs = List.length done
          /\ map log_view more
             = opening_entries wf_no_url (done ++ "fetch" :: later)
               ++ served_entries wf_no_url (combine done outputs)
               ++ failing_entries wf_no_url "fetch" missing_url_message)
    /\ getExecutionOrder (wf_nodes wf_no_url) (wf_connections wf_no_url)
       = Ok (done ++ "fetch" :: later)
    /\ (forall x,
          In x (map fst [("trigger", [VObj [("startTime", VStr "t5")]])])
          <-> In x done)
    /\ ~ In "fetch" (map fst [("trigger", [VObj [("startTime", VStr "t5")]])])
    /\ (forall x, In x later ->
          ~ In x (map fst [("trigger", [VObj [("startTime", VStr "t5")]])]))
    /\ exists calls,
         invoked (executeWorkflow ref_env wf_no_url "e1" never (created wf_no_url))
         = [] ++ calls
         /\ (map inv_nodeId calls = done ++ ["fetch"]
             \/ map inv_nodeId calls = done).
Proof.
  apply (C2_failed_run ref_env wf_no_url "e1" never (created wf_no_url)
           (executeWorkflow ref_env wf_no_url "e1" never (created wf_no_url))
           {| ex_id := "e1"; ex_workflowId := "wf-no-url"; ex_status := running;
              ex_startedAt := "t0"; ex_completedAt := None;
              ex_currentNodeId := None; ex_logs := []; ex_results := None |}
           [("trigger", [VObj [("startTime", VStr "t5")]])]
           "fetch" missing_url_message).
  - vm_compute. reflexivity.
  - vm_compute. reflexivity.
Defined.

(** The log that the failed run of [wf_no_url] leaves: the opening, the
    two entries of the trigger, the two entries of the failing HTTP step. *)
Example failed_run_log :
  option_map (fun e => map log_view (ex_logs e))
    (getExecution "e1"
       (store (executeWorkflow ref_env wf_no_url "e1" never (created wf_no_url))))
  = Some [(info, None, "--- Workflow Starting ---");
          (info, None, "Executing workflow: Fetch without URL");
          (info, None, "Execution order: trigger -> fetch -> log");
          (info, Some "trigger", "Executing Node: trigger (StartNode)");
          (info, Some "trigger",
           "Output: " ^^ or_undefined
              (JSON_stringify_pretty (VArr [VObj [("startTime", VStr "t5")]])));
          (info, Some "fetch", "Executing Node: fetch (FetchApiNode)");
          (error, Some "fetch", "ERROR: URL is required for HTTP request")].
Proof. vm_compute. reflexivity. Qed.

(** C2 as stated fails: in the run of [wf_no_url] the trigger succeeds
    and the HTTP step fails for lack of a URL; the record ends [failed]
    with no [results] at all. *)
Lemma C2_counterexample :
  ~ C2_as_stated ref_env wf_no_url "e1" never (created wf_no_url).
Proof.
  intros H.
  destruct (H (executeWorkflow ref_env wf_no_url "e1" never (created wf_no_url))
              [("trigger", [VObj [("startTime", VStr "t5")]])]
              "fetch" missing_url_message)
    as (e' & r & He & _ & Hr & _).
  - vm_compute. reflexivity.
  - vm_compute in He. inversion He; subst e'. discriminate Hr.
Qed.

(** ** C3: the scheduler returns a topological order with a fixed tie-break *)

(** C3.  For connections whose endpoints are all node ids and that form
    no cycle: every order [getExecutionOrder] returns lists each node
    exactly once and has, for every connection, the source before the
    target; it starts with the nodes that have no incoming connection, in
    node-list order, so two such nodes occur in the order in which the
    node list has them.  An order is returned whenever the node ids are
    distinct. *)
Theorem C3_topological_order (nodes : list WorkflowNode)
    (connections : list Connection)
    (Hknown : known_endpoints nodes connections)
    (Hacyclic : acyclic connections) :
  (NoDup (ids nodes) -> exists order, getExecutionOrder nodes connections = Ok order)
  /\ forall order,
       getExecutionOrder nodes connections = Ok order ->
       (forall c, In c connections -> before order (conn_from c) (conn_to c))
       /\ (exists rest,
             order = filter (zero_in_degree connections) (ids nodes) ++ rest)
       /\ (forall a b,
             zero_in_degree connections a = true ->
             zero_in_degree connections b = true ->
             before (ids nodes) a b -> before order a b)
       /\ NoDup order
       /\ (forall x, In x order <-> In x (ids nodes)).
Proof.
  split.
  - intros Hunique.
    destruct (acyclic_order nodes connections Hunique Hknown Hacyclic)
      as (order & Hget & _). eauto.
  - intros order Hok.
    pose proof (getExecutionOrder_ok_unique _ _ _ Hok) as Hunique.
    destruct (acyclic_order nodes connections Hunique Hknown Hacyclic)
      as (order' & Hget & Htopo & (rest & Hrest) & Hnd & Hin).
    rewrite Hget in Hok. injection Hok as <-.
    split; [exact Htopo|].
    split; [exists rest; exact Hrest|].
    split; [|split; [exact Hnd | exact Hin]].
    intros a b Ha Hb Hab. rewrite Hrest. apply before_app_l.
    now apply before_filter.
Qed.

Lemma C3_topological_order_witness :
  (NoDup (ids (wf_nodes wf_diamond)) ->
   exists order,
     getExecutionOrder (wf_nodes wf_diamond) (wf_connections wf_diamond) = Ok order)
  /\ forall order,
       getExecutionOrder (wf_nodes wf_diamond) (wf_connections wf_diamond)
       = Ok order ->
       (forall c, In c (wf_connections wf_diamond) ->
          before order (conn_from c) (conn_to c))
       /\ (exists rest,
             order = filter (zero_in_degree (wf_connections wf_diamond))
                       (ids (wf_nodes wf_diamond)) ++ rest)
       /\ (forall a b,
             zero_in_degree (wf_connections wf_diamond) a = true ->
             zero_in_degree (wf_connections wf_diamond) b = true ->
             before (ids (wf_nodes wf_diamond)) a b -> before order a b)
       /\ NoDup order
       /\ (forall x, In x order <-> In x (ids (wf_nodes wf_diamond))).
Proof.
  apply (C3_topological_order (wf_nodes wf_diamond) (wf_connections wf_diamond)).
  - intros c Hc. simpl in Hc.
    destruct Hc as [<-|[<-|[]]]; simpl; tauto.
  - apply (ranked_acyclic (fun x => pos x ["a"; "b"; "c"; "d"])).
    intros c Hc. simpl in Hc.
    destruct Hc as [<-|[<-|[]]]; vm_compute; lia.
Defined.

(** The order computed for the diamond: the three nodes without incoming
    connection first, in node-list order. *)
Example diamond_order :
  getExecutionOrder (wf_nodes wf_diamond) (wf_connections wf_diamond)
  = Ok ["a"; "b"; "d"; "c"].
Proof. reflexivity. Qed.

(** ** C4: the branch step *)

(** C4, amended.  On the record [{a: {b: 5}}] the condition
    ["{{a.b}} === 5"] yields [conditionResult = true] and
    [outputPath = "true"].  A placeholder whose path leads to nothing, in
    the record and on the prototype chains of the values on the way, does
    not stay in the expression: it is replaced by the text [undefined].
    So ["{{a.c}} === 5"], where [c] names no built-in member, yields
    [conditionResult = false] and [outputPath = "false"].  In general,
    for placeholders that lead to values whose JSON text the model
    computes, the outcome of the step is that of the substitution
    followed by the evaluation of the substituted expression in the scope
    of the step: it fails, with the condition-evaluation message, when
    the substitution or the evaluator raises an error (for a script that
    throws [null] or [undefined], whose message cannot be read, it fails
    with the error of that reading), and returns its record, with the
    input record as the evaluation leaves it, when the evaluator returns
    a value. *)
Theorem C4_branch (E : Env) (now pre path post : string) (data : value)
    (Hagree : eval_agrees E)
    (Hpre : free_of "{" pre = true)
    (Hpath : path <> EmptyString)
    (Hclosed : free_of "}" path = true)
    (Habsent : lookup_path E path data = Reached VUndefined)
    (Hplain : prototype_has E (VObj [("b", VNum 5)]) "c" = false) :
  IfNode_execute E now [VObj [("a", VObj [("b", VNum 5)])]]
    [("condition", VStr "{{a.b}} === 5")]
  = Ok [VObj [("conditionResult", VBool true);
              ("conditionExpression", VStr "{{a.b}} === 5");
              ("inputData", VObj [("a", VObj [("b", VNum 5)])]);
              ("outputPath", VStr "true")]]
  /\ substitute_condition E (pre ^^ "{{" ^^ path ^^ "}}" ^^ post) data
     = map_ok (fun rest => pre ^^ "undefined" ^^ rest)
         (substitute_condition E post data)
  /\ IfNode_execute E now [VObj [("a", VObj [("b", VNum 5)])]]
       [("condition", VStr "{{a.c}} === 5")]
     = Ok [VObj [("conditionResult", VBool false);
                 ("conditionExpression", VStr "{{a.c}} === 5");
                 ("inputData", VObj [("a", VObj [("b", VNum 5)])]);
                 ("outputPath", VStr "false")]]
  /\ (forall inputData condition m,
        plainly_substituted E condition
          (js_or (first_item inputData) empty_object) ->
        substitute_condition E condition
          (js_or (first_item inputData) empty_object) = Throw m ->
        IfNode_execute E now inputData [("condition", VStr condition)]
        = Throw (condition_error_message condition m))
  /\ (forall inputData condition script m,
        plainly_substituted E condition
          (js_or (first_item inputData) empty_object) ->
        substitute_condition E condition
          (js_or (first_item inputData) empty_object) = Ok script ->
        js_eval E {| scope_inputData := inputData;
                     scope_params := [("condition", VStr condition)];
                     scope_condition := condition;
                     scope_data := js_or (first_item inputData) empty_object |}
          script = Raises m ->
        IfNode_execute E now inputData [("condition", VStr condition)]
        = Throw (condition_error_message condition m))
  /\ (forall inputData condition script m,
        plainly_substituted E condition
          (js_or (first_item inputData) empty_object) ->
        substitute_condition E condition
          (js_or (first_item inputData) empty_object) = Ok script ->
        js_eval E {| scope_inputData := inputData;
                     scope_params := [("condition", VStr condition)];
                     scope_condition := condition;
                     scope_data := js_or (first_item inputData) empty_object |}
          script = RaisesUnreadable m ->
        IfNode_execute E now inputData [("condition", VStr condition)]
        = Throw m)
  /\ (forall inputData condition script r,
        plainly_substituted E condition
          (js_or (first_item inputData) empty_object) ->
        substitute_condition E condition
          (js_or (first_item inputData) empty_object) = Ok script ->
        js_eval E {| scope_inputData := inputData;
                     scope_params := [("condition", VStr condition)];
                     scope_condition := condition;
                     scope_data := js_or (first_item inputData) empty_object |}
          script = Returns r ->
        IfNode_execute E now inputData [("condition", VStr condition)]
        = Ok [VObj [("conditionResult", VBool (truthy (ev_value r)));
                    ("conditionExpression", VStr condition);
                    ("inputData", ev_data r);
                    ("outputPath",
                     VStr (if truthy (ev_value r) then "true" else "false"))]]).
Proof.
  split; [|split; [|split; [|split; [|split; [|split]]]]].
  - rewrite IfNode_execute_string.
    change (substitute_condition E "{{a.b}} === 5"
              (js_or (first_item [VObj [("a", VObj [("b", VNum 5)])]]) empty_object))
      with (@Ok string "5 === 5").
    cbv iota. rewrite (Hagree _ "5 === 5" (VBool true)) by reflexivity.
    reflexivity.
  - rewrite substitute_placeholder by assumption.
    unfold render_json. now rewrite Habsent.
  - rewrite IfNode_execute_string.
    assert (Hsub : substitute_condition E "{{a.c}} === 5"
                     (js_or (first_item [VObj [("a", VObj [("b", VNum 5)])]])
                            empty_object)
                   = Ok "undefined === 5").
    { change "{{a.c}} === 5" with (EmptyString ^^ "{{" ^^ "a.c" ^^ "}}" ^^ " === 5").
      rewrite substitute_placeholder; [|reflexivity|discriminate|reflexivity].
      unfold render_json, lookup_path.
      cbn [split_on Ascii.eqb Bool.eqb walk not_nullish js_or first_item nth_value
           nth truthy own_prop map_get String.eqb].
      rewrite Hplain. reflexivity. }
    rewrite Hsub.
    rewrite (Hagree _ "undefined === 5" (VBool false)) by reflexivity.
    reflexivity.
  - intros inputData condition m _ Hthrow. rewrite IfNode_execute_string.
    now rewrite Hthrow.
  - intros inputData condition script m _ Hsub Hthrow.
    rewrite IfNode_execute_string. now rewrite Hsub, Hthrow.
  - intros inputData condition script m _ Hsub Hthrow.
    rewrite IfNode_execute_string. now rewrite Hsub, Hthrow.
  - intros inputData condition script r _ Hsub Hok.
    rewrite IfNode_execute_string. now rewrite Hsub, Hok.
Qed.

Lemma ref_env_agrees : eval_agrees ref_env.
Proof.
  intros scope script v H. simpl. now rewrite H.
Defined.

Lemma C4_branch_witness :
  IfNode_execute ref_env "t0" [VObj [("a", VObj [("b", VNum 5)])]]
    [("condition", VStr "{{a.b}} === 5")]
  = Ok [VObj [("conditionResult", VBool true);
              ("conditionExpression", VStr "{{a.b}} === 5");
              ("inputData", VObj [("a", VObj [("b", VNum 5)])]);
              ("outputPath", VStr "true")]]
  /\ substitute_condition ref_env ("1 < " ^^ "{{" ^^ "a.c" ^^ "}}" ^^ " ")
       (VObj [("a", VObj [("b", VNum 5)])])
     = Ok ("1 < " ^^ "undefined" ^^ " ")
  /\ IfNode_execute ref_env "t0" [VObj [("a", VObj [("b", VNum 5)])]]
       [("condition", VStr "{{a.c}} === 5")]
     = Ok [VObj [("conditionResult", VBool false);
                 ("conditionExpression", VStr "{{a.c}} === 5");
                 ("inputData", VObj [("a", VObj [("b", VNum 5)])]);
                 ("outputPath", VStr "false")]].
Proof.
  destruct (C4_branch ref_env "t0" "1 < " "a.c" " "
              (VObj [("a", VObj [("b", VNum 5)])]))
    as (H1 & H2 & H3 & _).
  - exact ref_env_agrees.
  - reflexivity.
  - discriminate.
  - reflexivity.
  - reflexivity.
  - reflexivity.
  - split; [exact H1|]. split; [exact H2 | exact H3].
Defined.

(** C4 as stated fails: in ["{{a.c}} === 5"] on [{a: {b: 5}}] the
    placeholder's path is absent, yet the substituted expression is
    ["undefined === 5"], which holds no placeholder, and the step returns
    a record instead of failing. *)
Lemma C4_counterexample :
  ~ C4_as_stated ref_env "t0" [VObj [("a", VObj [("b", VNum 5)])]]
      "{{a.c}} === 5" "a.c".
Proof.
  intros H. destruct H as [_ (m & Hm)].
  - vm_compute. now left.
  - reflexivity.
  - vm_compute in Hm. discriminate Hm.
Qed.

(** ** C5: the log step and placeholders *)




(** ** C6: a cycle *)

(** C6, amended.  For connections whose endpoints are all node ids and
    that contain a cycle, the loop of the scheduler ends with fewer nodes
    than the workflow has and [getExecutionOrder] fails with the cycle
    error; the run then calls no executor, leaves the [results] field of
    the execution as it was, and ends with status [failed]. *)
Theorem C6_cycle_detected (E : Env) (workflow : Workflow) (executionId : string)
    (stops : nat -> bool) (w : World) (e : Execution)
    (Hknown : known_endpoints (wf_nodes workflow) (wf_connections workflow))
    (Hcycle : has_cycle (wf_connections workflow))
    (Hrecord : getExecution executionId (store w) = Some e) :
  getExecutionOrder (wf_nodes workflow) (wf_connections workflow)
  = Throw cycle_message
  /\ (exists inDegree graph,
        build_graph (wf_connections workflow)
          (fst (init_graph (wf_nodes workflow)))
          (snd (init_graph (wf_nodes workflow)))
        = Ok (inDegree, graph)
        /\ List.length
             (kahn_loop (List.length (wf_nodes workflow)) graph inDegree
                (seeds inDegree) [])
           < List.length (wf_nodes workflow))
  /\ invoked (executeWorkflow E workflow executionId stops w) = invoked w
  /\ exists e',
       getExecution executionId
         (store (executeWorkflow E workflow executionId stops w)) = Some e'
       /\ ex_status e' = failed
       /\ ex_results e' = ex_results e.
Proof.
  destruct (cyclic_order _ _ Hknown Hcycle) as [Hshort Hthrow].
  split; [exact Hthrow|]. split; [exact Hshort|].
  exact (unscheduled_run E workflow executionId stops w e _ Hthrow Hrecord).
Qed.

Lemma C6_cycle_detected_witness :
  getExecutionOrder (wf_nodes wf_loop) (wf_connections wf_loop)
  = Throw cycle_message
  /\ (exists inDegree graph,
        build_graph (wf_connections wf_loop)
          (fst (init_graph (wf_nodes wf_loop)))
          (snd (init_graph (wf_nodes wf_loop)))
        = Ok (inDegree, graph)
        /\ List.length
             (kahn_loop (List.length (wf_nodes wf_loop)) graph inDegree
                (seeds inDegree) [])
           < List.length (wf_nodes wf_loop))
  /\ invoked (executeWorkflow ref_env wf_loop "e1" never (created wf_loop))
     = invoked (created wf_loop)
  /\ exists e',
       getExecution "e1"
         (store (executeWorkflow ref_env wf_loop "e1" never (created wf_loop)))
       = Some e'
       /\ ex_status e' = failed
       /\ ex_results e' = None.
Proof.
  apply (C6_cycle_detected ref_env wf_loop "e1" never (created wf_loop)
           {| ex_id := "e1"; ex_workflowId := "wf-loop"; ex_status := running;
              ex_startedAt := "t0"; ex_completedAt := None;
              ex_currentNodeId := None; ex_logs := []; ex_results := None |}).
  - intros c Hc. simpl in Hc. destruct Hc as [<-|[<-|[]]]; simpl; tauto.
  - exists "a". apply path_cons with (b := "b").
    + exists (sample_conn "a" "b"). simpl. tauto.
    + apply path_one. exists (sample_conn "b" "a"). simpl. tauto.
  - reflexivity.
Defined.

(** C6 as stated fails: [wf_loop_dangling] has the cycle [a -> a], yet
    scheduling fails on the connection to the missing node, not with the
    cycle error. *)
Lemma C6_counterexample :
  ~ C6_as_stated (wf_nodes wf_loop_dangling) (wf_connections wf_loop_dangling).
Proof.
  intros H.
  assert (Hc : has_cycle (wf_connections wf_loop_dangling)).
  { exists "a". apply path_one. exists (sample_conn "a" "a"). simpl. tauto. }
  specialize (H Hc). vm_compute in H. discriminate H.
Qed.

(** ** C7: a connection to a node that does not exist *)

(** C7.  When some connection has an endpoint that is not the id of a
    node, [getExecutionOrder] fails with the invalid-connection error for
    such a connection; the run calls no executor and ends with status
    [failed]. *)
Theorem C7_invalid_connection (E : Env) (workflow : Workflow)
    (executionId : string) (stops : nat -> bool) (w : World) (e : Execution)
    (Hinvalid : exists c, In c (wf_connections workflow)
        /\ (~ In (conn_from c) (ids (wf_nodes workflow))
            \/ ~ In (conn_to c) (ids (wf_nodes workflow))))
    (Hrecord : getExecution executionId (store w) = Some e) :
  exists c,
    In c (wf_connections workflow)
    /\ (~ In (conn_from c) (ids (wf_nodes workflow))
        \/ ~ In (conn_to c) (ids (wf_nodes workflow)))
    /\ getExecutionOrder (wf_nodes workflow) (wf_connections workflow)
       = Throw (invalid_connection_message (conn_from c) (conn_to c))
    /\ invoked (executeWorkflow E workflow executionId stops w) = invoked w
    /\ status_of executionId (executeWorkflow E workflow executionId stops w)
       = Some failed.
Proof.
  destruct (invalid_order _ _ Hinvalid) as (c & Hc & Hbad & Hthrow).
  exists c. split; [exact Hc|]. split; [exact Hbad|]. split; [exact Hthrow|].
  destruct (unscheduled_run E workflow executionId stops w e _ Hthrow Hrecord)
    as (Hinv & e' & He' & Hs & _).
  split; [exact Hinv|]. unfold status_of. rewrite He'. simpl. now rewrite Hs.
Qed.

Lemma C7_invalid_connection_witness :
  exists c,
    In c (wf_connections wf_loop_dangling)
    /\ (~ In (conn_from c) (ids (wf_nodes wf_loop_dangling))
        \/ ~ In (conn_to c) (ids (wf_nodes wf_loop_dangling)))
    /\ getExecutionOrder (wf_nodes wf_loop_dangling)
         (wf_connections wf_loop_dangling)
       = Throw (invalid_connection_message (conn_from c) (conn_to c))
    /\ invoked (executeWorkflow ref_env wf_loop_dangling "e1" never
                  (created wf_loop_dangling))
       = invoked (created wf_loop_dangling)
    /\ status_of "e1"
         (executeWorkflow ref_env wf_loop_dangling "e1" never
            (created wf_loop_dangling))
       = Some failed.
Proof.
  apply (C7_invalid_connection ref_env wf_loop_dangling "e1" never
           (created wf_loop_dangling)
           {| ex_id := "e1"; ex_workflowId := "wf-loop-dangling";
              ex_status := running; ex_startedAt := "t0";
              ex_completedAt := None; ex_currentNodeId := None;
              ex_logs := []; ex_results := None |}).
  - exists (sample_conn "a" "ghost"). split; [simpl; tauto|].
    right. simpl. intros [H|[]]. discriminate H.
  - reflexivity.
Defined.

(** ** C8: the HTTP step *)



(** ** C9: the input of a node *)



(** In the diamond, [c] receives the output of [b] and then that of [a],
    the order of the two connections; the other nodes receive one empty
    record. *)
Example diamond_inputs :
  map (fun i => (inv_nodeId i, inv_input i))
      (invoked (executeWorkflow ref_env wf_diamond "e1" never (created wf_diamond)))
  = [("a", [empty_object]); ("b", [empty_object]); ("d", [empty_object]);
     ("c", [VObj [("startTime", VStr "t8")]; VObj [("startTime", VStr "t5")]])].
Proof. vm_compute. reflexivity. Qed.

(** ** C10: the log step never fails *)

(** C10.  For all inputs and parameters the log step returns one record
    with fields [logMessage], [loggedData] and [timestamp]; [logMessage]
    is ["Log output"] when [params.message] is absent or undefined, and
    [loggedData] is the empty record when there is no input. *)
Theorem C10_log_total (E : Env) (now : string) (inputData : list value)
    (params : list (string * value)) :
  exists message data,
    LogMessageNode_execute E now inputData params
    = Ok [VObj [("logMessage", message); ("loggedData", data);
                ("timestamp", VStr now)]]
    /\ (get_prop (VObj params) "message" = VUndefined ->
        message = VStr "Log output")
    /\ (map_get "message" params = None -> message = VStr "Log output")
    /\ (inputData = [] -> data = empty_object).
Proof.
  exists (param_or params "message" (VStr "Log output")),
         (js_or (first_item inputData) empty_object).
  split; [reflexivity|]. unfold param_or. split; [|split].
  - intros H. now rewrite H.
  - intros H. simpl. now rewrite H.
  - intros ->. reflexivity.
Qed.
(* ================================================================== *)
(** * Further results *)

(** ** The run and the store *)




(** X3.  Over a whole run, whatever its outcome and whatever stop
    requests it meets, the record of the execution keeps its id, its
    workflow id and its start time, and its log only grows: the entries it
    had are still there, in front. *)
Theorem run_log_append_only (E : Env) (workflow : Workflow)
    (executionId : string) (stops : nat -> bool) (w : World) (e : Execution)
    (Hrecord : getExecution executionId (store w) = Some e) :
  exists e',
    getExecution executionId
      (store (executeWorkflow E workflow executionId stops w)) = Some e'
    /\ ex_id e' = ex_id e
    /\ ex_workflowId e' = ex_workflowId e
    /\ ex_startedAt e' = ex_startedAt e
    /\ exists more, ex_logs e' = ex_logs e ++ more.
Proof.
  exact (run_step_same _ _ _ _
           (run_step_run E workflow executionId stops w) Hrecord).
Qed.

Lemma run_log_append_only_witness :
  exists e',
    getExecution "e1"
      (store (executeWorkflow ref_env wf_no_url "e1" never (created wf_no_url)))
    = Some e'
    /\ ex_id e' = "e1"
    /\ ex_workflowId e' = wf_id wf_no_url
    /\ ex_startedAt e' = "t0"
    /\ exists more, ex_logs e' = [] ++ more.
Proof.
  exact (run_log_append_only ref_env wf_no_url "e1" never (created wf_no_url)
           _ eq_refl).
Defined.

(** X4.  The executions listed for a workflow are the same before and
    after a run of any execution: as many, in the same order, each with
    the id, workflow id and start time it had and a log that extends the
    one it had. *)
Theorem run_keeps_listing (E : Env) (workflow : Workflow)
    (executionId : string) (stops : nat -> bool) (w : World)
    (workflowId : string) :
  Forall2 same_run
    (getExecutionsByWorkflow workflowId (store w))
    (getExecutionsByWorkflow workflowId
       (store (executeWorkflow E workflow executionId stops w))).
Proof.
  apply run_step_listing with (id := executionId). apply run_step_run.
Qed.

(** X5.  A run on an execution the store has always closes it: the final
    status is [completed] or [failed], never [running] and never
    [stopped], the completion time is set and no node is marked current;
    this holds for every schedule of stop requests. *)
Theorem run_closes_record (E : Env) (workflow : Workflow)
    (executionId : string) (stops : nat -> bool) (w : World) (e : Execution)
    (Hrecord : getExecution executionId (store w) = Some e) :
  exists e',
    getExecution executionId
      (store (executeWorkflow E workflow executionId stops w)) = Some e'
    /\ (ex_status e' = completed \/ ex_status e' = failed)
    /\ (exists t, ex_completedAt e' = Some t)
    /\ ex_currentNodeId e' = None.
Proof.
  destruct (run_closed E workflow executionId stops w e Hrecord)
    as (e' & He' & Hstatus & Htime & Hcurrent).
  exists e'. auto.
Qed.

Lemma run_closes_record_witness :
  exists e',
    getExecution "e1"
      (store (executeWorkflow ref_env wf_chain "e1" (during_call 1)
                (created wf_chain))) = Some e'
    /\ (ex_status e' = completed \/ ex_status e' = failed)
    /\ (exists t, ex_completedAt e' = Some t)
    /\ ex_currentNodeId e' = None.
Proof.
  exact (run_closes_record ref_env wf_chain "e1" (during_call 1)
           (created wf_chain) _ eq_refl).
Defined.

(** X6.  When every node of a run succeeds, each node of the workflow was
    executed exactly once, in the order the scheduler returned, and the
    result object of the run is what the execution record holds at the
    end, with status [completed].  When the node ids are plain keys,
    which an object stores as own properties and enumerates in the order
    of their insertion, the result object has one entry per node, in the
    order of execution. *)
Theorem finished_run_results (E : Env) (workflow : Workflow)
    (executionId : string) (stops : nat -> bool) (w w' : World)
    (res : jsmap (list value))
    (Hfinished : executeWorkflow_trace E workflow executionId stops w
                 = (w', res, Some Finished)) :
  exists order,
    getExecutionOrder (wf_nodes workflow) (wf_connections workflow) = Ok order
    /\ NoDup order
    /\ (forall x, In x order <-> In x (ids (wf_nodes workflow)))
    /\ (Forall (fun id => plain_key id = true) (ids (wf_nodes workflow)) ->
        map fst res = order)
    /\ (exists calls,
          invoked w' = invoked w ++ calls /\ map inv_nodeId calls = order)
    /\ (forall e, getExecution executionId (store w) = Some e ->
          exists e', getExecution executionId (store w') = Some e'
            /\ ex_status e' = completed /\ ex_results e' = Some res).
Proof.
  pose proof Hfinished as Hrun. unfold executeWorkflow_trace in Hrun.
  destruct (evolves_pre E workflow executionId w) as [_ Hi2].
  set (w2 := addLog E executionId info _ None
               (addLog E executionId info _ None w)) in *.
  destruct (getExecutionOrder (wf_nodes workflow) (wf_connections workflow))
    as [order|m] eqn:Hok; [|discriminate].
  set (w3 := addLog E executionId info _ None w2) in *.
  assert (Hi3 : invoked w3 = invoked w)
    by (unfold w3; now rewrite invoked_addLog).
  destruct (run_nodes E workflow executionId stops 0 order [] w3)
    as [[w4 res4] exit] eqn:Hloop.
  destruct exit; inversion Hrun; subst; clear Hrun.
  destruct (getExecutionOrder_ok _ _ _ Hok) as (_ & Hnd & Hincl & Hlen).
  pose proof (getExecutionOrder_ok_unique _ _ _ Hok) as Hunique.
  exists order. split; [reflexivity|]. split; [exact Hnd|]. split; [|split; [|split]].
  - intros x. split; [apply Hincl|].
    apply NoDup_length_incl; auto. unfold ids. rewrite length_map. lia.
  - intros _. apply (run_nodes_finished_keys _ _ _ _ _ _ _ _ _ _ Hloop). exact Hnd.
  - destruct (run_nodes_spec _ _ _ _ _ _ _ _ _ _ _ Hloop)
      as (_ & calls & Hc & _ & Hout & _).
    exists calls. split; [|exact Hout].
    unfold finish_workflow. simpl. rewrite invoked_addLog. now rewrite Hc, Hi3.
  - intros e He. exact (finished_run_completed _ _ _ _ _ _ _ _ He Hfinished).
Qed.

Lemma finished_run_results_witness :
  Forall (fun id => plain_key id = true) (ids (wf_nodes wf_diamond))
  /\ exists order,
       getExecutionOrder (wf_nodes wf_diamond) (wf_connections wf_diamond) = Ok order
       /\ NoDup order
       /\ (forall x, In x order <-> In x (ids (wf_nodes wf_diamond)))
       /\ (Forall (fun id => plain_key id = true) (ids (wf_nodes wf_diamond)) ->
           map fst (snd (fst (executeWorkflow_trace ref_env wf_diamond "e1" never
                                (created wf_diamond)))) = order)
       /\ (exists calls,
             invoked (fst (fst (executeWorkflow_trace ref_env wf_diamond "e1" never
                                  (created wf_diamond))))
             = invoked (created wf_diamond) ++ calls
             /\ map inv_nodeId calls = order)
       /\ (forall e, getExecution "e1" (store (created wf_diamond)) = Some e ->
             exists e',
               getExecution "e1"
                 (store (fst (fst (executeWorkflow_trace ref_env wf_diamond "e1"
                                     never (created wf_diamond))))) = Some e'
               /\ ex_status e' = completed
               /\ ex_results e'
                  = Some (snd (fst (executeWorkflow_trace ref_env wf_diamond "e1"
                                      never (created wf_diamond))))).
Proof.
  split; [repeat constructor|].
  apply (finished_run_results ref_env wf_diamond "e1" never (created wf_diamond)).
  vm_compute. reflexivity.
Defined.

(** X7.  In every run, when a node is executed each node that a
    connection leads from into it already has its output in the result
    map: the input is gathered from all of its sources, none is skipped. *)
Theorem calls_have_their_sources (E : Env) (workflow : Workflow)
    (executionId : string) (stops : nat -> bool) (w : World) :
  exists calls,
    invoked (executeWorkflow E workflow executionId stops w) = invoked w ++ calls
    /\ forall i c,
         In i calls -> In c (wf_connections workflow) ->
         conn_to c = inv_nodeId i ->
         exists output, map_get (conn_from c) (inv_results i) = Some output.
Proof.
  unfold executeWorkflow, executeWorkflow_trace.
  destruct (evolves_pre E workflow executionId w) as [_ Hi2].
  set (w2 := addLog E executionId info _ None
               (addLog E executionId info _ None w)) in *.
  destruct (getExecutionOrder (wf_nodes workflow) (wf_connections workflow))
    as [order|m] eqn:Hok.
  - set (w3 := addLog E executionId info _ None w2).
    assert (Hi3 : invoked w3 = invoked w)
      by (unfold w3; now rewrite invoked_addLog).
    destruct (run_nodes E workflow executionId stops 0 order [] w3)
      as [[w4 res] exit] eqn:Hloop.
    destruct (run_nodes_calls _ _ _ _ _ _ _ _ _ _ _ Hloop) as (calls & Hc & Hall).
    destruct (getExecutionOrder_ok _ _ _ Hok) as (_ & Hnd & _).
    exists calls. split.
    + destruct exit; cbn [fst].
      * unfold finish_workflow. simpl. rewrite invoked_addLog. now rewrite Hc, Hi3.
      * now rewrite Hc, Hi3.
      * rewrite invoked_fail_workflow. now rewrite Hc, Hi3.
    + intros i c Hi Hcin Hto.
      rewrite Forall_forall in Hall.
      destruct (Hall i Hi) as (done & later & Ho & Hk).
      apply map_get_keys. apply Hk. right.
      apply (before_in_prefix order done later (conn_from c) (inv_nodeId i) Hnd Ho).
      rewrite <- Hto. exact (ok_order_sorted _ _ _ Hok c Hcin).
  - exists []. cbn [fst]. rewrite invoked_fail_workflow, app_nil_r.
    split; [assumption | intros i c []].
Qed.

(** ** The scheduler *)

(** X8.  The scheduler returns an order exactly for the well-formed
    workflows: every endpoint of a connection is a node id, the
    connections form no cycle, and no two nodes share an id. *)
Theorem scheduled_iff_well_formed (nodes : list WorkflowNode)
    (connections : list Connection) :
  (exists order, getExecutionOrder nodes connections = Ok order)
  <-> known_endpoints nodes connections
      /\ acyclic connections
      /\ NoDup (ids nodes).
Proof.
  split.
  - intros (order & Hok). split; [|split].
    + exact (proj1 (getExecutionOrder_ok _ _ _ Hok)).
    + exact (ok_order_acyclic _ _ _ Hok).
    + exact (getExecutionOrder_ok_unique _ _ _ Hok).
  - intros (Hknown & Hacyclic & Hunique).
    destruct (acyclic_order nodes connections Hunique Hknown Hacyclic)
      as (order & Hget & _).
    eauto.
Qed.

(** X9.  Two nodes with the same id make the scheduler fail with the
    cycle error, also when the connections form no cycle: the order it
    builds has one entry per distinct id and is shorter than the node
    list. *)
Theorem duplicate_ids_reported_as_cycle (nodes : list WorkflowNode)
    (connections : list Connection)
    (Hknown : known_endpoints nodes connections)
    (Hduplicate : ~ NoDup (ids nodes)) :
  getExecutionOrder nodes connections = Throw cycle_message.
Proof.
  destruct (scheduler_run nodes connections Hknown)
    as (order & deg & _ & _ & _ & Hget).
  rewrite Hget.
  destruct (Nat.eqb_spec (List.length order) (List.length nodes)) as [Heq|Hne];
    [|reflexivity].
  exfalso. apply Hduplicate.
  apply (getExecutionOrder_ok_unique nodes connections order).
  exact Hget.
Qed.

Lemma duplicate_ids_reported_as_cycle_witness :
  acyclic [sample_conn "a" "b"]
  /\ getExecutionOrder
       [sample_node "a" "StartNode" []; sample_node "b" "LogMessageNode" [];
        sample_node "a" "StartNode" []]
       [sample_conn "a" "b"]
     = Throw cycle_message.
Proof.
  split.
  - apply (ranked_acyclic (fun x => if String.eqb x "a" then 0 else 1)).
    intros c [<-|[]]. simpl. lia.
  - apply duplicate_ids_reported_as_cycle.
    + intros c [<-|[]]. simpl. tauto.
    + intros Hnd. inversion Hnd as [|x l Hx Hnd']; subst.
      apply Hx. simpl. tauto.
Defined.

(** ** The store *)

(** X10.  A workflow created under a fresh id can be read back, is listed
    last, leaves the other workflows as they were, and deleting it again
    restores the store. *)
Theorem created_workflow_round_trip (id now : string)
    (insertWorkflow : InsertWorkflow) (ms : MemStorage)
    (Hfresh : map_has id (workflows ms) = false) :
  let ms' := fst (createWorkflow id now insertWorkflow ms) in
  let workflow := snd (createWorkflow id now insertWorkflow ms) in
  getWorkflow id ms' = Some workflow
  /\ wr_id workflow = id
  /\ getAllWorkflows ms' = getAllWorkflows ms ++ [workflow]
  /\ (forall other, other <> id -> getWorkflow other ms' = getWorkflow other ms)
  /\ deleteWorkflow id ms' = (ms, true).
Proof.
  apply map_has_false in Hfresh. cbv zeta.
  unfold createWorkflow, getWorkflow, getAllWorkflows, deleteWorkflow.
  cbn [fst snd set_workflows workflows users executions].
  split; [apply map_get_set_same|]. split; [reflexivity|]. split; [|split].
  - rewrite map_set_snoc by assumption. now rewrite map_app.
  - intros other Hne. now apply map_get_set_other.
  - unfold map_has. rewrite map_get_set_same. f_equal.
    destruct ms as [us wfs exs]. unfold set_workflows.
    cbn [workflows users executions] in *.
    now rewrite map_delete_set_new by assumption.
Qed.

Lemma created_workflow_round_trip_witness :
  let ms := MemStorage_new "t0" "t0" in
  let insertWorkflow :=
    {| iw_name := "second"; iw_description := None;
       iw_nodes := wf_nodes wf_chain; iw_connections := wf_connections wf_chain |} in
  getWorkflow "w2" (fst (createWorkflow "w2" "t1" insertWorkflow ms))
  = Some (snd (createWorkflow "w2" "t1" insertWorkflow ms))
  /\ deleteWorkflow "w2" (fst (createWorkflow "w2" "t1" insertWorkflow ms))
     = (ms, true).
Proof.
  cbv zeta.
  pose proof (created_workflow_round_trip "w2" "t1"
                {| iw_name := "second"; iw_description := None;
                   iw_nodes := wf_nodes wf_chain;
                   iw_connections := wf_connections wf_chain |}
                (MemStorage_new "t0" "t0") eq_refl) as H.
  cbv zeta in H. destruct H as (H1 & _ & _ & _ & H5). split; assumption.
Defined.

(** X11.  Updating a workflow that the store has keeps its id and its
    creation time, sets the update time, takes from the update the fields
    it mentions and keeps the others; the workflow keeps its place in the
    listing and no other workflow changes.  Updating a workflow that the
    store does not have changes nothing and returns nothing. *)
Theorem updated_workflow_keeps_identity (id now : string) (u : WorkflowUpdate)
    (ms : MemStorage) :
  let ms' := fst (updateWorkflow id u now ms) in
  match getWorkflow id ms with
  | None => updateWorkflow id u now ms = (ms, None)
  | Some existing =>
      exists updated,
        snd (updateWorkflow id u now ms) = Some updated
        /\ getWorkflow id ms' = Some updated
        /\ wr_id updated = wr_id existing
        /\ wr_createdAt updated = wr_createdAt existing
        /\ wr_updatedAt updated = now
        /\ wr_name updated = or_else (uw_name u) (wr_name existing)
        /\ wr_nodes updated = or_else (uw_nodes u) (wr_nodes existing)
        /\ wr_connections updated
           = or_else (uw_connections u) (wr_connections existing)
  end
  /\ map fst (workflows ms') = map fst (workflows ms)
  /\ (forall other, other <> id -> getWorkflow other ms' = getWorkflow other ms)
  /\ users ms' = users ms /\ executions ms' = executions ms.
Proof.
  cbv zeta. unfold updateWorkflow, getWorkflow.
  destruct (map_get id (workflows ms)) as [existing|] eqn:Hget;
    cbn [fst snd set_workflows workflows users executions].
  - split; [|split; [|split; [|split]]]; try reflexivity.
    + eexists. split; [reflexivity|]. split; [apply map_get_set_same|].
      repeat split.
    + apply map_set_keys_in. apply map_get_keys. eauto.
    + intros other Hne. now apply map_get_set_other.
  - repeat split.
Qed.

(** X12.  [updateExecution] never creates a record and never touches
    another one: the keys of the store stay as they are, the other
    executions are unchanged, an unknown id leaves the store as it is, and
    a known id afterwards holds the record merged with the update. *)
Theorem update_execution_frame (id : string) (u : ExecutionUpdate) (st : Storage) :
  map fst (updateExecution id u st) = map fst st
  /\ (forall other, other <> id ->
        getExecution other (updateExecution id u st) = getExecution other st)
  /\ (getExecution id st = None -> updateExecution id u st = st)
  /\ (forall e, getExecution id st = Some e ->
        getExecution id (updateExecution id u st) = Some (merge_execution e u)).
Proof.
  unfold updateExecution, getExecution.
  destruct (map_get id st) as [e|] eqn:Hget.
  - split; [|split; [|split]].
    + apply map_set_keys_in. apply map_get_keys. eauto.
    + intros other Hne. now apply map_get_set_other.
    + discriminate.
    + intros e0 He0. inversion He0; subst. apply map_get_set_same.
  - split; [|split; [|split]]; auto. intros e He. congruence.
Qed.

(** X13.  An execution created under a fresh id is listed last among the
    executions of its workflow, and the listings of the other workflows do
    not change; every execution listed for a workflow belongs to it. *)
Theorem created_execution_listed (id now workflowId : string) (status : Status)
    (st : Storage) (Hfresh : getExecution id st = None) :
  let st' := createExecution id now workflowId status st in
  (exists record,
     getExecution id st' = Some record
     /\ ex_status record = status /\ ex_logs record = []
     /\ getExecutionsByWorkflow workflowId st'
        = getExecutionsByWorkflow workflowId st ++ [record])
  /\ (forall other, other <> workflowId ->
        getExecutionsByWorkflow other st' = getExecutionsByWorkflow other st)
  /\ (forall wid execution,
        In execution (getExecutionsByWorkflow wid st') ->
        ex_workflowId execution = wid).
Proof.
  cbv zeta. unfold getExecution in Hfresh.
  assert (Hnew : ~ In id (map fst st)).
  { intros Hin. apply map_get_keys in Hin. destruct Hin as [v Hv]. congruence. }
  unfold createExecution, getExecutionsByWorkflow, getExecution.
  rewrite map_set_snoc by assumption.
  split; [|split].
  - exists {| ex_id := id; ex_workflowId := workflowId; ex_status := status;
              ex_startedAt := now; ex_completedAt := None;
              ex_currentNodeId := None; ex_logs := []; ex_results := None |}.
    split; [|split; [reflexivity|split; [reflexivity|]]].
    + rewrite <- (map_set_snoc id _ st Hnew). apply map_get_set_same.
    + rewrite map_app, filter_app. simpl. now rewrite String.eqb_refl.
  - intros other Hne. rewrite map_app, filter_app. simpl.
    destruct (String.eqb_spec workflowId other); [congruence|].
    now rewrite app_nil_r.
  - intros wid execution Hin. apply filter_In in Hin.
    now apply String.eqb_eq.
Qed.

Lemma created_execution_listed_witness :
  exists record,
    getExecution "e2" (createExecution "e2" "t9" "wf-chain" running
                         (store (created wf_chain))) = Some record
    /\ ex_status record = running /\ ex_logs record = []
    /\ getExecutionsByWorkflow "wf-chain"
         (createExecution "e2" "t9" "wf-chain" running (store (created wf_chain)))
       = getExecutionsByWorkflow "wf-chain" (store (created wf_chain)) ++ [record].
Proof.
  exact (proj1 (created_execution_listed "e2" "t9" "wf-chain" running
                  (store (created wf_chain)) eq_refl)).
Defined.

(** X14.  A user created under a fresh id with a user name nobody has is
    found by id and by name, and the lookups of the other ids do not
    change. *)
Theorem created_user_found (id username password : string) (ms : MemStorage)
    (Hfresh : getUser id ms = None)
    (Hname : getUserByUsername username ms = None) :
  let ms' := fst (createUser id username password ms) in
  let user := snd (createUser id username password ms) in
  getUser id ms' = Some user
  /\ getUserByUsername username ms' = Some user
  /\ (forall other, other <> id -> getUser other ms' = getUser other ms)
  /\ workflows ms' = workflows ms /\ executions ms' = executions ms.
Proof.
  cbv zeta. unfold getUser, getUserByUsername, createUser in *.
  cbn [fst snd set_users users workflows executions].
  assert (Hnew : ~ In id (map fst (users ms))).
  { intros Hin. apply map_get_keys in Hin. destruct Hin as [v Hv]. congruence. }
  split; [apply map_get_set_same|]. split; [|split; [|split]]; try reflexivity.
  - rewrite map_set_snoc by assumption. rewrite map_app. simpl.
    induction (map snd (users ms)) as [|x l IH]; simpl in *.
    + now rewrite String.eqb_refl.
    + destruct (String.eqb (user_username x) username); [discriminate | auto].
  - intros other Hne. now apply map_get_set_other.
Qed.

Lemma created_user_found_witness :
  getUser "u1" (fst (createUser "u1" "ana" "pw" (MemStorage_new "t0" "t0")))
  = Some (snd (createUser "u1" "ana" "pw" (MemStorage_new "t0" "t0")))
  /\ getUserByUsername "ana"
       (fst (createUser "u1" "ana" "pw" (MemStorage_new "t0" "t0")))
     = Some (snd (createUser "u1" "ana" "pw" (MemStorage_new "t0" "t0"))).
Proof.
  pose proof (created_user_found "u1" "ana" "pw" (MemStorage_new "t0" "t0")
                eq_refl eq_refl) as H.
  cbv zeta in H. destruct H as (H1 & H2 & _). split; assumption.
Defined.

(** ** The routes *)

(** X15.  The stop route answers 404 for an execution the store does not
    have and then changes nothing in the store.  For an execution the
    store has, whatever its status, also [completed] or [failed], it
    answers 200 with the record as stored afterwards: status [stopped],
    completion time the time of the request, every other field as it was;
    no other execution and no workflow changes. *)
Theorem stop_route_overwrites_status (E : Env) (id : string) (srv : Server) :
  let srv' := fst (route_stop E id srv) in
  let response := snd (route_stop E id srv) in
  match getExecution id (executions (sv_storage srv)) with
  | None =>
      response = {| res_status := 404; res_body := BError "Execution not found" |}
      /\ sv_storage srv' = sv_storage srv
  | Some e =>
      let e' :=
        {| ex_id := ex_id e; ex_workflowId := ex_workflowId e;
           ex_status := stopped; ex_startedAt := ex_startedAt e;
           ex_completedAt := Some (clock E (sv_ticks srv));
           ex_currentNodeId := ex_currentNodeId e; ex_logs := ex_logs e;
           ex_results := ex_results e |} in
      response = {| res_status := 200; res_body := BExecution e' |}
      /\ getExecution id (executions (sv_storage srv')) = Some e'
      /\ workflows (sv_storage srv') = workflows (sv_storage srv)
      /\ (forall other, other <> id ->
            getExecution other (executions (sv_storage srv'))
            = getExecution other (executions (sv_storage srv)))
  end.
Proof.
  cbv zeta. unfold route_stop.
  destruct (getExecution id (executions (sv_storage srv))) as [e|] eqn:He;
    cbn [fst snd].
  - unfold stop_route, world_of, with_world, with_store, tick, now.
    cbn [store ticks invoked sv_storage executions set_executions workflows].
    rewrite getExecution_update, He. cbn [option_map].
    split; [reflexivity|]. split; [reflexivity|]. split; [reflexivity|].
    intros other Hne. unfold updateExecution, getExecution in *. rewrite He.
    now apply map_get_set_other.
  - split; [reflexivity|].
    apply with_world_same. unfold stop_route, world_of, with_store, tick.
    cbn [store]. unfold updateExecution, getExecution in *. now rewrite He.
Qed.


(** X17.  The delete route answers 204 when the store has the workflow
    and 404 when it has not.  Afterwards the workflow can neither be read
    nor executed, the other workflows are served as before, and the
    executions, those of the deleted workflow included, are all still in
    the store. *)
Theorem delete_route_removes_workflow (E : Env) (id : string) (srv : Server) :
  let srv' := fst (route_delete_workflow id srv) in
  res_status (snd (route_delete_workflow id srv))
  = (if map_has id (workflows (sv_storage srv)) then 204 else 404)
  /\ snd (route_get_workflow id srv')
     = {| res_status := 404; res_body := BError "Workflow not found" |}
  /\ (forall executionId stops,
        route_execute E id executionId stops srv'
        = (srv', {| res_status := 404; res_body := BError "Workflow not found" |}))
  /\ (forall other, other <> id ->
        snd (route_get_workflow other srv') = snd (route_get_workflow other srv))
  /\ executions (sv_storage srv') = executions (sv_storage srv).
Proof.
  cbv zeta.
  assert (Hst : sv_storage (fst (route_delete_workflow id srv))
                = set_workflows (map_delete id) (sv_storage srv)).
  { unfold route_delete_workflow, deleteWorkflow. cbn [fst snd].
    destruct (map_has id (workflows (sv_storage srv))); reflexivity. }
  split; [|split; [|split; [|split]]].
  - unfold route_delete_workflow, deleteWorkflow. cbn [fst snd].
    destruct (map_has id (workflows (sv_storage srv))); reflexivity.
  - unfold route_get_workflow, getWorkflow. rewrite Hst.
    cbn [set_workflows workflows]. now rewrite map_get_delete_same.
  - intros executionId stops. unfold route_execute, getWorkflow. rewrite Hst.
    cbn [set_workflows workflows]. now rewrite map_get_delete_same.
  - intros other Hne. unfold route_get_workflow, getWorkflow. rewrite Hst.
    cbn [set_workflows workflows]. rewrite map_get_delete_other by congruence.
    destruct (map_get other (workflows (sv_storage srv))); reflexivity.
  - now rewrite Hst.
Qed.

(** X18.  The create route answers 400 for a body the schema rejects and
    then changes nothing.  For a valid body and a fresh id it answers 201
    with the stored workflow, created and updated at the time of the
    request; the read route then returns that workflow and the listing
    route lists it last. *)
Theorem create_route_then_read (E : Env) (id : string)
    (validated : option InsertWorkflow) (srv : Server)
    (Hfresh : map_has id (workflows (sv_storage srv)) = false) :
  let srv' := fst (route_post_workflow E id validated srv) in
  let response := snd (route_post_workflow E id validated srv) in
  match validated with
  | None =>
      srv' = srv
      /\ response = {| res_status := 400; res_body := BError "Invalid workflow data" |}
  | Some data =>
      let workflow :=
        {| wr_id := id; wr_name := iw_name data;
           wr_description := iw_description data; wr_nodes := iw_nodes data;
           wr_connections := iw_connections data;
           wr_createdAt := clock E (sv_ticks srv);
           wr_updatedAt := clock E (sv_ticks srv) |} in
      response = {| res_status := 201; res_body := BWorkflow workflow |}
      /\ snd (route_get_workflow id srv')
         = {| res_status := 200; res_body := BWorkflow workflow |}
      /\ snd (route_get_workflows srv')
         = {| res_status := 200;
              res_body :=
                BWorkflows (getAllWorkflows (sv_storage srv) ++ [workflow]) |}
  end.
Proof.
  cbv zeta. apply map_has_false in Hfresh.
  unfold route_post_workflow. destruct validated as [data|]; cbn [fst snd];
    [|split; reflexivity].
  split; [reflexivity|]. split.
  - unfold route_get_workflow, getWorkflow, createWorkflow.
    cbn [fst with_storage sv_storage set_workflows workflows].
    now rewrite map_get_set_same.
  - unfold route_get_workflows, getAllWorkflows, createWorkflow.
    cbn [fst snd with_storage sv_storage set_workflows workflows].
    rewrite map_set_snoc by assumption. now rewrite map_app.
Qed.

Lemma create_route_then_read_witness :
  let srv := {| sv_storage := MemStorage_new "t0" "t0"; sv_ticks := 2;
                sv_invoked := [] |} in
  let data := {| iw_name := "second"; iw_description := None;
                 iw_nodes := wf_nodes wf_chain;
                 iw_connections := wf_connections wf_chain |} in
  res_status (snd (route_post_workflow ref_env "w2" (Some data) srv)) = 201
  /\ res_status
       (snd (route_get_workflow "w2"
               (fst (route_post_workflow ref_env "w2" (Some data) srv)))) = 200.
Proof.
  cbv zeta.
  pose proof (create_route_then_read ref_env "w2"
                (Some {| iw_name := "second"; iw_description := None;
                         iw_nodes := wf_nodes wf_chain;
                         iw_connections := wf_connections wf_chain |})
                {| sv_storage := MemStorage_new "t0" "t0"; sv_ticks := 2;
                   sv_invoked := [] |} eq_refl) as H.
  cbv zeta in H. destruct H as (H1 & H2 & _).
  rewrite H1, H2. split; reflexivity.
Defined.

(** ** The scheduler of the browser engine *)

(** X19.  For connections whose endpoints are all node ids, the scheduler
    of the browser engine, which does not check the connections, returns
    what the scheduler of the server returns: the same order, or the same
    cycle error. *)
Theorem client_scheduler_agrees (nodes : list WorkflowNode)
    (connections : list Connection)
    (Hknown : known_endpoints nodes connections) :
  Client.getExecutionOrder nodes connections = getExecutionOrder nodes connections.
Proof.
  pose proof (known_endpoints_keys nodes connections Hknown) as Hk.
  destruct (graph_keys_spec nodes) as (_ & _ & Hlen & Hg & _).
  destruct (build_graph_ok (graph_keys nodes) connections
              (fst (init_graph nodes)) (snd (init_graph nodes)) eq_refl Hg Hk)
    as (deg & graph & Hb & Hdk & _).
  unfold Client.getExecutionOrder, Client.schedule, getExecutionOrder.
  rewrite Hb, (client_build_graph _ _ _ _ _ Hb). cbn [fst snd].
  rewrite Nat.add_0_r.
  rewrite (kahn_loop_any_fuel graph deg (List.length nodes)); [reflexivity|].
  rewrite <- (length_map fst deg), Hdk. exact Hlen.
Qed.

Lemma client_scheduler_agrees_witness :
  Client.getExecutionOrder (wf_nodes wf_diamond) (wf_connections wf_diamond)
  = getExecutionOrder (wf_nodes wf_diamond) (wf_connections wf_diamond).
Proof.
  apply client_scheduler_agrees.
  intros c Hc. simpl in Hc.
  repeat (destruct Hc as [<-|Hc]; [simpl; tauto|]). contradiction.
Defined.

(** X20.  The [while] loop of the browser engine's scheduler ends on
    every input, dangling connections and repeated ids included: it makes
    at most as many rounds as the in-degree map has entries, so that
    allowing it more rounds changes nothing. *)
Theorem client_scheduler_terminates (extra : nat) (nodes : list WorkflowNode)
    (connections : list Connection) :
  Client.schedule extra nodes connections
  = Client.getExecutionOrder nodes connections.
Proof.
  unfold Client.getExecutionOrder, Client.schedule.
  rewrite Nat.add_0_r.
  rewrite (kahn_loop_any_fuel _ _ (_ + extra)) by lia.
  reflexivity.
Qed.

(** ** The executors *)

(** X21.  Every registered executor other than the branch step reads at
    most the first item of its input: further items change nothing, and
    an empty input gives what a single empty record gives.  (The branch
    step hands its whole input to the evaluator of the condition.) *)
Theorem executors_read_first_item (type : string) (node : executor)
    (Hregistered : map_get type nodeRegistry = Some node)
    (Hnot_branch : type <> "IfNode")
    (E : Env) (now : string) (params : list (string * value)) :
  (forall item rest,
     node E now (item :: rest) params = node E now [item] params)
  /\ node E now [] params = node E now [empty_object] params.
Proof.
  assert (Hreg : nodeRegistry
                = [("StartNode", StartNode_execute);
                   ("FetchApiNode", FetchApiNode_execute);
                   ("LogMessageNode", LogMessageNode_execute);
                   ("IfNode", IfNode_execute)]) by reflexivity.
  rewrite Hreg in Hregistered. cbn [map_get] in Hregistered.
  destruct (String.eqb "StartNode" type);
    [|destruct (String.eqb "FetchApiNode" type);
      [|destruct (String.eqb "LogMessageNode" type);
        [|destruct (String.eqb_spec "IfNode" type);
          [symmetry in e; contradiction | discriminate]]]];
    inversion Hregistered; subst node; split; reflexivity.
Qed.

Lemma executors_read_first_item_witness :
  (forall item rest,
     LogMessageNode_execute ref_env "t0" (item :: rest) []
     = LogMessageNode_execute ref_env "t0" [item] [])
  /\ LogMessageNode_execute ref_env "t0" [] []
     = LogMessageNode_execute ref_env "t0" [empty_object] [].
Proof.
  refine (executors_read_first_item "LogMessageNode" LogMessageNode_execute
            eq_refl _ ref_env "t0" []).
  discriminate.
Defined.

(** X22.  The start step returns one record: the parameters of the node,
    and the start time under [startTime] unless the parameters have a
    [startTime] of their own, which then wins.  The input plays no part. *)
Theorem start_node_output (E : Env) (now : string) (inputData : list value)
    (params : list (string * value))
    (Hobject : NoDup (map fst params)) :
  exists fields,
    StartNode_execute E now inputData params = Ok [VObj fields]
    /\ (forall key,
          get_prop (VObj fields) key
          = match map_get key params with
            | Some v => v
            | None => if String.eqb key "startTime" then VStr now else VUndefined
            end).
Proof.
  exists (spread [("startTime", VStr now)] params).
  split; [reflexivity|]. intros key. cbn [get_prop].
  rewrite (spread_get key params _ Hobject).
  destruct (map_get key params); [reflexivity|].
  cbn [map_get]. rewrite (String.eqb_sym key).
  destruct (String.eqb "startTime" key); reflexivity.
Qed.

Lemma start_node_output_witness :
  exists fields,
    StartNode_execute ref_env "t0" []
      [("startTime", VStr "mine"); ("x", VNum 1)] = Ok [VObj fields]
    /\ get_prop (VObj fields) "startTime" = VStr "mine"
    /\ get_prop (VObj fields) "x" = VNum 1.
Proof.
  destruct (start_node_output ref_env "t0" []
              [("startTime", VStr "mine"); ("x", VNum 1)]) as (fields & H1 & H2).
  - repeat constructor; simpl; intuition discriminate.
  - exists fields. split; [exact H1|]. split; [exact (H2 "startTime") | exact (H2 "x")].
Defined.

(** X23.  The HTTP step does not distinguish the case of the method: a
    method and its lower-case form lead to the same request and the same
    outcome. *)
Theorem fetch_method_case_insensitive (E : Env) (inputData : list value)
    (params : list (string * value)) (m : string) :
  FetchApiNode_run E inputData (map_set "method" (VStr m) params)
  = FetchApiNode_run E inputData (map_set "method" (VStr (to_lower m)) params).
Proof.
  rewrite !FetchApiNode_run_unfold.
  assert (Hother : forall v key, key <> "method" ->
            get_prop (VObj (map_set "method" v params)) key
            = get_prop (VObj params) key).
  { intros v key Hne. cbn [get_prop]. rewrite map_get_set_other by congruence.
    reflexivity. }
  assert (Hmethod : forall s,
            param_or (map_set "method" (VStr s) params) "method" (VStr "GET")
            = VStr s).
  { intros s. unfold param_or. cbn [get_prop]. now rewrite map_get_set_same. }
  assert (Hconfig : fetch_config (map_set "method" (VStr m) params) m
                    = fetch_config (map_set "method" (VStr (to_lower m)) params)
                        (to_lower m)).
  { unfold fetch_config, param_or. rewrite !Hother by discriminate.
    now rewrite to_lower_idempotent. }
  rewrite !Hmethod, !Hother by discriminate. rewrite Hconfig. reflexivity.
Qed.

(** ** Conditions and placeholders of the branch step *)

(** X24.  In a condition, the first placeholder whose path leads to a
    value, be it an own property or nothing at all, is replaced by the
    JSON text of that value, or by [undefined] when there is none; what
    stands before it is kept and what follows is treated the same way.
    The value is one whose JSON text the model computes: safe integers,
    objects with distinct plain keys. *)
Theorem placeholder_replaced_by_json (E : Env) (pre path post : string)
    (data v : value)
    (Hpre : free_of "{" pre = true)
    (Hpath : path <> EmptyString)
    (Hclosed : free_of "}" path = true)
    (Hreached : lookup_path E path data = Reached v)
    (Hplain : plain_value v = true) :
  substitute_condition E (pre ^^ "{{" ^^ path ^^ "}}" ^^ post) data
  = map_ok (fun rest => pre ^^ or_undefined (JSON_stringify v) ^^ rest)
      (substitute_condition E post data).
Proof.
  rewrite substitute_placeholder by assumption.
  unfold render_json. now rewrite Hreached.
Qed.

Lemma placeholder_replaced_by_json_witness :
  substitute_condition ref_env "x > {{a.b}} && {{c}}"
    (VObj [("a", VObj [("b", VNum 5)]); ("c", VStr "no")])
  = map_ok (fun rest => "x > " ^^ "5" ^^ rest)
      (substitute_condition ref_env " && {{c}}"
         (VObj [("a", VObj [("b", VNum 5)]); ("c", VStr "no")])).
Proof.
  apply (placeholder_replaced_by_json ref_env "x > " "a.b" " && {{c}}" _ (VNum 5));
    [reflexivity | discriminate | reflexivity | reflexivity | reflexivity].
Defined.

(** X25.  A condition without an opening brace is evaluated exactly as it
    is written, in the scope of the step: the outcome of the step is the
    outcome of the evaluator on the condition itself. *)
Theorem plain_condition_evaluated_verbatim (E : Env) (now : string)
    (inputData : list value) (condition : string)
    (Hplain : free_of "{" condition = true) :
  IfNode_execute E now inputData [("condition", VStr condition)]
  = match js_eval E
            {| scope_inputData := inputData;
               scope_params := [("condition", VStr condition)];
               scope_condition := condition;
               scope_data := js_or (first_item inputData) empty_object |}
            condition with
    | Returns r =>
        Ok [VObj [("conditionResult", VBool (truthy (ev_value r)));
                  ("conditionExpression", VStr condition);
                  ("inputData", ev_data r);
                  ("outputPath",
                   VStr (if truthy (ev_value r) then "true" else "false"))]]
    | Raises m => Throw (condition_error_message condition m)
    | RaisesUnreadable m => Throw m
    end.
Proof.
  rewrite IfNode_execute_string. unfold substitute_condition.
  now rewrite (replace_r_plain _ condition Hplain).
Qed.

Lemma plain_condition_evaluated_verbatim_witness :
  IfNode_execute ref_env "t0" [] [("condition", VStr "3 < 2")]
  = Ok [VObj [("conditionResult", VBool false);
              ("conditionExpression", VStr "3 < 2");
              ("inputData", empty_object);
              ("outputPath", VStr "false")]].
Proof.
  rewrite (plain_condition_evaluated_verbatim ref_env "t0" [] "3 < 2" eq_refl).
  reflexivity.
Defined.

(** X26.  Without a [condition] parameter the branch step takes the
    branch [true], for every input, provided the evaluator evaluates the
    script [true] to the value [true]. *)
Theorem if_node_default_condition (E : Env) (now : string)
    (inputData : list value) (params : list (string * value))
    (Hagree : eval_agrees E)
    (Hdefault : get_prop (VObj params) "condition" = VUndefined) :
  IfNode_execute E now inputData params
  = Ok [VObj [("conditionResult", VBool true);
              ("conditionExpression", VStr "true");
              ("inputData", js_or (first_item inputData) empty_object);
              ("outputPath", VStr "true")]].
Proof.
  unfold IfNode_execute, param_or. rewrite Hdefault.
  unfold substitute_condition.
  rewrite (replace_r_plain _ "true" eq_refl).
  now rewrite (Hagree _ "true" (VBool true) eq_refl).
Qed.

Lemma if_node_default_condition_witness :
  IfNode_execute ref_env "t0" [VNum 7] [("other", VNum 1)]
  = Ok [VObj [("conditionResult", VBool true);
              ("conditionExpression", VStr "true");
              ("inputData", VNum 7);
              ("outputPath", VStr "true")]].
Proof.
  exact (if_node_default_condition ref_env "t0" [VNum 7] [("other", VNum 1)]
           ref_env_agrees eq_refl).
Defined.

(** X27.  Once a path leads to nothing every longer path does: if [p]
    gives [undefined], or [null], then [p.q] gives [undefined], and no
    prototype is consulted on the way. *)
Theorem lookup_path_beyond_nothing (E : Env) (p q : string) (data : value)
    (Hnothing : lookup_path E p data = Reached VUndefined
                \/ lookup_path E p data = Reached VNull) :
  lookup_path E (p ^^ "." ^^ q) data = Reached VUndefined.
Proof.
  unfold lookup_path in *.
  change (p ^^ "." ^^ q) with (p ^^ String "." q).
  rewrite split_on_app, walk_app.
  destruct Hnothing as [-> | ->].
  - now apply walk_undefined.
  - apply walk_closed; [reflexivity | reflexivity | apply split_on_nonempty].
Qed.

Lemma lookup_path_beyond_nothing_witness :
  lookup_path ref_env ("a.c" ^^ "." ^^ "d.e") (VObj [("a", VObj [("b", VNull)])])
  = Reached VUndefined
  /\ lookup_path ref_env ("a.b" ^^ "." ^^ "length")
       (VObj [("a", VObj [("b", VNull)])])
     = Reached VUndefined.
Proof.
  split.
  - apply lookup_path_beyond_nothing. left. reflexivity.
  - apply lookup_path_beyond_nothing. right. reflexivity.
Defined.

(** ** The earlier log node *)

(** X28.  The earlier log node replaces the first placeholder of a
    message whose key leads to a value, be it an own property or nothing
    at all, by the text of that value, and leaves the placeholder as
    written when the key leads to nothing; what stands before it is kept
    and what follows is treated the same way.  The value is one whose
    text the model computes: safe integers, no object with a [toString]
    of its own. *)
Theorem legacy_placeholder_rendered (E : Env) (pre key post : string)
    (item v : value)
    (Hpre : free_of "{" pre = true)
    (Hclosed : free_of "}" key = true)
    (Hline : one_line key = true)
    (Hreached : Legacy.lookup_path E key item = Reached v)
    (Hprintable : printable v = true) :
  Legacy.format_message E (pre ^^ "{{" ^^ key ^^ "}}" ^^ post) item
  = map_ok
      (fun rest =>
         pre
         ^^ match v with
            | VUndefined => "{{" ^^ key ^^ "}}"
            | _ => js_to_string v
            end
         ^^ rest)
      (Legacy.format_message E post item).
Proof.
  rewrite legacy_format_placeholder by assumption.
  unfold Legacy.render_placeholder. rewrite Hreached.
  destruct v; reflexivity.
Qed.

Lemma legacy_placeholder_rendered_witness :
  Legacy.format_message ref_env
    ("user " ^^ "{{" ^^ "u.name" ^^ "}}" ^^ " ({{u.id}})")
    (VObj [("u", VObj [("name", VStr "ana")])])
  = map_ok (fun rest => "user " ^^ "ana" ^^ rest)
      (Legacy.format_message ref_env " ({{u.id}})"
         (VObj [("u", VObj [("name", VStr "ana")])])).
Proof.
  apply (legacy_placeholder_rendered ref_env "user " "u.name" " ({{u.id}})" _
           (VStr "ana")); reflexivity.
Defined.

(** ** Node types *)

(** X29.  The node types the schema admits are the registered ones; so
    when a run over nodes of admitted types stops at a node, that node
    was called, after the nodes scheduled before it and as the last call:
    the failure is the failure of its executor. *)
Theorem schema_valid_nodes_are_called (E : Env) (workflow : Workflow)
    (executionId : string) (stops : nat -> bool) (w w' : World)
    (res : jsmap (list value)) (n m : string)
    (Hvalid : Forall (fun node => In (node_type node) node_type_enum)
                     (wf_nodes workflow))
    (Hfailed : executeWorkflow_trace E workflow executionId stops w
               = (w', res, Some (NodeFailed n m))) :
  (forall type, In type node_type_enum <-> map_has type nodeRegistry = true)
  /\ exists calls done later,
       invoked w' = invoked w ++ calls
       /\ getExecutionOrder (wf_nodes workflow) (wf_connections workflow)
          = Ok (done ++ n :: later)
       /\ map inv_nodeId calls = done ++ [n].
Proof.
  split.
  - intros type. now rewrite map_has_keys.
  - unfold executeWorkflow_trace in Hfailed.
    destruct (evolves_pre E workflow executionId w) as [_ Hi2].
    set (w2 := addLog E executionId info _ None
                 (addLog E executionId info _ None w)) in *.
    destruct (getExecutionOrder (wf_nodes workflow) (wf_connections workflow))
      as [order|m0]; [|discriminate].
    set (w3 := addLog E executionId info _ None w2) in *.
    assert (Hi3 : invoked w3 = invoked w)
      by (unfold w3; now rewrite invoked_addLog).
    destruct (run_nodes E workflow executionId stops 0 order [] w3)
      as [[w4 res4] exit] eqn:Hloop.
    destruct exit; inversion Hfailed; subst; clear Hfailed.
    destruct (run_nodes_failed_called E workflow executionId stops Hvalid
                _ _ _ _ _ _ _ _ Hloop)
      as (calls & done & later & Hc & Ho & Hm).
    exists calls, done, later. rewrite Hc, Hi3, Ho. auto.
Qed.

Lemma schema_valid_nodes_are_called_witness :
  exists calls done later,
    invoked (fst (fst (executeWorkflow_trace ref_env wf_no_url "e1" never
                         (created wf_no_url))))
    = invoked (created wf_no_url) ++ calls
    /\ getExecutionOrder (wf_nodes wf_no_url) (wf_connections wf_no_url)
       = Ok (done ++ "fetch" :: later)
    /\ map inv_nodeId calls = done ++ ["fetch"].
Proof.
  refine (proj2 (schema_valid_nodes_are_called ref_env wf_no_url "e1" never
                   (created wf_no_url) _ _ "fetch" missing_url_message _ _)).
  - repeat constructor; simpl; tauto.
  - vm_compute. reflexivity.
Defined.

(** ** The scheduler of the earlier engine *)

(** X30.  For connections whose endpoints are all node ids, the scheduler
    of the earlier engine raises no [TypeError] and returns the order the
    scheduler of the server returns; where the server reports a cycle, it
    reports one too, in its own words.  Allowing its loop more rounds than
    the in-degree map has entries changes nothing. *)
Theorem legacy_scheduler_agrees (push_error iterate_error : string)
    (nodes : list WorkflowNode) (connections : list Connection)
    (Hknown : known_endpoints nodes connections) :
  LegacyWorkflow.getExecutionOrder push_error iterate_error nodes connections
  = match getExecutionOrder nodes connections with
    | Ok order => Ok order
    | Throw _ => Throw LegacyWorkflow.cycle_message
    end
  /\ forall extra,
       LegacyWorkflow.schedule push_error iterate_error extra nodes connections
       = LegacyWorkflow.getExecutionOrder push_error iterate_error nodes connections.
Proof.
  pose proof (known_endpoints_keys nodes connections Hknown) as Hk.
  destruct (graph_keys_spec nodes) as (Hnd & _ & Hlen & Hg & Hz & He & _).
  destruct (build_graph_ok (graph_keys nodes) connections
              (fst (init_graph nodes)) (snd (init_graph nodes)) eq_refl Hg Hk)
    as (deg & graph & Hb & Hdk & _ & Hdeg & Hadj).
  destruct (kahn_inv_init connections (graph_keys nodes) deg Hnd Hdk)
    as [_ Hinit].
  { intros v Hv. rewrite (Hdeg v 0%Z (Hz v Hv)). reflexivity. }
  unfold LegacyWorkflow.getExecutionOrder, LegacyWorkflow.schedule.
  rewrite (legacy_build_graph push_error _ _ _ _ _ Hb).
  split.
  - unfold getExecutionOrder. rewrite Hb, Nat.add_0_r.
    rewrite (legacy_loop_agrees connections (graph_keys nodes) Hk iterate_error
               graph (fun u Hu => Hadj u [] (He u Hu)) _ _ _ _ Hinit).
    rewrite (kahn_loop_any_fuel graph deg (List.length nodes)).
    + destruct (negb _); reflexivity.
    + rewrite <- (length_map fst deg), Hdk. exact Hlen.
  - intros extra. rewrite Nat.add_0_r.
    replace (LegacyWorkflow.kahn_loop iterate_error (List.length deg + extra)
               graph deg (seeds deg) [])
      with (LegacyWorkflow.kahn_loop iterate_error (List.length deg)
              graph deg (seeds deg) []); [reflexivity|].
    symmetry. apply legacy_loop_enough. apply seeds_positives.
Qed.

Lemma legacy_scheduler_agrees_witness :
  LegacyWorkflow.getExecutionOrder "push" "iterate"
    (wf_nodes wf_diamond) (wf_connections wf_diamond)
  = Ok ["a"; "b"; "d"; "c"].
Proof.
  assert (Hknown : known_endpoints (wf_nodes wf_diamond) (wf_connections wf_diamond)).
  { intros c Hc. simpl in Hc.
    repeat (destruct Hc as [<-|Hc]; [simpl; tauto|]). contradiction. }
  rewrite (proj1 (legacy_scheduler_agrees "push" "iterate"
                    (wf_nodes wf_diamond) (wf_connections wf_diamond) Hknown)).
  reflexivity.
Defined.

